(** * Shell-style variable substitution: a model of [lib/index.ts]

    The development follows the source file top to bottom:

    - JavaScript strings, the runtime values an environment can hold or
      inherit, and the value trees that [interpolate] walks;
    - a backtracking matcher for the fragment of regular expressions the
      source uses, and the placeholder expression itself;
    - [String.prototype.replace] with a callback, over a small state and
      error monad (the callback [onMatchPlaceholder] is the state effect;
      [ValueError] and [SyntaxError] are the library's errors, and a
      [TypeError] is what calling a non-function gives);
    - [interpolateString], [interpolate0], [makeInterpolator] and
      [interpolate];
    - the properties of the specification, one theorem each. *)

From Stdlib Require Import Ascii String ZArith Lia DecimalString.
From stdpp Require Import base option list gmap strings.

Local Open Scope list_scope.

(** ** JavaScript strings

    A string is the list of its code units.  Code units are modelled as
    [ascii]; the placeholder expression has no [u] or [i] flag, so it works
    code unit by code unit and [\w] is exactly [[A-Za-z0-9_]]. *)

Abbreviation jsstring := (list ascii).

Definition str (s : string) : jsstring := list_ascii_of_string s.
Arguments str s%_string.

Definition code (c : ascii) : N := N_of_ascii c.

Definition between (lo hi : N) (c : ascii) : bool :=
  (N.leb lo (code c) && N.leb (code c) hi)%bool.

(** [\$] *)
Definition is_dollar (c : ascii) : bool := Ascii.eqb c "$".

(** [\w], that is [[A-Za-z0-9_]] *)
Definition is_word (c : ascii) : bool :=
  (between 65 90 c || between 97 122 c || between 48 57 c || Ascii.eqb c "_")%bool.

(** [[:\-\?]] *)
Definition is_kind_char (c : ascii) : bool :=
  (Ascii.eqb c ":" || Ascii.eqb c "-" || Ascii.eqb c "?")%bool.

(** [[^}]] *)
Definition not_rbrace (c : ascii) : bool := negb (Ascii.eqb c "}").

(** ** A backtracking matcher

    The fragment of regular expressions used by the source: single
    characters and classes, greedy [+] over a class, sequence, alternation,
    greedy [?] and numbered capturing groups (a non-capturing group is
    plain nesting). *)

Module Regex.

Inductive regex : Type :=
| Class (p : ascii → bool)
| PlusClass (p : ascii → bool)
| Seq (r1 r2 : regex)
| Alt (r1 r2 : regex)
| Opt (r : regex)
| Group (i : nat) (r : regex).

Definition Lit (c : ascii) : regex := Class (Ascii.eqb c).

(** The captures of groups 1, 2, ...: position [i - 1] holds the text of
    group [i], [None] standing for [undefined]. *)
Definition captures : Type := list (option jsstring).

Definition set_group (i : nat) (t : jsstring) (c : captures) : captures :=
  <[pred i := Some t]> c.

Section Matcher.
Context {R : Type}.

(** A continuation receives the text matched so far by the expression at
    hand, the rest of the input and the captures; [None] makes the
    matcher backtrack. *)
Definition cont : Type := jsstring → jsstring → captures → option R.

(** Greedy [p+]: [acc] is what the repetition has taken already.  Taking
    one more character is tried first; stopping here is tried when no
    longer run leads to a match. *)
Fixpoint plus_from (p : ascii → bool) (acc s : jsstring)
    (k : jsstring → jsstring → option R) : option R :=
  match s with
  | a :: s' =>
      if p a then
        match plus_from p (acc ++ [a]) s' k with
        | Some res => Some res
        | None => k (acc ++ [a]) s'
        end
      else None
  | [] => None
  end.

Fixpoint m (r : regex) (s : jsstring) (c : captures) (k : cont) : option R :=
  match r with
  | Class p =>
      match s with
      | a :: s' => if p a then k [a] s' c else None
      | [] => None
      end
  | PlusClass p => plus_from p [] s (λ t s', k t s' c)
  | Seq r1 r2 =>
      m r1 s c (λ t1 s1 c1, m r2 s1 c1 (λ t2 s2 c2, k (t1 ++ t2) s2 c2))
  | Alt r1 r2 =>
      match m r1 s c k with
      | Some res => Some res
      | None => m r2 s c k
      end
  | Opt r1 =>
      match m r1 s c k with
      | Some res => Some res
      | None => k [] s c
      end
  | Group i r1 => m r1 s c (λ t s' c', k t s' (set_group i t c'))
  end.
End Matcher.

(** Number of capturing groups. *)
Fixpoint groups (r : regex) : nat :=
  match r with
  | Class _ | PlusClass _ => 0
  | Seq r1 r2 | Alt r1 r2 => groups r1 `max` groups r2
  | Opt r1 => groups r1
  | Group i r1 => i `max` groups r1
  end.

(** One attempt at the start of [s]: the matched text, the rest of the
    input and the captures. *)
Definition exec (r : regex) (s : jsstring) : option (jsstring * jsstring * captures) :=
  m r s (replicate (groups r) None) (λ t s' c, Some (t, s', c)).

(** *** What a match is, without the search order

    [matches r c t c'] says that [r] can match the text [t], turning the
    captures [c] into [c'].  The matcher only ever reports such matches
    ([m_sound] below); which one it reports is fixed by its search. *)
Fixpoint matches (r : regex) (c : captures) (t : jsstring) (c' : captures) : Prop :=
  match r with
  | Class p => ∃ a, t = [a] ∧ p a = true ∧ c' = c
  | PlusClass p => t ≠ [] ∧ Forall (λ a, p a = true) t ∧ c' = c
  | Seq r1 r2 =>
      ∃ t1 t2 c1, t = t1 ++ t2 ∧ matches r1 c t1 c1 ∧ matches r2 c1 t2 c'
  | Alt r1 r2 => matches r1 c t c' ∨ matches r2 c t c'
  | Opt r1 => matches r1 c t c' ∨ (t = [] ∧ c' = c)
  | Group i r1 => ∃ c1, matches r1 c t c1 ∧ c' = set_group i t c1
  end.

(** A greedy run of [p] ends at [s]: the input is over or its next
    character is not in the class. *)
Definition stops (p : ascii → bool) (s : jsstring) : Prop :=
  match s with
  | [] => True
  | a :: _ => p a = false
  end.

End Regex.

Import Regex.

(** [/(\$+)?\$(?:(\w+)|{(\w+)(?:([:\-\?]+)([^}]+))?})/g] *)
Definition placeholder_body : regex :=
  Alt (Group 2 (PlusClass is_word))
      (Seq (Lit "{")
        (Seq (Group 3 (PlusClass is_word))
          (Seq (Opt (Seq (Group 4 (PlusClass is_kind_char))
                         (Group 5 (PlusClass not_rbrace))))
               (Lit "}")))).

Definition placeholder_regex : regex :=
  Seq (Opt (Group 1 (PlusClass is_dollar)))
      (Seq (Lit "$") placeholder_body).

(** [n] dollars. *)
Definition dollars (n : nat) : jsstring := replicate n "$"%char.

(** Group 1 after [n] extra dollars: [undefined] when there is none. *)
Definition escape (n : nat) : option jsstring :=
  match n with
  | O => None
  | S _ => Some (dollars n)
  end.

Definition with_escape (n : nat) (c : captures) : captures :=
  match n with
  | O => c
  | S _ => set_group 1 (dollars n) c
  end.

Definition no_groups : captures := [None; None; None; None; None].

(** Text in which no placeholder can start. *)
Definition literal (pre : jsstring) : Prop :=
  Forall (λ a, is_dollar a = false) pre.

(** A name: one or more word characters. *)
Definition is_name (nm : jsstring) : Prop :=
  nm ≠ [] ∧ Forall (λ a, is_word a = true) nm.

(** An operator kind as the expression reads it: one or more characters
    of [[:\-\?]]. *)
Definition is_kind (kd : jsstring) : Prop :=
  kd ≠ [] ∧ Forall (λ a, is_kind_char a = true) kd.

(** A fallback as the expression reads it after a kind: one or more
    characters other than the closing brace, and either the first is not
    of [[:\-\?]] (the kind has taken all of those) or there is just one
    character (the kind has given its last character back). *)
Definition is_fallback (fb : jsstring) : Prop :=
  fb ≠ [] ∧ Forall (λ a, not_rbrace a = true) fb ∧
  (stops is_kind_char fb ∨ length fb = 1).

(** ** Errors

    [ValueError] and [SyntaxError] are the library's own.  [TypeError] is
    the engine's, raised when the code calls what is no function; its
    message is the engine's wording.  [OtherError] stands for whatever
    else a function of the caller throws. *)

Inductive Error : Type :=
| ValueError (message : jsstring)
| SyntaxError (message : jsstring)
| TypeError (message : jsstring)
| OtherError (message : jsstring).

(** [new SyntaxError(message)]: the constructor prefixes the message. *)
Definition new_SyntaxError (message : jsstring) : Error :=
  SyntaxError (str "Invalid interpolation syntax; " ++ message).

(** Calling [callee], which is no function. *)
Definition not_a_function (callee : jsstring) : Error :=
  TypeError (callee ++ str " is not a function").

Inductive Outcome (A : Type) : Type :=
| Returned (a : A)
| Thrown (e : Error).
Arguments Returned {A} a.
Arguments Thrown {A} e.

(** ** Runtime values

    [Environment] is declared as a map from names to strings, but the
    source normalises [null] and [undefined] and forces a string with
    [toString()], its tests store [null], [undefined] and a number "to
    test edge cases and runtime values", and [env[name]] also finds what
    the environment inherits from its prototype, functions for the most
    part.  What is found at a name is therefore any runtime value.

    Numbers are the safe integers: up to 2^53 - 1 in absolute value every
    integer is a number and [toString()] prints its decimal digits.
    Fractions, [NaN] and larger numbers are outside the model. *)

Record SafeInteger : Type := {
  int_value :> Z;
  int_safe : Is_true (Z.abs int_value <=? 9007199254740991)%Z
}.

Notation "'safe' z" := {| int_value := z; int_safe := I |}
  (at level 10, z at level 9, only parsing).

(** [JOther text] is a value of another kind, as far as this program can
    see one: it is truthy and [text] is what its [toString()] returns.
    In an environment it is an object or a function (a native function
    prints as [function name() { [native code] }]); as a leaf of a value
    tree it is a symbol or the like, objects and functions having their
    own place there. *)
Inductive Scalar : Type :=
| JUndefined
| JNull
| JBoolean (b : bool)
| JNumber (n : SafeInteger)
| JString (s : jsstring)
| JOther (text : jsstring).

(** [v == null] *)
Definition is_nullish (v : Scalar) : bool :=
  match v with
  | JUndefined | JNull => true
  | _ => false
  end.

(** [ToBoolean], the test behind [||]. *)
Definition truthy (v : Scalar) : bool :=
  match v with
  | JUndefined | JNull => false
  | JBoolean b => b
  | JNumber n => negb (Z.eqb n 0)
  | JString s => negb (bool_decide (s = []))
  | JOther _ => true
  end.

(** [a || b] *)
Definition js_or (a b : Scalar) : Scalar := if truthy a then a else b.

(** [v.toString()], for a [v] that is neither [null] nor [undefined]
    (the call throws a TypeError on those; the source never makes it). *)
Definition toString (v : Scalar) : jsstring :=
  match v with
  | JUndefined => str "undefined"
  | JNull => str "null"
  | JBoolean true => str "true"
  | JBoolean false => str "false"
  | JNumber n => list_ascii_of_string (NilZero.string_of_int (Z.to_int n))
  | JString s => s
  | JOther text => text
  end.

(** [v === s] for a string [s]: no conversion is made. *)
Definition strict_equals (v : Scalar) (s : jsstring) : bool :=
  match v with
  | JString s' => bool_decide (s' = s)
  | _ => false
  end.

(** ** The environment

    The environment is an object used as a dictionary: its own entries,
    and the object it inherits from, if any.  [env[name]] is the own
    entry at [name] when there is one, whatever it holds; otherwise what
    the prototype gives at [name]; [undefined] when the chain ends. *)
#[warnings="-register-all"] Inductive Environment : Type :=
| Env (entries : gmap jsstring Scalar) (proto : option Environment).

Definition own (env : Environment) : gmap jsstring Scalar :=
  match env with Env entries _ => entries end.

Definition prototype (env : Environment) : option Environment :=
  match env with Env _ proto => proto end.

Fixpoint env_get (env : Environment) (name : jsstring) : Scalar :=
  match env with
  | Env entries proto =>
      match entries !! name with
      | Some v => v
      | None =>
          match proto with
          | Some p => env_get p name
          | None => JUndefined
          end
      end
  end.

(** The text of a native function. *)
Definition native (name : string) : Scalar :=
  JOther (str "function " ++ str name ++ str "() { [native code] }").

(** [Object.prototype]: what every object literal inherits.  All its
    property names are words, so a placeholder can name each of them.
    [__proto__] is an accessor; on an environment that inherits from
    [Object.prototype] it gives that object, whose text is
    ["[object Object]"]. *)
Definition Object_prototype : Environment :=
  Env (<[str "constructor" := native "Object"]>
      (<[str "toString" := native "toString"]>
      (<[str "toLocaleString" := native "toLocaleString"]>
      (<[str "valueOf" := native "valueOf"]>
      (<[str "hasOwnProperty" := native "hasOwnProperty"]>
      (<[str "isPrototypeOf" := native "isPrototypeOf"]>
      (<[str "propertyIsEnumerable" := native "propertyIsEnumerable"]>
      (<[str "__defineGetter__" := native "__defineGetter__"]>
      (<[str "__defineSetter__" := native "__defineSetter__"]>
      (<[str "__lookupGetter__" := native "__lookupGetter__"]>
      (<[str "__lookupSetter__" := native "__lookupSetter__"]>
      (<[str "__proto__" := JOther (str "[object Object]")]> ∅))))))))))))
      None.

(** An object literal [{ ... }] with the given entries. *)
Definition literal_object (entries : gmap jsstring Scalar) : Environment :=
  Env entries (Some Object_prototype).

(** [Object.create(null)] with the given entries. *)
Definition bare_object (entries : gmap jsstring Scalar) : Environment :=
  Env entries None.

(** What the environment inherits at a name. *)
Definition inherited (env : Environment) (name : jsstring) : Scalar :=
  match prototype env with
  | Some p => env_get p name
  | None => JUndefined
  end.

(** The environment with the own entry at [name] set, or removed. *)
Definition env_set (name : jsstring) (v : Scalar) (env : Environment) : Environment :=
  Env (<[name := v]> (own env)) (prototype env).

Definition env_delete (name : jsstring) (env : Environment) : Environment :=
  Env (delete name (own env)) (prototype env).

(** ** Value trees

    What [interpolate] is given: primitives, arrays, functions, and
    objects.  An object is the list of its own enumerable entries, in the
    order [Object.entries] lists them, and its prototype, of which this
    program sees one thing: what [toString] is along the chain.  A
    function is seen in one way too: through what it gives when it is
    called as a method without arguments.  Accessors and proxies are
    outside the model. *)

(** What a call gives: a value or an exception.  (A function that returns
    an object is as one that returns [undefined] for this program, which
    only compares the result with a string.) *)
Abbreviation Call := (Outcome Scalar).

(** The prototype of an object of a tree: [Object.prototype] (object
    literals, [JSON.parse]), none ([Object.create(null)]), or any other
    chain, of a class [cls] say.  For the last, [method] is what the
    chain gives as [toString]: [None] when it is no function, else what
    calling it on the object gives, ["[object Object]"] for a class that
    leaves [toString] alone. *)
Inductive Prototype : Type :=
| ObjectPrototype
| NullPrototype
| ClassPrototype (cls : jsstring) (method : option Call).

#[warnings="-register-all"] Inductive Value : Type :=
| VScalar (x : Scalar)
| VArray (elems : list Value)
| VObject (proto : Prototype) (entries : list (jsstring * Value))
| VFunction (result : Call).

(** The own property [key] of an object. *)
Fixpoint own_property (entries : list (jsstring * Value)) (key : jsstring)
    : option Value :=
  match entries with
  | [] => None
  | (k, v) :: rest =>
      if bool_decide (k = key) then Some v else own_property rest key
  end.

(** [Object.prototype.toString] on an object without a string tag. *)
Definition Object_prototype_toString : Call :=
  Returned (JString (str "[object Object]")).

(** [a.toString] on an object, as something to call: the own property
    when there is one, else what the prototype chain gives. *)
Definition toString_method (proto : Prototype) (entries : list (jsstring * Value))
    : option Call :=
  match own_property entries (str "toString") with
  | Some (VFunction result) => Some result
  | Some _ => None
  | None =>
      match proto with
      | ObjectPrototype => Some Object_prototype_toString
      | NullPrototype => None
      | ClassPrototype _ method => method
      end
  end.

(** [isString], [isArray] and [isObject], the tests [interpolate0] makes
    in this order.  [isObject] calls [a.toString()] and so can throw.
    (It is never asked of an array, whose [toString] joins the elements;
    the model answers no for one.) *)
Definition isString (a : Value) : bool :=
  match a with
  | VScalar (JString _) => true
  | _ => false
  end.

Definition isArray (a : Value) : bool :=
  match a with
  | VArray _ => true
  | _ => false
  end.

Definition isObject (a : Value) : Outcome bool :=
  match a with
  | VObject proto entries =>
      match toString_method proto entries with
      | None => Thrown (not_a_function (str "a.toString"))
      | Some (Thrown e) => Thrown e
      | Some (Returned x) => Returned (strict_equals x (str "[object Object]"))
      end
  | _ => Returned false
  end.

(** ** Matches and options *)

Record Operator : Type := { kind : jsstring; fallback : jsstring }.

Record Match : Type := {
  placeholder : jsstring;
  name : jsstring;
  value : Scalar;
  operator : option Operator;
  escaped : bool
}.


Section Interpolation.

(** The state the callback [onMatchPlaceholder] acts on.  It is the only
    side effect of the library. *)
Context {St : Type}.

(** The options as the library works with them, [InternalOptions] in the
    source: what the spread of the defaults and of the caller's options
    gives.  The two flags are only read in conditions, where [undefined]
    counts as [false].  The callback is called: [None] is a callback
    given as [undefined], which the spread takes over the default. *)
Record Options : Type := {
  preserveEscaped : bool;
  preserveUndefined : bool;
  onMatchPlaceholder : option (Match → St → St)
}.

Definition noop (_ : Match) (st : St) : St := st.

Definition defaultOptions : Options :=
  {| preserveEscaped := false; preserveUndefined := false;
     onMatchPlaceholder := Some noop |}.

(** A computation runs from a state to a state and either returns or
    throws; what the callback did before a throw stays done. *)
Definition M (A : Type) : Type := St → St * Outcome A.

Definition ret {A} (a : A) : M A := λ st, (st, Returned a).

Definition throw {A} (e : Error) : M A := λ st, (st, Thrown e).

Definition bind {A B} (x : M A) (f : A → M B) : M B :=
  λ st, match x st with
        | (st', Returned a) => f a st'
        | (st', Thrown e) => (st', Thrown e)
        end.

Definition call (f : St → St) : M unit := λ st, (f st, Returned tt).

(** An outcome as a computation that leaves the state alone. *)
Definition settle {A} (o : Outcome A) : M A := λ st, (st, o).

(** [opts.onMatchPlaceholder(match)] *)
Definition invoke (opts : Options) (mt : Match) : M unit :=
  match onMatchPlaceholder opts with
  | Some f => call (f mt)
  | None => throw (not_a_function (str "opts.onMatchPlaceholder"))
  end.

Notation "x <- e ;; k" := (bind e (λ x, k))
  (at level 100, e at next level, right associativity).

(** ** [String.prototype.replace] with a global expression and a callback

    The string is scanned left to right.  Where the expression matches,
    the callback's result replaces the matched text and scanning resumes
    after it ([skip] counts the characters of the match still to pass);
    elsewhere the character is copied.  An empty match replaces nothing
    and the scan moves one character on. *)
Fixpoint replace_from (r : regex) (f : jsstring → captures → M jsstring)
    (s : jsstring) (skip : nat) : M jsstring :=
  match s with
  | [] =>
      match exec r [] with
      | Some (t, _, groups) => f t groups
      | None => ret []
      end
  | a :: s' =>
      match skip with
      | S n => replace_from r f s' n
      | O =>
          match exec r s with
          | Some (t, _, groups) =>
              out <- f t groups ;;
              rest <- replace_from r f s' (pred (length t)) ;;
              ret (out ++ (if bool_decide (t = []) then [a] else []) ++ rest)
          | None =>
              rest <- replace_from r f s' 0 ;;
              ret (a :: rest)
          end
      end
  end.

Definition replace (r : regex) (f : jsstring → captures → M jsstring)
    (s : jsstring) : M jsstring :=
  replace_from r f s 0.

(** ** [interpolateString] *)

(** Capture [i] of a match, [None] for [undefined]. *)
Definition group (groups : captures) (i : nat) : option jsstring :=
  default None (groups !! pred i).

(** [name1 || name2] on captures: the empty string is falsy too. *)
Definition or_capture (a b : option jsstring) : option jsstring :=
  match a with
  | Some (_ :: _) => a
  | _ => b
  end.

(** The callback handed to [replace]. *)
Definition replacer (env : Environment) (opts : Options)
    (match_ : jsstring) (groups : captures) : M jsstring :=
  let escaped := group groups 1 in
  let name1 := group groups 2 in
  let name2 := group groups 3 in
  let kind' := group groups 4 in
  let fallback' := group groups 5 in
  if bool_decide (name1 = None) && bool_decide (name2 = None) then
    ret match_
  else
    let name := default [] (or_capture name1 name2) in
    let rawValue := if is_nullish (env_get env name) then JUndefined else env_get env name in
    let value := toString (js_or rawValue (JString [])) in
    let isUndefined := is_nullish rawValue in
    let isEmpty := bool_decide (value = []) in
    let isEscaped := bool_decide (escaped ≠ None) in
    operator <-
      match kind' with
      | Some k =>
          match fallback' with
          | None =>
              throw (new_SyntaxError (str "fallback not specified: '" ++ match_ ++ str "'"))
          | Some fb => ret (Some {| kind := k; fallback := fb |})
          end
      | None => ret None
      end ;;
    _ <- invoke opts
           {| placeholder := match_; name := name; value := rawValue;
              operator := operator; escaped := isEscaped |} ;;
    if isEscaped then
      if preserveEscaped opts then ret match_ else ret (drop 1 match_)
    else if isUndefined && preserveUndefined opts then
      ret match_
    else
      match operator with
      | None => ret value
      | Some operator =>
          if bool_decide (kind operator = str "-") then
            if isUndefined then ret (fallback operator) else ret value
          else if bool_decide (kind operator = str "?") then
            if isUndefined then throw (ValueError (fallback operator)) else ret value
          else if bool_decide (kind operator = str ":-") then
            if isUndefined || isEmpty then ret (fallback operator) else ret value
          else if bool_decide (kind operator = str ":?") then
            if isUndefined || isEmpty then throw (ValueError (fallback operator))
            else ret value
          else
            throw (new_SyntaxError
                     (str "unknown operator: '" ++ kind operator ++ str "'"))
      end.

Definition interpolateString (s : jsstring) (env : Environment) (opts : Options)
    : M jsstring :=
  replace placeholder_regex (replacer env opts) s.

(** ** [interpolate0], [makeInterpolator], [interpolate] *)

(** [obj[key] = v] on a plain object: an existing property keeps its place
    and takes the new value, a new one goes last. *)
Fixpoint set_property {A} (entries : list (jsstring * A)) (key : jsstring) (v : A)
    : list (jsstring * A) :=
  match entries with
  | [] => [(key, v)]
  | (k, w) :: rest =>
      if bool_decide (k = key) then (k, v) :: rest
      else (k, w) :: set_property rest key v
  end.

(** [Object.fromEntries] *)
Definition fromEntries {A} (entries : list (jsstring * A)) : list (jsstring * A) :=
  foldl (λ obj kv, set_property obj kv.1 kv.2) [] entries.

(** [Array.prototype.map] with an effectful callback: elements are
    visited in index order. *)
Definition mapM {A B} (f : A → M B) : list A → M (list B) :=
  fix go (l : list A) : M (list B) :=
    match l with
    | [] => ret []
    | a :: l' =>
        b <- f a ;;
        bs <- go l' ;;
        ret (b :: bs)
    end.

Fixpoint interpolate0 (obj : Value) (env : Environment) (opts : Options) : M Value :=
  match obj with
  | VScalar (JString s) =>
      s' <- interpolateString s env opts ;;
      ret (VScalar (JString s'))
  | VArray elems =>
      elems' <- mapM (λ value, interpolate0 value env opts) elems ;;
      ret (VArray elems')
  | VObject proto entries =>
      plain <- settle (isObject obj) ;;
      if plain then
        entries' <- mapM (λ kv, v <- interpolate0 kv.2 env opts ;; ret (kv.1, v)) entries ;;
        ret (VObject ObjectPrototype (fromEntries entries'))
      else ret obj
  | _ => ret obj
  end.

(** The options of the caller, [Options] in the source: every field may
    be absent ([None]).  A field that is present may hold [undefined]; for
    a flag that reads as [false], like an absent one, and is not told
    apart here; for the callback it is [Some None].

    [{...defaultOptions, ...options}]: every field the caller gives
    replaces the default, [undefined] included. *)
Record PartialOptions : Type := {
  preserveEscaped_opt : option bool;
  preserveUndefined_opt : option bool;
  onMatchPlaceholder_opt : option (option (Match → St → St))
}.

Definition merge_options (options : option PartialOptions) : Options :=
  match options with
  | None => defaultOptions
  | Some o =>
      {| preserveEscaped := default (preserveEscaped defaultOptions) (preserveEscaped_opt o);
         preserveUndefined := default (preserveUndefined defaultOptions) (preserveUndefined_opt o);
         onMatchPlaceholder := default (onMatchPlaceholder defaultOptions) (onMatchPlaceholder_opt o) |}
  end.

Definition makeInterpolator (env : Environment) (options : option PartialOptions)
    : Value → M Value :=
  let opts := merge_options options in
  λ obj, interpolate0 obj env opts.

Definition interpolate (obj : Value) (env : Environment) (options : option PartialOptions)
    : M Value :=
  makeInterpolator env options obj.

End Interpolation.

Arguments Options St : clear implicits.
Arguments PartialOptions St : clear implicits.
Arguments M St A : clear implicits.

Notation "x <- e ;; k" := (bind e (λ x, k))
  (at level 100, e at next level, right associativity).

(** ** Reading [interpolateString]

    The pieces of the replacer, named so that properties can speak of
    them: what a name resolves to, the record the callback receives, and
    the decision taken once the callback has run. *)

(** [rawValue]: [null] is normalised to [undefined]. *)
Definition rawValue_of (env : Environment) (nm : jsstring) : Scalar :=
  if is_nullish (env_get env nm) then JUndefined else env_get env nm.

(** [value]: the string that stands for the name. *)
Definition value_of (env : Environment) (nm : jsstring) : jsstring :=
  toString (js_or (rawValue_of env nm) (JString [])).

(** [isUndefined] *)
Definition is_undefined (env : Environment) (nm : jsstring) : bool :=
  is_nullish (rawValue_of env nm).

Definition name_of (groups : captures) : jsstring :=
  default [] (or_capture (group groups 2) (group groups 3)).

Definition operator_of (groups : captures) : option Operator :=
  match group groups 4, group groups 5 with
  | Some k, Some fb => Some {| kind := k; fallback := fb |}
  | _, _ => None
  end.

(** The record handed to [onMatchPlaceholder] for a match. *)
Definition match_record (env : Environment) (t : jsstring) (groups : captures) : Match :=
  {| placeholder := t;
     name := name_of groups;
     value := rawValue_of env (name_of groups);
     operator := operator_of groups;
     escaped := bool_decide (group groups 1 ≠ None) |}.

(** What the replacer does after the callback, as a function of the
    record it has just handed over. *)
Definition substitution {St} (opts : Options St) (mt : Match) : Outcome jsstring :=
  let text := toString (js_or (value mt) (JString [])) in
  let isUndefined := is_nullish (value mt) in
  let isEmpty := bool_decide (text = []) in
  if escaped mt then
    if preserveEscaped opts then Returned (placeholder mt)
    else Returned (drop 1 (placeholder mt))
  else if isUndefined && preserveUndefined opts then
    Returned (placeholder mt)
  else
    match operator mt with
    | None => Returned text
    | Some op =>
        if bool_decide (kind op = str "-") then
          if isUndefined then Returned (fallback op) else Returned text
        else if bool_decide (kind op = str "?") then
          if isUndefined then Thrown (ValueError (fallback op)) else Returned text
        else if bool_decide (kind op = str ":-") then
          if isUndefined || isEmpty then Returned (fallback op) else Returned text
        else if bool_decide (kind op = str ":?") then
          if isUndefined || isEmpty then Thrown (ValueError (fallback op))
          else Returned text
        else
          Thrown (new_SyntaxError (str "unknown operator: '" ++ kind op ++ str "'"))
    end.

(** All the matches [replace] finds, left to right. *)
Fixpoint matchAll_from (r : regex) (s : jsstring) (skip : nat)
    : list (jsstring * captures) :=
  match s with
  | [] =>
      match exec r [] with
      | Some (t, _, groups) => [(t, groups)]
      | None => []
      end
  | a :: s' =>
      match skip with
      | S n => matchAll_from r s' n
      | O =>
          match exec r s with
          | Some (t, _, groups) => (t, groups) :: matchAll_from r s' (pred (length t))
          | None => matchAll_from r s' 0
          end
      end
  end.

Definition matchAll (r : regex) (s : jsstring) : list (jsstring * captures) :=
  matchAll_from r s 0.

(** The placeholders of a string, as the records the callback sees. *)
Definition placeholders_from (env : Environment) (s : jsstring) (skip : nat)
    : list Match :=
  map (λ tg, match_record env tg.1 tg.2) (matchAll_from placeholder_regex s skip).

Definition placeholders (env : Environment) (s : jsstring) : list Match :=
  placeholders_from env s 0.

(** The callback applied to a list of records, first to last. *)
Definition notify {St} (opts : Options St) (recs : list Match) (st : St) : St :=
  match onMatchPlaceholder opts with
  | Some f => foldl (λ st mt, f mt st) st recs
  | None => st
  end.

(** The groups of a match of the placeholder expression. *)
Definition placeholder_groups (g : captures) : Prop :=
  ∃ esc nm, is_name nm ∧
    (g = [esc; Some nm; None; None; None] ∨
     g = [esc; None; Some nm; None; None] ∨
     ∃ kd fb, is_kind kd ∧ fb ≠ [] ∧ g = [esc; None; Some nm; Some kd; Some fb]).

(** [${body}] *)
Definition braced (body : jsstring) : jsstring := str "${" ++ body ++ str "}".

(** The record of the unescaped placeholder [$NAME]. *)
Definition plain_record (env : Environment) (nm : jsstring) : Match :=
  {| placeholder := str "$" ++ nm; name := nm; value := rawValue_of env nm;
     operator := None; escaped := false |}.

(** The record of the unescaped placeholder [${NAME}]. *)
Definition braced_record (env : Environment) (nm : jsstring) : Match :=
  {| placeholder := braced nm; name := nm; value := rawValue_of env nm;
     operator := None; escaped := false |}.

(** The record of the unescaped placeholder [${NAME<kind><fallback>}]. *)
Definition operator_record (env : Environment) (nm kd fb : jsstring) : Match :=
  {| placeholder := braced (nm ++ kd ++ fb); name := nm; value := rawValue_of env nm;
     operator := Some {| kind := kd; fallback := fb |}; escaped := false |}.

(** The same records, with the value the callback is shown written out. *)
Definition plain_match (nm : jsstring) (v : Scalar) : Match :=
  {| placeholder := str "$" ++ nm; name := nm; value := v;
     operator := None; escaped := false |}.

Definition braced_match (nm : jsstring) (v : Scalar) : Match :=
  {| placeholder := braced nm; name := nm; value := v;
     operator := None; escaped := false |}.

Definition operator_match (nm kd fb : jsstring) (v : Scalar) : Match :=
  {| placeholder := braced (nm ++ kd ++ fb); name := nm; value := v;
     operator := Some {| kind := kd; fallback := fb |}; escaped := false |}.

(** The name is undefined as the documentation of [Match] has it: no key
    with that name exists, or it exists and holds [null] or [undefined].
    Where no key exists, nothing is inherited at the name either. *)
Definition undefined_entry (env : Environment) (nm : jsstring) : Prop :=
  (own env !! nm = None ∧ is_nullish (inherited env nm) = true) ∨
  own env !! nm = Some JNull ∨ own env !! nm = Some JUndefined.

(** What can follow the dollars of a placeholder: a name, a braced name,
    or a braced name with a kind and a fallback text. *)
Inductive is_form : jsstring → Prop :=
| form_name nm : is_name nm → is_form nm
| form_braced nm : is_name nm → is_form (str "{" ++ nm ++ str "}")
| form_operator nm kd fb :
    is_name nm → is_kind kd → fb ≠ [] → Forall (λ a, not_rbrace a = true) fb →
    is_form (str "{" ++ nm ++ kd ++ fb ++ str "}").

(** The options with [preserveEscaped] set to [b]. *)
Definition with_preserveEscaped {St} (b : bool) (opts : Options St) : Options St :=
  {| preserveEscaped := b;
     preserveUndefined := preserveUndefined opts;
     onMatchPlaceholder := onMatchPlaceholder opts |}.

(** The names the placeholders of a string refer to. *)
Definition referenced_names (s : jsstring) : list jsstring :=
  map (λ tg, name_of tg.2) (matchAll placeholder_regex s).

(** The strings of a value tree that [interpolate0] comes to, keys apart:
    it does not enter an object that [isObject] refuses. *)
Fixpoint strings_of (v : Value) : list jsstring :=
  match v with
  | VScalar (JString s) => [s]
  | VArray elems => flat_map strings_of elems
  | VObject proto entries =>
      match isObject (VObject proto entries) with
      | Returned true => flat_map (λ kv, strings_of kv.2) entries
      | _ => []
      end
  | _ => []
  end.

(** The names the placeholders of a value tree refer to. *)
Definition referenced_names_in (v : Value) : list jsstring :=
  flat_map referenced_names (strings_of v).

(** The placeholders of a value tree, in the order of the traversal. *)
Definition placeholders_in (env : Environment) (v : Value) : list Match :=
  flat_map (placeholders env) (strings_of v).

(** A value tree as JavaScript can build it: the keys of an object are
    distinct. *)
#[warnings="-register-all"] Inductive wf_value : Value → Prop :=
| wf_scalar x : wf_value (VScalar x)
| wf_array elems : Forall wf_value elems → wf_value (VArray elems)
| wf_object proto entries :
    NoDup entries.*1 → Forall (λ kv, wf_value kv.2) entries →
    wf_value (VObject proto entries)
| wf_function result : wf_value (VFunction result).

(** A tree of plain data: the objects that [interpolate0] enters are
    object literals with distinct keys; the others are those that
    [isObject] refuses. *)
#[warnings="-register-all"] Inductive plain_tree : Value → Prop :=
| plain_scalar x : plain_tree (VScalar x)
| plain_function result : plain_tree (VFunction result)
| plain_array elems : Forall plain_tree elems → plain_tree (VArray elems)
| plain_object entries :
    isObject (VObject ObjectPrototype entries) = Returned true →
    NoDup entries.*1 → Forall (λ kv, plain_tree kv.2) entries →
    plain_tree (VObject ObjectPrototype entries)
| plain_refused proto entries :
    isObject (VObject proto entries) = Returned false →
    plain_tree (VObject proto entries).

(** [f] takes the elements of [l] to those of [l'], one after the other,
    each returning, from the state [st] to the state [st']. *)
Inductive mapped {St A B : Type} (f : A → M St B) : St → list A → St → list B → Prop :=
| mapped_nil st : mapped f st [] st []
| mapped_cons st st1 st2 a b l l' :
    f a st = (st1, Returned b) → mapped f st1 l st2 l' →
    mapped f st (a :: l) st2 (b :: l').

(** A decision that returns. *)
Definition returns {St} (opts : Options St) (mt : Match) : Prop :=
  ∃ out, substitution opts mt = Returned out.

(** ** The scenarios of the test suite *)

Definition test_entries : gmap jsstring Scalar :=
  <[str "VAR" := JString (str "value")]>
  (<[str "EMPTY" := JString []]>
  (<[str "NULL" := JNull]>
  (<[str "UNDEFINED" := JUndefined]>
  (<[str "NUMBER" := JNumber (safe 5)]> ∅)))).

Definition test_env : Environment := literal_object test_entries.

(** A callback that logs the matches it is given, oldest first. *)
Definition log_match (mt : Match) (log : list Match) : list Match := log ++ [mt].

Definition logging (pe pu : bool) : Options (list Match) :=
  {| preserveEscaped := pe; preserveUndefined := pu;
     onMatchPlaceholder := Some log_match |}.

Definition quiet (pe pu : bool) : Options unit :=
  {| preserveEscaped := pe; preserveUndefined := pu;
     onMatchPlaceholder := Some noop |}.

Definition run_string (s : string) (pe pu : bool) : Outcome jsstring :=
  (interpolateString (str s) test_env (quiet pe pu) tt).2.

(** Two value trees of the kind the test suite builds. *)
Definition noop_tree : Value :=
  VArray [VScalar (JString (str "$$OTHER and ${HOME:?unset}"));
          VObject ObjectPrototype [(str "$VAR", VScalar (JString (str "$USER")));
                   (str "n", VScalar (JNumber (safe 5)))];
          VScalar JNull].

Definition shape_tree : Value :=
  VObject ObjectPrototype [(str "$VAR", VArray [VScalar (JString (str "$VAR")); VScalar (JNumber (safe 5))]);
           (str "p2", VScalar (JString (str "${UNSET:-x}")))].

(** A date: an object whose [toString()] gives the date. *)
Definition date_tree : Value :=
  VObject (ClassPrototype (str "Date")
             (Some (Returned (JString (str "Mon Nov 02 2026 10:00:00 GMT+0000")))))
          [(str "note", VScalar (JString (str "$VAR")))].

(** ** Tactics *)

(** A closed name is a name. *)
Ltac name_ok := split; [done|by repeat constructor].

(** Evaluates the comparisons of a known kind with the four operators. *)
Ltac eval_kinds :=
  repeat match goal with
  | |- context [bool_decide (?x = ?y)] =>
      let b := eval vm_compute in (bool_decide (x = y)) in
      match b with
      | true => idtac
      | false => idtac
      end;
      change (bool_decide (x = y)) with b
  end.

(** ** Further notions for the properties of the whole library *)

(** Text that cannot turn the dollars before it into a placeholder: it is
    empty, or begins with a character that is neither a dollar, nor a word
    character, nor an opening brace. *)
Definition no_start (post : jsstring) : Prop :=
  match post with
  | [] => True
  | a :: _ => is_dollar a = false ∧ is_word a = false ∧ a ≠ "{"%char
  end.


(** What a traversal comes to, in order: a placeholder, or an [isObject]
    test that throws. *)
Inductive Event : Type :=
| Visit (mt : Match)
| Fail (e : Error).

(** The placeholders among the events. *)
Definition visited (evs : list Event) : list Match :=
  omap (λ ev, match ev with Visit mt => Some mt | Fail _ => None end) evs.

(** The events of a value tree: the placeholders of the strings
    [interpolate0] comes to, and the failures of [isObject], in the order
    of the traversal. *)
Fixpoint events (env : Environment) (v : Value) : list Event :=
  match v with
  | VScalar (JString s) => Visit <$> placeholders env s
  | VArray elems => flat_map (events env) elems
  | VObject proto entries =>
      match isObject (VObject proto entries) with
      | Returned true => flat_map (λ kv, events env kv.2) entries
      | Returned false => []
      | Thrown e => [Fail e]
      end
  | _ => []
  end.

(** An event after which the run goes on: a placeholder whose callback
    can be called and whose decision returns. *)
Definition passes {St} (opts : Options St) (ev : Event) : Prop :=
  match ev with
  | Visit mt => is_Some (onMatchPlaceholder opts) ∧ returns opts mt
  | Fail _ => False
  end.

(** An event that ends the run with the error [e]: a placeholder whose
    callback is no function, or else whose decision throws [e]; an
    [isObject] test that throws [e]. *)
Definition raises {St} (opts : Options St) (ev : Event) (e : Error) : Prop :=
  match ev with
  | Visit mt =>
      match onMatchPlaceholder opts with
      | None => e = not_a_function (str "opts.onMatchPlaceholder")
      | Some _ => substitution opts mt = Thrown e
      end
  | Fail e' => e = e'
  end.

(** A run over a list of events: either it returns, every event has
    passed and the callback has been applied to all the placeholders; or
    it throws at the first event that does not pass, and the callback has
    been applied to the placeholders up to that event, itself included. *)
Definition run_over {St A} (opts : Options St) (evs : list Event) (st : St)
    (res : St * Outcome A) : Prop :=
  match res with
  | (st', Returned _) =>
      st' = notify opts (visited evs) st ∧ Forall (passes opts) evs
  | (st', Thrown e) =>
      ∃ k ev, evs !! k = Some ev ∧ raises opts ev e ∧
              Forall (passes opts) (take k evs) ∧
              st' = notify opts (visited (take (S k) evs)) st
  end.

(** The options with [preserveUndefined] set to [b]. *)
Definition with_preserveUndefined {St} (b : bool) (opts : Options St) : Options St :=
  {| preserveEscaped := preserveEscaped opts;
     preserveUndefined := b;
     onMatchPlaceholder := onMatchPlaceholder opts |}.

(** The record of the escaped placeholder made of [S (S n)] dollars and a
    form with the name [nm] and the operator [op]. *)
Definition escaped_record (env : Environment) (n : nat) (form nm : jsstring)
    (op : option Operator) : Match :=
  {| placeholder := dollars (S (S n)) ++ form; name := nm;
     value := rawValue_of env nm; operator := op; escaped := true |}.

(** What an unescaped placeholder without operator stands for: itself when
    it is undefined and preserved, nothing when it is undefined, its value
    otherwise. *)
Definition plain_output {St : Type} (env : Environment) (opts : Options St)
    (nm text : jsstring) : jsstring :=
  if is_undefined env nm then
    if preserveUndefined opts then text else []
  else value_of env nm.

(** A tree whose second string fails. *)
Definition failing_tree : Value :=
  VArray [VScalar (JString (str "$VAR"));
          VObject ObjectPrototype [(str "k", VScalar (JString (str "${UNSET?boom} $EMPTY")))];
          VScalar (JString (str "$NUMBER"))].

(** A tree with an object that has a key [toString]. *)
Definition unprintable_tree : Value :=
  VArray [VScalar (JString (str "$VAR"));
          VObject ObjectPrototype [(str "toString", VScalar (JString (str "x")))];
          VScalar (JString (str "$EMPTY"))].

(** Two environments of the kind a second pass is run with. *)
Definition env_more : Environment :=
  env_set (str "HOME") (JString (str "/root")) test_env.

Definition tree_of_var : Value :=
  VArray [VScalar (JString (str "$VAR and ${NULL:-d}")); VScalar (JNumber (safe 5))].

Definition tree_unescaped : Value :=
  VArray [VScalar (JString (str "$VAR ${UNSET-x}")); VScalar (JString (str "$ $$"))].

Definition tree_defined : Value :=
  VArray [VScalar (JString (str "$VAR ${EMPTY:-x} $$UNSET"));
          VScalar (JString (str "${NUMBER}"))].

(** The text made of the gaps with a part after each but the last:
    [g0 ++ p1 ++ g1 ++ ... ++ pn ++ gn]. *)
Fixpoint interleave (gaps parts : list jsstring) : jsstring :=
  match gaps with
  | [] => []
  | g :: gaps' =>
      match parts with
      | [] => g
      | p :: parts' => g ++ p ++ interleave gaps' parts'
      end
  end.

(** * Properties *)

(** ** The expression and the scenarios, evaluated *)

Example exec_ex1 : exec placeholder_regex (str "$$VAR-x") =
  Some (str "$$VAR", str "-x", [Some (str "$"); Some (str "VAR"); None; None; None]).
Proof. reflexivity. Qed.

Example exec_ex2 : exec placeholder_regex (str "${VAR-:x}y") =
  Some (str "${VAR-:x}", str "y", [None; None; Some (str "VAR"); Some (str "-:"); Some (str "x")]).
Proof. reflexivity. Qed.

Example exec_ex3 : exec placeholder_regex (str "${VAR:-}") =
  Some (str "${VAR:-}", [], [None; None; Some (str "VAR"); Some (str ":"); Some (str "-")]).
Proof. reflexivity. Qed.

Example exec_ex4 : exec placeholder_regex (str "${VAR-}") = None.
Proof. reflexivity. Qed.

Example scenario_trivial : run_string "$VAR" false false = Returned (str "value").
Proof. vm_compute. reflexivity. Qed.
Example scenario_complex : run_string "pre$$fix${UNSET:-default 1_^C#$-r} in$$fix${NUMBER} suf$$fix" false false
  = Returned (str "pre$fixdefault 1_^C#$-r in$fix5 suf$fix").
Proof. vm_compute. reflexivity. Qed.
Example scenario_required : run_string "${EMPTY:?error 1_^C#$-r}" false false
  = Thrown (ValueError (str "error 1_^C#$-r")).
Proof. vm_compute. reflexivity. Qed.
Example scenario_non_placeholders : run_string "$$${VAR} ${$VAR} some$${value $NULL$UNDEFINED$" false false
  = Returned (str "$${VAR} ${value} some$${value $").
Proof. vm_compute. reflexivity. Qed.
Example scenario_preserved : run_string "$$VAR $NOT_A_VAR" true true = Returned (str "$$VAR $NOT_A_VAR").
Proof. vm_compute. reflexivity. Qed.

(** ** The matcher *)

Section MatcherFacts.
Context {R : Type}.
Implicit Types (p : ascii → bool) (k : jsstring → jsstring → option R).

Lemma plus_from_stops p acc s k : stops p s → plus_from p acc s k = None.
Proof. destruct s as [|a s]; simpl; [done|]. by intros ->. Qed.

(** Whatever [p+] hands to its continuation is a non-empty run of [p] at
    the start of the input. *)
Lemma plus_from_sound p acc s k res :
  plus_from p acc s k = Some res →
  ∃ t s', t ≠ [] ∧ Forall (λ a, p a = true) t ∧ s = t ++ s' ∧
          k (acc ++ t) s' = Some res.
Proof.
  revert acc. induction s as [|a s IH]; intros acc H; simpl in H; [done|].
  destruct (p a) eqn:Hp; [|done].
  destruct (plus_from p (acc ++ [a]) s k) eqn:E.
  - simplify_eq. destruct (IH _ E) as (t & s' & _ & Hall & -> & Hk).
    exists (a :: t), s'. rewrite <- app_assoc in Hk.
    split_and!; [done|by constructor|done|done].
  - exists [a], s. split_and!; [done|by repeat constructor|done|done].
Qed.

(** The longest run is tried first. *)
Lemma plus_from_greedy p run rest acc k res :
  run ≠ [] → Forall (λ a, p a = true) run → stops p rest →
  k (acc ++ run) rest = Some res →
  plus_from p acc (run ++ rest) k = Some res.
Proof.
  revert acc. induction run as [|a run IH]; intros acc Hne Hall Hstop Hk; [done|].
  inversion_clear Hall as [|? ? Ha Hrun]. simpl. rewrite Ha.
  destruct run as [|b run].
  - simpl. by rewrite plus_from_stops.
  - rewrite (IH (acc ++ [a])); [done|done|done|done|].
    by rewrite <- app_assoc.
Qed.

(** When the longest run fails, the run one character shorter is next. *)
Lemma plus_from_backtrack p run a rest acc k res :
  run ≠ [] → Forall (λ a, p a = true) run → p a = true → stops p rest →
  k (acc ++ run ++ [a]) rest = None →
  k (acc ++ run) (a :: rest) = Some res →
  plus_from p acc (run ++ a :: rest) k = Some res.
Proof.
  revert acc. induction run as [|b run IH]; intros acc Hne Hall Ha Hstop Hlong Hk; [done|].
  inversion_clear Hall as [|? ? Hb Hrun]. simpl. rewrite Hb.
  destruct run as [|b' run].
  - simpl. rewrite Ha, plus_from_stops by done.
    rewrite <- app_assoc. simpl in Hlong |- *. by rewrite Hlong.
  - rewrite (IH (acc ++ [b])); [done|done|done|done|done| |].
    + by rewrite <- app_assoc.
    + by rewrite <- app_assoc.
Qed.

(** The matcher is sound for [matches]: a result comes from the
    continuation, called on a split of the input into a matched text and
    a rest. *)
Lemma m_sound r s c (k : cont) (res : R) :
  m r s c k = Some res →
  ∃ t s' c', s = t ++ s' ∧ matches r c t c' ∧ k t s' c' = Some res.
Proof.
  revert s c k. induction r as [p|p|r1 IH1 r2 IH2|r1 IH1 r2 IH2|r1 IH1|i r1 IH1];
    intros s c k H; cbn [m] in H.
  - destruct s as [|a s]; [done|]. destruct (p a) eqn:Hp; [|done].
    exists [a], s, c. split_and!; [done| |done]. by exists a.
  - apply plus_from_sound in H as (t & s' & Hne & Hall & -> & Hk).
    by exists t, s', c.
  - apply IH1 in H as (t1 & s1 & c1 & -> & M1 & H).
    apply IH2 in H as (t2 & s2 & c2 & -> & M2 & H).
    exists (t1 ++ t2), s2, c2. split_and!; [by rewrite app_assoc| |done].
    by exists t1, t2, c1.
  - destruct (m r1 s c k) eqn:E.
    + simplify_eq. apply IH1 in E as (t & s' & c' & -> & M1 & Hk).
      exists t, s', c'. split_and!; [done|by left|done].
    + apply IH2 in H as (t & s' & c' & -> & M2 & Hk).
      exists t, s', c'. split_and!; [done|by right|done].
  - destruct (m r1 s c k) eqn:E.
    + simplify_eq. apply IH1 in E as (t & s' & c' & -> & M1 & Hk).
      exists t, s', c'. split_and!; [done|by left|done].
    + exists [], s, c. split_and!; [done|by right|done].
  - apply IH1 in H as (t & s' & c' & -> & M1 & Hk).
    exists t, s', (set_group i t c'). split_and!; [done| |done]. by exists c'.
Qed.

End MatcherFacts.

Lemma exec_sound r s t s' g :
  exec r s = Some (t, s', g) →
  s = t ++ s' ∧ matches r (replicate (groups r) None) t g.
Proof.
  intros H. apply m_sound in H as (t0 & s0 & c0 & -> & Hm & Hk). by simplify_eq.
Qed.

(** ** The placeholder expression *)

Lemma is_dollar_true a : is_dollar a = true ↔ a = "$"%char.
Proof. apply Ascii.eqb_eq. Qed.

Lemma lit_dollar a : Ascii.eqb "$" a = is_dollar a.
Proof. apply Ascii.eqb_sym. Qed.

Lemma kind_char_cases a :
  is_kind_char a = true → a = ":"%char ∨ a = "-"%char ∨ a = "?"%char.
Proof.
  unfold is_kind_char. rewrite !orb_true_iff, !Ascii.eqb_eq. tauto.
Qed.

Lemma kind_not_word a : is_kind_char a = true → is_word a = false.
Proof. intros [->|[->| ->]]%kind_char_cases; reflexivity. Qed.

Lemma kind_not_rbrace a : is_kind_char a = true → not_rbrace a = true.
Proof. intros [->|[->| ->]]%kind_char_cases; reflexivity. Qed.

Lemma word_not_dollar a : is_word a = true → is_dollar a = false.
Proof.
  intros Hw. destruct (is_dollar a) eqn:E; [|done].
  apply is_dollar_true in E as ->. discriminate.
Qed.

Lemma groups_placeholder_regex :
  replicate (groups placeholder_regex) None = no_groups.
Proof. reflexivity. Qed.

Section PlaceholderFacts.
Context {R : Type}.
Implicit Types (k : @cont R) (res : R).

Lemma m_Class p s c k :
  m (Class p) s c k =
  match s with a :: s' => if p a then k [a] s' c else None | [] => None end.
Proof. reflexivity. Qed.

Lemma m_PlusClass p s c k :
  m (PlusClass p) s c k = plus_from p [] s (λ t s', k t s' c).
Proof. reflexivity. Qed.

Lemma m_Seq r1 r2 s c k :
  m (Seq r1 r2) s c k =
  m r1 s c (λ t1 s1 c1, m r2 s1 c1 (λ t2 s2 c2, k (t1 ++ t2) s2 c2)).
Proof. reflexivity. Qed.

Lemma m_Alt r1 r2 s c k :
  m (Alt r1 r2) s c k =
  match m r1 s c k with Some res => Some res | None => m r2 s c k end.
Proof. reflexivity. Qed.

Lemma m_Opt r s c k :
  m (Opt r) s c k =
  match m r s c k with Some res => Some res | None => k [] s c end.
Proof. reflexivity. Qed.

Lemma m_Group i r s c k :
  m (Group i r) s c k = m r s c (λ t s' c', k t s' (set_group i t c')).
Proof. reflexivity. Qed.

(** A literal character at the head of the input. *)
Lemma m_Lit_head a s c k : m (Lit a) (a :: s) c k = k [a] s c.
Proof. unfold Lit. by rewrite m_Class, Ascii.eqb_refl. Qed.

(** The dollar that introduces a placeholder cannot be found where the
    run of dollars has ended. *)
Lemma m_dollar_stops (r : regex) tail c k :
  stops is_dollar tail → m (Seq (Lit "$") r) tail c k = None.
Proof.
  intros Hstop. rewrite m_Seq. unfold Lit. rewrite m_Class.
  destruct tail as [|a tail]; [done|]. by rewrite lit_dollar, Hstop.
Qed.

(** After [S n] dollars the last one introduces the placeholder and the
    [n] before it are the escape. *)
Lemma m_dollars n tail c k res :
  stops is_dollar tail →
  m placeholder_body tail (with_escape n c)
    (λ t s' c', k (dollars n ++ ["$"%char] ++ t) s' c') = Some res →
  m placeholder_regex (dollars (S n) ++ tail) c k = Some res.
Proof.
  intros Hstop H. unfold placeholder_regex.
  rewrite m_Seq, m_Opt, m_Group, m_PlusClass.
  destruct n as [|n].
  - change (dollars 1 ++ tail) with ("$"%char :: tail).
    cbn [plus_from app]. change (is_dollar "$") with true. cbn match.
    rewrite plus_from_stops by done.
    rewrite (m_dollar_stops _ tail) by done.
    rewrite m_Seq, m_Lit_head. exact H.
  - replace (dollars (S (S n)) ++ tail) with (dollars (S n) ++ "$"%char :: tail).
    2:{ unfold dollars. rewrite (replicate_S_end (S n)), <- app_assoc. done. }
    erewrite plus_from_backtrack; [done|done| |done|done| |].
    + apply Forall_replicate. done.
    + by apply m_dollar_stops.
    + rewrite m_Seq, m_Lit_head. exact H.
Qed.

End PlaceholderFacts.

Section BodyFacts.
Context {R : Type}.
Implicit Types (k : @cont R) (res : R).

(** [$NAME]: the name is the longest run of word characters. *)
Lemma m_body_name nm post c k res :
  is_name nm → stops is_word post →
  k nm post (set_group 2 nm c) = Some res →
  m placeholder_body (nm ++ post) c k = Some res.
Proof.
  intros [Hne Hall] Hstop Hk. unfold placeholder_body.
  rewrite m_Alt, m_Group, m_PlusClass.
  by erewrite plus_from_greedy.
Qed.

Lemma m_name_lbrace s c k : m (Group 2 (PlusClass is_word)) ("{"%char :: s) c k = None.
Proof. reflexivity. Qed.

(** The operator part needs a character of [[:\-\?]] first. *)
Lemma m_operator_stops (r : regex) s c k :
  stops is_kind_char s → m (Seq (Group 4 (PlusClass is_kind_char)) r) s c k = None.
Proof.
  intros Hstop. rewrite m_Seq, m_Group, m_PlusClass. by apply plus_from_stops.
Qed.

(** [${NAME}] *)
Lemma m_body_brace nm post c k res :
  is_name nm →
  k ("{"%char :: nm ++ ["}"%char]) post (set_group 3 nm c) = Some res →
  m placeholder_body ("{"%char :: nm ++ "}"%char :: post) c k = Some res.
Proof.
  intros [Hne Hall] Hk. unfold placeholder_body.
  rewrite m_Alt, m_name_lbrace, m_Seq, m_Lit_head, m_Seq, m_Group, m_PlusClass.
  erewrite plus_from_greedy; [done|done|done|done|].
  rewrite m_Seq, m_Opt, m_operator_stops by done.
  rewrite m_Lit_head. exact Hk.
Qed.

(** [${NAME<kind><fallback>}] where the fallback does not begin with a
    character of [[:\-\?]]: the kind is the whole run of such characters. *)
Lemma m_body_operator nm kd fb post c k res :
  is_name nm →
  kd ≠ [] → Forall (λ a, is_kind_char a = true) kd →
  fb ≠ [] → Forall (λ a, not_rbrace a = true) fb → stops is_kind_char fb →
  k ("{"%char :: nm ++ kd ++ fb ++ ["}"%char]) post
    (set_group 5 fb (set_group 4 kd (set_group 3 nm c))) = Some res →
  m placeholder_body ("{"%char :: nm ++ kd ++ fb ++ "}"%char :: post) c k = Some res.
Proof.
  intros [Hne Hall] Hkd Hkind Hfb Hnr Hstop Hk. unfold placeholder_body.
  rewrite m_Alt, m_name_lbrace, m_Seq, m_Lit_head, m_Seq, m_Group, m_PlusClass.
  erewrite plus_from_greedy; [done|done|done| |].
  { destruct kd as [|a kd]; [done|]. inversion_clear Hkind. by apply kind_not_word. }
  rewrite m_Seq, m_Opt, m_Seq, m_Group, m_PlusClass.
  erewrite plus_from_greedy; [done|done|done| |].
  { destruct fb as [|a fb]; [done|]. exact Hstop. }
  rewrite m_Group, m_PlusClass.
  erewrite plus_from_greedy; [done|done|done|done|].
  rewrite m_Lit_head. simpl. simpl in Hk. rewrite <- !app_assoc. exact Hk.
Qed.

(** [${NAME<kind>}] with two or more characters of [[:\-\?]] and nothing
    else: the last of them is taken as the fallback. *)
Lemma m_body_operator_short nm kd a post c k res :
  is_name nm →
  kd ≠ [] → Forall (λ a, is_kind_char a = true) kd → is_kind_char a = true →
  k ("{"%char :: nm ++ kd ++ [a] ++ ["}"%char]) post
    (set_group 5 [a] (set_group 4 kd (set_group 3 nm c))) = Some res →
  m placeholder_body ("{"%char :: nm ++ kd ++ a :: "}"%char :: post) c k = Some res.
Proof.
  intros [Hne Hall] Hkd Hkind Ha Hk. unfold placeholder_body.
  rewrite m_Alt, m_name_lbrace, m_Seq, m_Lit_head, m_Seq, m_Group, m_PlusClass.
  erewrite plus_from_greedy; [done|done|done| |].
  { destruct kd as [|b kd]; [done|]. inversion_clear Hkind. by apply kind_not_word. }
  rewrite m_Seq, m_Opt, m_Seq, m_Group, m_PlusClass.
  erewrite plus_from_backtrack; [done|done|done|done|done| |].
  - by rewrite m_Group, m_PlusClass, plus_from_stops.
  - rewrite m_Group, m_PlusClass.
    erewrite (plus_from_greedy not_rbrace [a] ("}"%char :: post)); [done|done| |done|].
    + constructor; [by apply kind_not_rbrace|done].
    + rewrite m_Lit_head. simpl. simpl in Hk. rewrite <- !app_assoc. exact Hk.
Qed.

End BodyFacts.

(** ** Matches of the placeholder expression *)

Lemma dollars_snoc n (t : jsstring) : dollars n ++ "$"%char :: t = dollars (S n) ++ t.
Proof.
  unfold dollars. by rewrite (replicate_S_end n), <- app_assoc.
Qed.

Lemma name_stops_dollar nm (post : jsstring) : is_name nm → stops is_dollar (nm ++ post).
Proof.
  intros [Hne Hall]. destruct nm as [|a nm]; [done|].
  inversion_clear Hall. by apply word_not_dollar.
Qed.

(** [$NAME], [$$NAME], ... *)
Lemma exec_name n nm post :
  is_name nm → stops is_word post →
  exec placeholder_regex (dollars (S n) ++ nm ++ post) =
  Some (dollars (S n) ++ nm, post, [escape n; Some nm; None; None; None]).
Proof.
  intros Hnm Hstop. unfold exec. rewrite groups_placeholder_regex.
  apply m_dollars; [by apply name_stops_dollar|].
  apply m_body_name; [done|done|].
  cbn [app]. rewrite dollars_snoc. by destruct n.
Qed.

(** [${NAME}], [$${NAME}], ... *)
Lemma exec_brace n nm post :
  is_name nm →
  exec placeholder_regex (dollars (S n) ++ "{"%char :: nm ++ "}"%char :: post) =
  Some (dollars (S n) ++ "{"%char :: nm ++ ["}"%char], post,
        [escape n; None; Some nm; None; None]).
Proof.
  intros Hnm. unfold exec. rewrite groups_placeholder_regex.
  apply m_dollars; [done|].
  apply m_body_brace; [done|].
  cbn [app]. rewrite dollars_snoc. by destruct n.
Qed.

(** [${NAME<kind><fallback>}], [$${NAME<kind><fallback>}], ... *)
Lemma exec_operator n nm kd fb post :
  is_name nm → is_kind kd → is_fallback fb →
  exec placeholder_regex
    (dollars (S n) ++ "{"%char :: nm ++ kd ++ fb ++ "}"%char :: post) =
  Some (dollars (S n) ++ "{"%char :: nm ++ kd ++ fb ++ ["}"%char], post,
        [escape n; None; Some nm; Some kd; Some fb]).
Proof.
  intros Hnm [Hkd Hkind] (Hfb & Hnr & Hhead). unfold exec.
  rewrite groups_placeholder_regex.
  apply m_dollars; [done|].
  destruct fb as [|a fb]; [done|]. destruct (is_kind_char a) eqn:Ha.
  - destruct Hhead as [Hstop|Hlen]; [cbn [stops] in Hstop; congruence|].
    destruct fb; [|done].
    apply m_body_operator_short; [done..|].
    cbn [app]. rewrite dollars_snoc. by destruct n.
  - apply m_body_operator; [done..|].
    cbn [app]. rewrite dollars_snoc. by destruct n.
Qed.

(** Every match of the placeholder expression is a non-empty prefix of
    the input and has a name; when it has a kind it has a fallback. *)
Lemma exec_placeholder s t s' g :
  exec placeholder_regex s = Some (t, s', g) →
  s = t ++ s' ∧ t ≠ [] ∧ placeholder_groups g.
Proof.
  intros [-> Hm]%exec_sound. rewrite groups_placeholder_regex in Hm.
  cbn [matches placeholder_regex placeholder_body Lit] in Hm.
  destruct Hm as (t1 & t2 & c1 & -> & Hesc & t3 & t4 & c2 & -> & (a & -> & _ & ->) & Hbody).
  split; [done|]. split; [intros Heq; by destruct t1|].
  assert (∃ esc, c1 = [esc; None; None; None; None]) as [esc ->].
  { destruct Hesc as [(c & (_ & _ & ->) & ->)|[_ ->]]; by eexists. }
  exists esc.
  destruct Hbody as [(c & (Hne & Hall & ->) & ->)|Hbrace].
  { exists t4. split; [done|]. by left. }
  destruct Hbrace as (t5 & t6 & c3 & -> & (b & -> & _ & ->) & t7 & t8 & c4 & -> & Hname
    & t9 & t10 & c5 & -> & Hop & (b' & -> & _ & ->)).
  destruct Hname as (c & (Hne & Hall & ->) & ->).
  exists t7. split; [done|]. right.
  destruct Hop as [(kd & fb & c6 & -> & (c7 & (Hkd & Hkind & ->) & ->) & c8 & (Hfb & _ & ->) & ->)|[_ ->]].
  - right. exists kd, fb. by repeat split.
  - by left.
Qed.

Lemma exec_nil : exec placeholder_regex [] = None.
Proof. reflexivity. Qed.

(** A match starts with a dollar. *)
Lemma exec_not_dollar a s :
  is_dollar a = false → exec placeholder_regex (a :: s) = None.
Proof.
  intros Ha. unfold exec, placeholder_regex.
  rewrite m_Seq, m_Opt, m_Group, m_PlusClass. cbn [plus_from]. rewrite Ha.
  by rewrite m_dollar_stops.
Qed.

(** ** [replace] *)

Section ReplaceFacts.
Context {St : Type}.
Implicit Types (f : jsstring → captures → M St jsstring) (st : St).

Lemma bind_ret_r {A} (x : M St A) st : (a <- x ;; ret a) st = x st.
Proof. unfold bind, ret. by destruct (x st) as [st' [a|e]]. Qed.

Lemma replace_from_skip r f a b st :
  replace_from r f (a ++ b) (length a) st = replace_from r f b 0 st.
Proof. induction a as [|x a IH]; [done|]. exact IH. Qed.

(** Where the expression matches, the callback's result stands for the
    match and the scan resumes behind it. *)
Lemma replace_match r f t post post' g st :
  t ≠ [] → exec r (t ++ post) = Some (t, post', g) →
  replace r f (t ++ post) st =
  (out <- f t g ;; rest <- replace r f post ;; ret (out ++ rest)) st.
Proof.
  intros Hne Hexec. destruct t as [|a t]; [done|].
  unfold replace. cbn [app replace_from] in *. rewrite Hexec.
  unfold bind. destruct (f (a :: t) g st) as [st1 [out|e]]; [|done].
  cbn [length pred]. by rewrite replace_from_skip.
Qed.

(** Elsewhere the character is copied. *)
Lemma replace_copy r f a s st :
  exec r (a :: s) = None →
  replace r f (a :: s) st = (rest <- replace r f s ;; ret (a :: rest)) st.
Proof. intros Hexec. unfold replace. cbn [replace_from]. by rewrite Hexec. Qed.

End ReplaceFacts.

(** ** [interpolateString] *)

Section StringFacts.
Context {St : Type} (env : Environment) (opts : Options St).
Implicit Types (st : St).

(** Literal text is copied. *)
Lemma interpolateString_literal pre s st :
  literal pre →
  interpolateString (pre ++ s) env opts st =
  (rest <- interpolateString s env opts ;; ret (pre ++ rest)) st.
Proof.
  intros Hpre. revert st. induction Hpre as [|a pre Ha _ IH]; intros st.
  - cbn [app]. by rewrite bind_ret_r.
  - cbn [app]. unfold interpolateString in *.
    rewrite replace_copy by by apply exec_not_dollar.
    unfold bind in *. rewrite IH.
    by destruct (replace _ _ s st) as [st' [rest|e]].
Qed.

(** The replacer, on the groups of a match: the callback is given the
    record of the match, then the decision is taken. *)
Lemma replacer_spec t g st :
  placeholder_groups g →
  replacer env opts t g st =
  (_ <- invoke opts (match_record env t g) ;;
   settle (substitution opts (match_record env t g))) st.
Proof.
  intros (esc & nm & [Hne _] & Hg).
  destruct nm as [|a nm]; [done|].
  destruct Hg as [->|[->|(kd & fb & _ & _ & ->)]];
    unfold replacer, substitution, match_record, name_of, operator_of,
      rawValue_of, invoke, settle, bind, call, ret, throw; cbn;
    repeat (case_match; try done).
Qed.

(** A placeholder after literal text: the callback is told, the decision
    is taken, and the rest of the string is scanned. *)
Lemma interpolateString_placeholder pre t post post' g st :
  literal pre → exec placeholder_regex (t ++ post) = Some (t, post', g) →
  interpolateString (pre ++ t ++ post) env opts st =
  (_ <- invoke opts (match_record env t g) ;;
   out <- settle (substitution opts (match_record env t g)) ;;
   rest <- interpolateString post env opts ;;
   ret (pre ++ out ++ rest)) st.
Proof.
  intros Hpre Hexec. rewrite interpolateString_literal by done.
  destruct (exec_placeholder _ _ _ _ Hexec) as (_ & Hne & Hg).
  unfold interpolateString, bind at 1.
  erewrite replace_match by done. unfold bind at 1.
  rewrite replacer_spec by done. unfold bind, settle, ret.
  destruct (invoke _ _ st) as [st1 [[]|e]]; [|done].
  destruct (substitution _ _) as [out|e]; [|done].
  by destruct (replace _ _ post _) as [st' [rest|e]].
Qed.

End StringFacts.

(** ** Unescaped placeholders in context *)

Section Unescaped.
Context {St : Type} (env : Environment) (opts : Options St).
Implicit Types (st : St).

Lemma unescaped_plain pre nm post st :
  literal pre → is_name nm → stops is_word post →
  interpolateString (pre ++ (str "$" ++ nm) ++ post) env opts st =
  (_ <- invoke opts (plain_record env nm) ;;
   out <- settle (substitution opts (plain_record env nm)) ;;
   rest <- interpolateString post env opts ;;
   ret (pre ++ out ++ rest)) st.
Proof.
  intros Hpre Hnm Hstop.
  pose proof (exec_name 0 nm post Hnm Hstop) as Hexec.
  rewrite (interpolateString_placeholder env opts pre (str "$" ++ nm) post
             _ _ st Hpre Hexec).
  destruct Hnm as [Hne _]. by destruct nm.
Qed.

Lemma unescaped_braced pre nm post st :
  literal pre → is_name nm →
  interpolateString (pre ++ braced nm ++ post) env opts st =
  (_ <- invoke opts (braced_record env nm) ;;
   out <- settle (substitution opts (braced_record env nm)) ;;
   rest <- interpolateString post env opts ;;
   ret (pre ++ out ++ rest)) st.
Proof.
  intros Hpre Hnm.
  pose proof (exec_brace 0 nm post Hnm) as Hexec.
  replace (dollars 1 ++ "{"%char :: nm ++ "}"%char :: post)
    with (braced nm ++ post) in Hexec
    by (unfold braced; cbn; by rewrite <- app_assoc).
  by rewrite (interpolateString_placeholder env opts pre (braced nm) post
               _ _ st Hpre Hexec).
Qed.

Lemma unescaped_operator pre nm kd fb post st :
  literal pre → is_name nm → is_kind kd → is_fallback fb →
  interpolateString (pre ++ braced (nm ++ kd ++ fb) ++ post) env opts st =
  (_ <- invoke opts (operator_record env nm kd fb) ;;
   out <- settle (substitution opts (operator_record env nm kd fb)) ;;
   rest <- interpolateString post env opts ;;
   ret (pre ++ out ++ rest)) st.
Proof.
  intros Hpre Hnm Hkd Hfb.
  pose proof (exec_operator 0 nm kd fb post Hnm Hkd Hfb) as Hexec.
  replace (dollars 1 ++ "{"%char :: nm ++ kd ++ fb ++ "}"%char :: post)
    with (braced (nm ++ kd ++ fb) ++ post) in Hexec
    by (unfold braced; cbn; by rewrite <- !app_assoc).
  replace (dollars 1 ++ "{"%char :: nm ++ kd ++ fb ++ ["}"%char])
    with (braced (nm ++ kd ++ fb)) in Hexec
    by (unfold braced; cbn; by rewrite <- !app_assoc).
  by rewrite (interpolateString_placeholder env opts pre (braced (nm ++ kd ++ fb)) post
               _ _ st Hpre Hexec).
Qed.

End Unescaped.

(** ** Looking a name up *)

Lemma env_get_own env nm v : own env !! nm = Some v → env_get env nm = v.
Proof. destruct env as [entries proto]. cbn. by intros ->. Qed.

Lemma env_get_inherited env nm :
  own env !! nm = None → env_get env nm = inherited env nm.
Proof. destruct env as [entries [p|]]; cbn; by intros ->. Qed.

Lemma is_undefined_lookup env nm :
  is_undefined env nm = is_nullish (env_get env nm).
Proof.
  unfold is_undefined, rawValue_of. by destruct (is_nullish (env_get env nm)) eqn:E.
Qed.

Lemma undefined_entry_lookup env nm :
  undefined_entry env nm ↔ is_undefined env nm = true.
Proof.
  rewrite is_undefined_lookup. unfold undefined_entry.
  destruct (own env !! nm) as [v|] eqn:E.
  - rewrite (env_get_own _ _ _ E). split.
    + intros [[? _]|[?|?]]; by simplify_eq.
    + destruct v; try done; intros _; [right; by right|right; by left].
  - rewrite (env_get_inherited _ _ E). split.
    + by intros [[_ ?]|[?|?]].
    + intros H. by left.
Qed.

Lemma rawValue_of_undefined env nm :
  is_undefined env nm = true → rawValue_of env nm = JUndefined.
Proof.
  rewrite is_undefined_lookup. unfold rawValue_of. by intros ->.
Qed.

Lemma rawValue_of_defined env nm :
  is_undefined env nm = false → rawValue_of env nm = env_get env nm.
Proof.
  rewrite is_undefined_lookup. unfold rawValue_of. by intros ->.
Qed.

Lemma truthy_not_nullish v : truthy v = true → is_nullish v = false.
Proof. by destruct v. Qed.

(** An own entry that holds a string is what the name stands for. *)
Lemma own_string env nm s :
  own env !! nm = Some (JString s) →
  is_undefined env nm = false ∧ rawValue_of env nm = JString s ∧ value_of env nm = s.
Proof.
  intros H%env_get_own.
  assert (is_undefined env nm = false) as Hdef
    by (by rewrite is_undefined_lookup, H).
  split_and!; [done|by rewrite rawValue_of_defined|].
  unfold value_of. rewrite rawValue_of_defined, H by done.
  unfold js_or. cbn. by case_bool_decide; subst.
Qed.

(** An own entry that holds a truthy value stands for its string form. *)
Lemma own_truthy env nm v :
  own env !! nm = Some v → truthy v = true →
  is_undefined env nm = false ∧ rawValue_of env nm = v ∧ value_of env nm = toString v.
Proof.
  intros H%env_get_own Hv.
  assert (is_undefined env nm = false) as Hdef
    by (by rewrite is_undefined_lookup, H, truthy_not_nullish).
  split_and!; [done|by rewrite rawValue_of_defined|].
  unfold value_of. rewrite rawValue_of_defined, H by done.
  unfold js_or. by rewrite Hv.
Qed.

(** What the lookup finds, when it is neither [null] nor [undefined], is
    what the name stands for: its string form when it is truthy, the
    empty string otherwise. *)
Lemma lookup_defined env nm v :
  env_get env nm = v → is_nullish v = false →
  is_undefined env nm = false ∧ rawValue_of env nm = v ∧
  value_of env nm = if truthy v then toString v else [].
Proof.
  intros Hv Hnn.
  assert (is_undefined env nm = false) as Hdef by by rewrite is_undefined_lookup, Hv.
  split_and!; [done|by rewrite rawValue_of_defined|].
  unfold value_of, js_or. rewrite rawValue_of_defined, Hv by done.
  by destruct (truthy v).
Qed.

(** ** The operators *)

Section Decisions.
Context {St : Type} (env : Environment) (opts : Options St).
Implicit Types (st : St).

Lemma operator_record_value nm kd fb v :
  rawValue_of env nm = v → operator_record env nm kd fb = operator_match nm kd fb v.
Proof. by intros <-. Qed.

Lemma plain_record_value nm v :
  rawValue_of env nm = v → plain_record env nm = plain_match nm v.
Proof. by intros <-. Qed.

Lemma braced_record_value nm v :
  rawValue_of env nm = v → braced_record env nm = braced_match nm v.
Proof. by intros <-. Qed.

(** What the operators [-] and [:-] decide, in terms of the lookup. *)
Lemma default_decisions pre nm fb post st :
  literal pre → is_name nm → is_fallback fb →
  (is_undefined env nm = true → preserveUndefined opts = false) →
  interpolateString (pre ++ braced (nm ++ str "-" ++ fb) ++ post) env opts st =
    (_ <- invoke opts (operator_record env nm (str "-") fb) ;;
     rest <- interpolateString post env opts ;;
     ret (pre ++ (if is_undefined env nm then fb else value_of env nm) ++ rest)) st
  ∧
  interpolateString (pre ++ braced (nm ++ str ":-" ++ fb) ++ post) env opts st =
    (_ <- invoke opts (operator_record env nm (str ":-") fb) ;;
     rest <- interpolateString post env opts ;;
     ret (pre ++ (if is_undefined env nm || bool_decide (value_of env nm = [])
                  then fb else value_of env nm) ++ rest)) st.
Proof.
  intros Hpre Hnm Hfb Hkeep. split.
  - rewrite unescaped_operator; [|done|done|by repeat constructor|done].
    unfold substitution, bind, settle.
    destruct (invoke _ _ st) as [st1 [[]|e]]; [|done].
    cbn. eval_kinds. fold (is_undefined env nm) (value_of env nm).
    destruct (is_undefined env nm); [by rewrite Hkeep|done].
  - rewrite unescaped_operator; [|done|done|by repeat constructor|done].
    unfold substitution, bind, settle.
    destruct (invoke _ _ st) as [st1 [[]|e]]; [|done].
    cbn. eval_kinds. fold (is_undefined env nm) (value_of env nm).
    destruct (is_undefined env nm); [by rewrite Hkeep|].
    by destruct (bool_decide (value_of env nm = [])).
Qed.

(** What the operators [?] and [:?] decide, in terms of the lookup. *)
Lemma required_decisions pre nm fb post st :
  literal pre → is_name nm → is_fallback fb →
  (is_undefined env nm = true → preserveUndefined opts = false) →
  interpolateString (pre ++ braced (nm ++ str "?" ++ fb) ++ post) env opts st =
    (_ <- invoke opts (operator_record env nm (str "?") fb) ;;
     if is_undefined env nm then throw (ValueError fb)
     else rest <- interpolateString post env opts ;;
          ret (pre ++ value_of env nm ++ rest)) st
  ∧
  interpolateString (pre ++ braced (nm ++ str ":?" ++ fb) ++ post) env opts st =
    (_ <- invoke opts (operator_record env nm (str ":?") fb) ;;
     if is_undefined env nm || bool_decide (value_of env nm = [])
     then throw (ValueError fb)
     else rest <- interpolateString post env opts ;;
          ret (pre ++ value_of env nm ++ rest)) st.
Proof.
  intros Hpre Hnm Hfb Hkeep. split.
  - rewrite unescaped_operator; [|done|done|by repeat constructor|done].
    unfold substitution, bind, settle.
    destruct (invoke _ _ st) as [st1 [[]|e]]; [|done].
    cbn. eval_kinds. fold (is_undefined env nm) (value_of env nm).
    destruct (is_undefined env nm); [by rewrite Hkeep|done].
  - rewrite unescaped_operator; [|done|done|by repeat constructor|done].
    unfold substitution, bind, settle.
    destruct (invoke _ _ st) as [st1 [[]|e]]; [|done].
    cbn. eval_kinds. fold (is_undefined env nm) (value_of env nm).
    destruct (is_undefined env nm); [by rewrite Hkeep|].
    by destruct (bool_decide (value_of env nm = [])).
Qed.

End Decisions.

(** C5, as the code has it.  The kind is the whole run of [:], [-] and
    [?] after the name, so the fallback is one that the kind leaves as
    declared ([is_fallback]).  For such an unescaped, unpreserved
    placeholder: when the name is undefined (no entry and nothing
    inherited, or an entry that is [null] or [undefined]) both [-] and
    [:-] emit the fallback; when the entry is a string, [-] emits it, the
    empty string included, and [:-] emits it unless it is empty, and the
    fallback then; when the entry is any other truthy value the same
    holds of its string form.  The callback is shown the placeholder
    first, with the value found, and the rest of the string follows. *)
Theorem default_operators {St : Type} (env : Environment) (opts : Options St) (st : St)
    (pre nm fb post : jsstring) :
  literal pre → is_name nm → is_fallback fb →
  (undefined_entry env nm → preserveUndefined opts = false →
   interpolateString (pre ++ braced (nm ++ str "-" ++ fb) ++ post) env opts st =
     (_ <- invoke opts (operator_match nm (str "-") fb JUndefined) ;;
      rest <- interpolateString post env opts ;;
      ret (pre ++ fb ++ rest)) st
   ∧
   interpolateString (pre ++ braced (nm ++ str ":-" ++ fb) ++ post) env opts st =
     (_ <- invoke opts (operator_match nm (str ":-") fb JUndefined) ;;
      rest <- interpolateString post env opts ;;
      ret (pre ++ fb ++ rest)) st)
  ∧
  (∀ s, own env !! nm = Some (JString s) →
   interpolateString (pre ++ braced (nm ++ str "-" ++ fb) ++ post) env opts st =
     (_ <- invoke opts (operator_match nm (str "-") fb (JString s)) ;;
      rest <- interpolateString post env opts ;;
      ret (pre ++ s ++ rest)) st
   ∧
   interpolateString (pre ++ braced (nm ++ str ":-" ++ fb) ++ post) env opts st =
     (_ <- invoke opts (operator_match nm (str ":-") fb (JString s)) ;;
      rest <- interpolateString post env opts ;;
      ret (pre ++ (if bool_decide (s = []) then fb else s) ++ rest)) st)
  ∧
  (∀ v, own env !! nm = Some v → truthy v = true →
   interpolateString (pre ++ braced (nm ++ str "-" ++ fb) ++ post) env opts st =
     (_ <- invoke opts (operator_match nm (str "-") fb v) ;;
      rest <- interpolateString post env opts ;;
      ret (pre ++ toString v ++ rest)) st
   ∧
   interpolateString (pre ++ braced (nm ++ str ":-" ++ fb) ++ post) env opts st =
     (_ <- invoke opts (operator_match nm (str ":-") fb v) ;;
      rest <- interpolateString post env opts ;;
      ret (pre ++ (if bool_decide (toString v = []) then fb else toString v) ++ rest)) st).
Proof.
  intros Hpre Hnm Hfb. split_and!.
  - intros Hundef%undefined_entry_lookup Hkeep.
    destruct (default_decisions env opts pre nm fb post st) as [-> ->]; try done.
    rewrite !(operator_record_value env nm _ fb JUndefined)
      by by apply rawValue_of_undefined.
    by rewrite Hundef.
  - intros s (Hdef & Hraw & Hval)%own_string.
    destruct (default_decisions env opts pre nm fb post st) as [-> ->];
      try done; [by rewrite Hdef|].
    rewrite !(operator_record_value env nm _ fb (JString s)) by done.
    by rewrite Hdef, Hval.
  - intros v Hown Hv. destruct (own_truthy env nm v Hown Hv) as (Hdef & Hraw & Hval).
    destruct (default_decisions env opts pre nm fb post st) as [-> ->];
      try done; [by rewrite Hdef|].
    rewrite !(operator_record_value env nm _ fb v) by done.
    by rewrite Hdef, Hval.
Qed.

(** C5, as stated, fails on [${EMPTY:--1}]: the declared operator is
    [:-] and the declared fallback [-1], the value is empty, and yet the
    fallback is not emitted: the kind is read as [:--]. *)
Lemma default_operators_counterexample :
  own test_env !! str "EMPTY" = Some (JString []) ∧
  run_string "${EMPTY:--1}" false false =
    Thrown (new_SyntaxError (str "unknown operator: ':--'")) ∧
  run_string "${EMPTY:--1}" false false ≠ Returned (str "-1").
Proof. split_and!; by vm_compute. Qed.

(** The scenario [${EMPTY-default}] and its neighbours, through
    [default_operators]: the callback's log and the result. *)
Lemma default_operators_witness :
  interpolateString (str "a ${EMPTY-default} b") test_env (logging false false) [] =
    ([operator_match (str "EMPTY") (str "-") (str "default") (JString [])],
     Returned (str "a  b")) ∧
  interpolateString (str "a ${EMPTY:-default} b") test_env (logging false false) [] =
    ([operator_match (str "EMPTY") (str ":-") (str "default") (JString [])],
     Returned (str "a default b")) ∧
  interpolateString (str "a ${VAR-default} b") test_env (logging false false) [] =
    ([operator_match (str "VAR") (str "-") (str "default") (JString (str "value"))],
     Returned (str "a value b")) ∧
  interpolateString (str "a ${UNSET-default} b") test_env (logging false false) [] =
    ([operator_match (str "UNSET") (str "-") (str "default") JUndefined],
     Returned (str "a default b")) ∧
  interpolateString (str "a ${NULL:-default} b") test_env (logging false false) [] =
    ([operator_match (str "NULL") (str ":-") (str "default") JUndefined],
     Returned (str "a default b")) ∧
  interpolateString (str "a ${NUMBER:-default} b") test_env (logging false false) [] =
    ([operator_match (str "NUMBER") (str ":-") (str "default") (JNumber (safe 5))],
     Returned (str "a 5 b")).
Proof.
  assert (literal (str "a ")) as H1 by (by repeat constructor).
  assert (is_fallback (str "default")) as H3
    by (split_and!; [done|by repeat constructor|by left]).
  assert (undefined_entry test_env (str "UNSET")) as Hunset by (left; by vm_compute).
  assert (undefined_entry test_env (str "NULL")) as Hnull by (right; left; by vm_compute).
  assert (own test_env !! str "EMPTY" = Some (JString [])) as Hempty by (by vm_compute).
  assert (own test_env !! str "VAR" = Some (JString (str "value"))) as Hvar
    by (by vm_compute).
  assert (own test_env !! str "NUMBER" = Some (JNumber (safe 5))) as Hnum
    by (by vm_compute).
  pose proof (λ nm Hnm, default_operators test_env (logging false false) []
                (str "a ") nm (str "default") (str " b") H1 Hnm H3) as H.
  split_and!.
  - destruct (H (str "EMPTY")) as (_ & Hs & _); [by name_ok|].
    destruct (Hs _ Hempty) as [Ha _]. etransitivity; [exact Ha|by vm_compute].
  - destruct (H (str "EMPTY")) as (_ & Hs & _); [by name_ok|].
    destruct (Hs _ Hempty) as [_ Ha]. etransitivity; [exact Ha|by vm_compute].
  - destruct (H (str "VAR")) as (_ & Hs & _); [by name_ok|].
    destruct (Hs _ Hvar) as [Ha _]. etransitivity; [exact Ha|by vm_compute].
  - destruct (H (str "UNSET")) as (Hu & _ & _); [by name_ok|].
    destruct (Hu Hunset eq_refl) as [Ha _]. etransitivity; [exact Ha|by vm_compute].
  - destruct (H (str "NULL")) as (Hu & _ & _); [by name_ok|].
    destruct (Hu Hnull eq_refl) as [_ Ha]. etransitivity; [exact Ha|by vm_compute].
  - destruct (H (str "NUMBER")) as (_ & _ & Ht); [by name_ok|].
    destruct (Ht _ Hnum eq_refl) as [_ Ha]. etransitivity; [exact Ha|by vm_compute].
Defined.

Example default_operators_scenarios :
  run_string "${EMPTY-default}" false false = Returned [] ∧
  run_string "${EMPTY:-default}" false false = Returned (str "default") ∧
  run_string "${UNSET-default}" false false = Returned (str "default") ∧
  run_string "${VAR:-default}" false false = Returned (str "value").
Proof. split_and!; by vm_compute. Qed.

(** C4, as the code has it.  The kind is the whole run of [:], [-] and
    [?] after the name, so the fallback is one that the kind leaves as
    declared ([is_fallback]).  For such an unescaped, unpreserved
    placeholder: when the name is undefined (no entry and nothing
    inherited, or an entry that is [null] or [undefined]) both [?] and
    [:?] fail with a [ValueError] whose message is the fallback as
    declared; when the entry is a string, [?] emits it and does not fail,
    and [:?] fails in the same way exactly when the string is empty; when
    the entry is any other truthy value the same holds of its string
    form.  The callback has been shown the placeholder either way, with
    the value found. *)
Theorem required_operators {St : Type} (env : Environment) (opts : Options St) (st : St)
    (pre nm fb post : jsstring) :
  literal pre → is_name nm → is_fallback fb →
  (undefined_entry env nm → preserveUndefined opts = false →
   interpolateString (pre ++ braced (nm ++ str "?" ++ fb) ++ post) env opts st =
     (_ <- invoke opts (operator_match nm (str "?") fb JUndefined) ;;
      throw (ValueError fb)) st
   ∧
   interpolateString (pre ++ braced (nm ++ str ":?" ++ fb) ++ post) env opts st =
     (_ <- invoke opts (operator_match nm (str ":?") fb JUndefined) ;;
      throw (ValueError fb)) st)
  ∧
  (∀ s, own env !! nm = Some (JString s) →
   interpolateString (pre ++ braced (nm ++ str "?" ++ fb) ++ post) env opts st =
     (_ <- invoke opts (operator_match nm (str "?") fb (JString s)) ;;
      rest <- interpolateString post env opts ;;
      ret (pre ++ s ++ rest)) st
   ∧
   interpolateString (pre ++ braced (nm ++ str ":?" ++ fb) ++ post) env opts st =
     (_ <- invoke opts (operator_match nm (str ":?") fb (JString s)) ;;
      if bool_decide (s = []) then throw (ValueError fb)
      else rest <- interpolateString post env opts ;;
           ret (pre ++ s ++ rest)) st)
  ∧
  (∀ v, own env !! nm = Some v → truthy v = true →
   interpolateString (pre ++ braced (nm ++ str "?" ++ fb) ++ post) env opts st =
     (_ <- invoke opts (operator_match nm (str "?") fb v) ;;
      rest <- interpolateString post env opts ;;
      ret (pre ++ toString v ++ rest)) st
   ∧
   interpolateString (pre ++ braced (nm ++ str ":?" ++ fb) ++ post) env opts st =
     (_ <- invoke opts (operator_match nm (str ":?") fb v) ;;
      if bool_decide (toString v = []) then throw (ValueError fb)
      else rest <- interpolateString post env opts ;;
           ret (pre ++ toString v ++ rest)) st).
Proof.
  intros Hpre Hnm Hfb. split_and!.
  - intros Hundef%undefined_entry_lookup Hkeep.
    destruct (required_decisions env opts pre nm fb post st) as [-> ->]; try done.
    rewrite !(operator_record_value env nm _ fb JUndefined)
      by by apply rawValue_of_undefined.
    by rewrite Hundef.
  - intros s (Hdef & Hraw & Hval)%own_string.
    destruct (required_decisions env opts pre nm fb post st) as [-> ->];
      try done; [by rewrite Hdef|].
    rewrite !(operator_record_value env nm _ fb (JString s)) by done.
    by rewrite Hdef, Hval.
  - intros v Hown Hv. destruct (own_truthy env nm v Hown Hv) as (Hdef & Hraw & Hval).
    destruct (required_decisions env opts pre nm fb post st) as [-> ->];
      try done; [by rewrite Hdef|].
    rewrite !(operator_record_value env nm _ fb v) by done.
    by rewrite Hdef, Hval.
Qed.

(** C4, as stated, fails on [${UNSET?-y}]: the declared operator is [?]
    and the declared fallback [-y], the name is undefined, and yet the
    failure is not the [ValueError] with that message: the kind is read
    as [?-]. *)
Lemma required_operators_counterexample :
  undefined_entry test_env (str "UNSET") ∧
  run_string "${UNSET?-y}" false false =
    Thrown (new_SyntaxError (str "unknown operator: '?-'")) ∧
  run_string "${UNSET?-y}" false false ≠ Thrown (ValueError (str "-y")).
Proof. split_and!; [left|..]; by vm_compute. Qed.

(** The scenario [${UNSET:?err}] and its neighbours, through
    [required_operators]: the callback's log and the outcome. *)
Lemma required_operators_witness :
  interpolateString (str "a ${UNSET:?err} b") test_env (logging false false) [] =
    ([operator_match (str "UNSET") (str ":?") (str "err") JUndefined],
     Thrown (ValueError (str "err"))) ∧
  interpolateString (str "a ${NULL?err} b") test_env (logging false false) [] =
    ([operator_match (str "NULL") (str "?") (str "err") JUndefined],
     Thrown (ValueError (str "err"))) ∧
  interpolateString (str "a ${EMPTY?err} b") test_env (logging false false) [] =
    ([operator_match (str "EMPTY") (str "?") (str "err") (JString [])],
     Returned (str "a  b")) ∧
  interpolateString (str "a ${EMPTY:?err} b") test_env (logging false false) [] =
    ([operator_match (str "EMPTY") (str ":?") (str "err") (JString [])],
     Thrown (ValueError (str "err"))) ∧
  interpolateString (str "a ${VAR:?err} b") test_env (logging false false) [] =
    ([operator_match (str "VAR") (str ":?") (str "err") (JString (str "value"))],
     Returned (str "a value b")) ∧
  interpolateString (str "a ${NUMBER?err} b") test_env (logging false false) [] =
    ([operator_match (str "NUMBER") (str "?") (str "err") (JNumber (safe 5))],
     Returned (str "a 5 b")).
Proof.
  assert (literal (str "a ")) as H1 by (by repeat constructor).
  assert (is_fallback (str "err")) as H3
    by (split_and!; [done|by repeat constructor|by left]).
  assert (undefined_entry test_env (str "UNSET")) as Hunset by (left; by vm_compute).
  assert (undefined_entry test_env (str "NULL")) as Hnull by (right; left; by vm_compute).
  assert (own test_env !! str "EMPTY" = Some (JString [])) as Hempty by (by vm_compute).
  assert (own test_env !! str "VAR" = Some (JString (str "value"))) as Hvar
    by (by vm_compute).
  assert (own test_env !! str "NUMBER" = Some (JNumber (safe 5))) as Hnum
    by (by vm_compute).
  pose proof (λ nm Hnm, required_operators test_env (logging false false) []
                (str "a ") nm (str "err") (str " b") H1 Hnm H3) as H.
  split_and!.
  - destruct (H (str "UNSET")) as (Hu & _ & _); [by name_ok|].
    destruct (Hu Hunset eq_refl) as [_ Ha]. etransitivity; [exact Ha|by vm_compute].
  - destruct (H (str "NULL")) as (Hu & _ & _); [by name_ok|].
    destruct (Hu Hnull eq_refl) as [Ha _]. etransitivity; [exact Ha|by vm_compute].
  - destruct (H (str "EMPTY")) as (_ & Hs & _); [by name_ok|].
    destruct (Hs _ Hempty) as [Ha _]. etransitivity; [exact Ha|by vm_compute].
  - destruct (H (str "EMPTY")) as (_ & Hs & _); [by name_ok|].
    destruct (Hs _ Hempty) as [_ Ha]. etransitivity; [exact Ha|by vm_compute].
  - destruct (H (str "VAR")) as (_ & Hs & _); [by name_ok|].
    destruct (Hs _ Hvar) as [_ Ha]. etransitivity; [exact Ha|by vm_compute].
  - destruct (H (str "NUMBER")) as (_ & _ & Ht); [by name_ok|].
    destruct (Ht _ Hnum eq_refl) as [Ha _]. etransitivity; [exact Ha|by vm_compute].
Defined.

Example required_operators_scenarios :
  run_string "${UNSET:?err}" false false = Thrown (ValueError (str "err")) ∧
  run_string "${UNSET?error 1_^C#$-r}" false false = Thrown (ValueError (str "error 1_^C#$-r")) ∧
  run_string "${EMPTY:?err}" false false = Thrown (ValueError (str "err")) ∧
  run_string "${EMPTY?err}" false false = Returned [] ∧
  run_string "${VAR:?err}" false false = Returned (str "value").
Proof. split_and!; by vm_compute. Qed.

(** ** Preserved placeholders *)

(** X19: with [preserveUndefined], an unescaped placeholder at whose name
    the lookup [env[name]] finds nothing, or [null] or [undefined], is
    emitted as it stands, in each of its forms [$NAME], [${NAME}] and
    [${NAME<kind><fallback>}], whatever the kind: no error is raised for
    [?], [:?] or a kind that is not an operator.  The callback is shown
    the placeholder with the value [undefined]. *)
Theorem undefined_preserved {St : Type} (env : Environment) (opts : Options St) (st : St)
    (pre nm kd fb post : jsstring) :
  literal pre → is_name nm → is_kind kd → is_fallback fb →
  is_nullish (env_get env nm) = true → preserveUndefined opts = true →
  (stops is_word post →
   interpolateString (pre ++ (str "$" ++ nm) ++ post) env opts st =
     (_ <- invoke opts (plain_match nm JUndefined) ;;
      rest <- interpolateString post env opts ;;
      ret (pre ++ (str "$" ++ nm) ++ rest)) st)
  ∧
  interpolateString (pre ++ braced nm ++ post) env opts st =
    (_ <- invoke opts (braced_match nm JUndefined) ;;
     rest <- interpolateString post env opts ;;
     ret (pre ++ braced nm ++ rest)) st
  ∧
  interpolateString (pre ++ braced (nm ++ kd ++ fb) ++ post) env opts st =
    (_ <- invoke opts (operator_match nm kd fb JUndefined) ;;
     rest <- interpolateString post env opts ;;
     ret (pre ++ braced (nm ++ kd ++ fb) ++ rest)) st.
Proof.
  intros Hpre Hnm Hkd Hfb Hnull Hkeep.
  assert (is_undefined env nm = true) as Hundef by by rewrite is_undefined_lookup.
  pose proof (rawValue_of_undefined env nm Hundef) as Hraw.
  split_and!.
  - intros Hstop. rewrite unescaped_plain by done.
    rewrite (plain_record_value env nm JUndefined Hraw).
    unfold substitution, bind, settle. cbn [escaped plain_match value].
    by rewrite Hkeep.
  - rewrite unescaped_braced by done.
    rewrite (braced_record_value env nm JUndefined Hraw).
    unfold substitution, bind, settle. cbn [escaped braced_match value].
    by rewrite Hkeep.
  - rewrite unescaped_operator by done.
    rewrite (operator_record_value env nm kd fb JUndefined Hraw).
    unfold substitution, bind, settle. cbn [escaped operator_match value].
    by rewrite Hkeep.
Qed.

(** [${UNSET?err}] with [preserveUndefined], as in the README, and its
    neighbours, through [undefined_preserved]. *)
Lemma undefined_preserved_witness :
  interpolateString (str "x=$UNSET;") test_env (logging false true) [] =
    ([plain_match (str "UNSET") JUndefined], Returned (str "x=$UNSET;")) ∧
  interpolateString (str "x=${UNSET};") test_env (logging false true) [] =
    ([braced_match (str "UNSET") JUndefined], Returned (str "x=${UNSET};")) ∧
  interpolateString (str "x=${UNSET?err};") test_env (logging false true) [] =
    ([operator_match (str "UNSET") (str "?") (str "err") JUndefined],
     Returned (str "x=${UNSET?err};")).
Proof.
  assert (literal (str "x=")) as H1 by (by repeat constructor).
  assert (is_name (str "UNSET")) as H2 by name_ok.
  assert (is_kind (str "?")) as H3 by (split; [done|by repeat constructor]).
  assert (is_fallback (str "err")) as H4
    by (split_and!; [done|by repeat constructor|by left]).
  assert (is_nullish (env_get test_env (str "UNSET")) = true) as H5 by (by vm_compute).
  destruct (undefined_preserved test_env (logging false true) []
              (str "x=") (str "UNSET") (str "?") (str "err") (str ";")
              H1 H2 H3 H4 H5 eq_refl) as (Ha & Hb & Hc).
  split_and!.
  - etransitivity; [exact (Ha eq_refl)|by vm_compute].
  - etransitivity; [exact Hb|by vm_compute].
  - etransitivity; [exact Hc|by vm_compute].
Defined.

Example undefined_preserved_scenarios :
  run_string "$NOT_A_VAR" false true = Returned (str "$NOT_A_VAR") ∧
  run_string "${UNSET?err}" false true = Returned (str "${UNSET?err}") ∧
  run_string "${UNSET:?err} ${UNSET-:x} $NULL" false true
    = Returned (str "${UNSET:?err} ${UNSET-:x} $NULL").
Proof. split_and!; by vm_compute. Qed.

(** C6: a name for which the environment holds no key is still found
    when [Object.prototype] has a property of that name, since the source
    reads [env[name]].  With the environment [{}] and [preserveUndefined],
    [$constructor] is not emitted as it stands: the text of the inherited
    function is, and the callback is shown that function as the value.
    Likewise [${toString:?need}], and without [preserveUndefined]
    [${valueOf:?need}] raises no [ValueError].  A name that is nowhere,
    like [HOME], is preserved. *)
Theorem inherited_name_not_preserved :
  let env := literal_object ∅ in
  own env !! str "constructor" = None ∧
  interpolateString (str "$constructor") env (logging false true) [] =
    ([plain_match (str "constructor") (native "Object")],
     Returned (str "function Object() { [native code] }")) ∧
  interpolateString (str "${toString:?need}") env (logging false true) [] =
    ([operator_match (str "toString") (str ":?") (str "need") (native "toString")],
     Returned (str "function toString() { [native code] }")) ∧
  interpolateString (str "${valueOf:?need}") env (logging false false) [] =
    ([operator_match (str "valueOf") (str ":?") (str "need") (native "valueOf")],
     Returned (str "function valueOf() { [native code] }")) ∧
  interpolateString (str "$HOME") env (logging false true) [] =
    ([plain_match (str "HOME") JUndefined], Returned (str "$HOME")) ∧
  interpolateString (str "$constructor") (bare_object ∅) (logging false true) [] =
    ([plain_match (str "constructor") JUndefined], Returned (str "$constructor")).
Proof. cbv zeta. split_and!; by vm_compute. Qed.

(** ** Reading the operator *)

(** One of the four operators followed by more characters of [[:\-\?]]
    is not one of the four operators. *)
Lemma longer_kind_unknown (op extra : jsstring) :
  op ∈ [str "-"; str "?"; str ":-"; str ":?"] → extra ≠ [] →
  op ++ extra ∉ [str "-"; str "?"; str ":-"; str ":?"].
Proof.
  intros Hop Hextra Hin. destruct extra as [|a extra]; [done|].
  repeat (apply elem_of_cons in Hop as [->|Hop]);
    [| | | |by apply elem_of_nil in Hop];
    repeat (apply elem_of_cons in Hin as [Hin|Hin]; [by simplify_eq/=|]);
    by apply elem_of_nil in Hin.
Qed.

(** C2, as the code has it: in an unescaped [${NAME<kind><fallback>}] the
    kind is the whole run of [:], [-] and [?] after the name and the
    fallback is what follows it up to the closing brace (so the fallback
    does not begin with one of these characters, unless it is the single
    character the run gave back).  The callback is given exactly this
    operator and the decision is taken on it; a kind that is not one of
    the four operators fails with a [SyntaxError], unless the placeholder
    is preserved.  Such is every kind made of one of the four operators
    and further characters of the run: a declared fallback that begins
    with [:], [-] or [?] lengthens the kind. *)
Theorem operator_reading {St : Type} (env : Environment) (opts : Options St) (st : St)
    (pre nm kd fb post : jsstring) :
  literal pre → is_name nm → is_kind kd → is_fallback fb →
  interpolateString (pre ++ braced (nm ++ kd ++ fb) ++ post) env opts st =
    (_ <- invoke opts (operator_record env nm kd fb) ;;
     out <- settle (substitution opts (operator_record env nm kd fb)) ;;
     rest <- interpolateString post env opts ;;
     ret (pre ++ out ++ rest)) st
  ∧
  (kd ∉ [str "-"; str "?"; str ":-"; str ":?"] →
   is_undefined env nm && preserveUndefined opts = false →
   interpolateString (pre ++ braced (nm ++ kd ++ fb) ++ post) env opts st =
     (_ <- invoke opts (operator_record env nm kd fb) ;;
      throw (new_SyntaxError (str "unknown operator: '" ++ kd ++ str "'"))) st)
  ∧
  (∀ op extra, op ∈ [str "-"; str "?"; str ":-"; str ":?"] → extra ≠ [] →
   kd = op ++ extra →
   is_undefined env nm && preserveUndefined opts = false →
   interpolateString (pre ++ braced (nm ++ op ++ extra ++ fb) ++ post) env opts st =
     (_ <- invoke opts (operator_record env nm kd fb) ;;
      throw (new_SyntaxError (str "unknown operator: '" ++ kd ++ str "'"))) st).
Proof.
  intros Hpre Hnm Hkd Hfb.
  assert (kd ∉ [str "-"; str "?"; str ":-"; str ":?"] →
          is_undefined env nm && preserveUndefined opts = false →
          interpolateString (pre ++ braced (nm ++ kd ++ fb) ++ post) env opts st =
            (_ <- invoke opts (operator_record env nm kd fb) ;;
             throw (new_SyntaxError (str "unknown operator: '" ++ kd ++ str "'"))) st)
    as Hunknown.
  { intros Hnot Hkeep. rewrite unescaped_operator by done.
    unfold substitution, bind, settle.
    destruct (invoke _ _ st) as [st1 [[]|e]]; [|done].
    cbn [escaped operator_record value operator kind fallback].
    fold (is_undefined env nm). rewrite Hkeep.
    rewrite !bool_decide_eq_false_2; [done|intros ->; apply Hnot..].
    - by repeat constructor.
    - by repeat constructor.
    - by repeat constructor.
    - by repeat constructor. }
  split_and!; [by apply unescaped_operator|done|].
  intros op extra Hop Hextra -> Hkeep.
  rewrite (app_assoc op extra fb). apply Hunknown; [|done].
  by apply longer_kind_unknown.
Qed.

(** C2, as stated, fails on [${VAR-:x}]: the kind is [-:], not [-], and
    with [VAR] defined the result is a [SyntaxError], not the value. *)
Lemma operator_reading_counterexample :
  exec placeholder_regex (str "${VAR-:x}") =
    Some (str "${VAR-:x}", [], [None; None; Some (str "VAR"); Some (str "-:"); Some (str "x")])
  ∧ own test_env !! str "VAR" = Some (JString (str "value"))
  ∧ run_string "${VAR-:x}" false false =
      Thrown (new_SyntaxError (str "unknown operator: '-:'"))
  ∧ run_string "${VAR-:x}" false false ≠ Returned (str "value").
Proof. split_and!; [reflexivity|by vm_compute..]. Qed.

(** [${VAR-:x}], through [operator_reading]: the callback is shown the
    kind [-:] and the fallback [x], and the run fails. *)
Lemma operator_reading_witness :
  interpolateString (str "${VAR-:x}") test_env (logging false false) [] =
    ([operator_match (str "VAR") (str "-:") (str "x") (JString (str "value"))],
     Thrown (new_SyntaxError (str "unknown operator: '-:'")))
  ∧
  interpolateString (str "a ${UNSET:-x} b") test_env (logging false false) [] =
    ([operator_match (str "UNSET") (str ":-") (str "x") JUndefined],
     Returned (str "a x b")).
Proof.
  assert (is_fallback (str "x")) as H4
    by (split_and!; [done|by repeat constructor|by left]).
  split.
  - destruct (operator_reading test_env (logging false false) []
                [] (str "VAR") (str "-:") (str "x") [])
      as (_ & _ & Hc); [constructor|name_ok|name_ok|done|].
    etransitivity; [|by vm_compute].
    apply (Hc (str "-") (str ":")); [by left|done|done|done].
  - destruct (operator_reading test_env (logging false false) []
                (str "a ") (str "UNSET") (str ":-") (str "x") (str " b"))
      as (Ha & _ & _); [by repeat constructor|name_ok|name_ok|done|].
    etransitivity; [exact Ha|by vm_compute].
Defined.

(** ** Placeholders without operator *)

Lemma value_of_undefined env nm : is_undefined env nm = true → value_of env nm = [].
Proof.
  unfold is_undefined, value_of, rawValue_of.
  destruct (is_nullish (env_get env nm)) eqn:E; [done|]. by rewrite E.
Qed.

Lemma kind_not_dollar a : is_kind_char a = true → is_dollar a = false.
Proof. intros [->|[->| ->]]%kind_char_cases; reflexivity. Qed.

Section Plain.
Context {St : Type} (env : Environment) (opts : Options St).
Implicit Types (st : St).

Lemma substitution_plain mt :
  escaped mt = false → operator mt = None →
  value mt = rawValue_of env (name mt) →
  substitution opts mt = Returned (plain_output env opts (name mt) (placeholder mt)).
Proof.
  intros He Ho Hv. unfold substitution, plain_output, is_undefined, value_of.
  rewrite He, Ho, Hv. pose proof (value_of_undefined env (name mt)) as Hu.
  unfold is_undefined, value_of in Hu.
  destruct (is_nullish (rawValue_of env (name mt))); [|done].
  rewrite Hu by done. by destruct (preserveUndefined opts).
Qed.

Lemma plain_in_context pre nm post st :
  literal pre → is_name nm → stops is_word post →
  interpolateString (pre ++ (str "$" ++ nm) ++ post) env opts st =
    (_ <- invoke opts (plain_record env nm) ;;
     rest <- interpolateString post env opts ;;
     ret (pre ++ plain_output env opts nm (str "$" ++ nm) ++ rest)) st.
Proof.
  intros Hpre Hnm Hstop. rewrite unescaped_plain by done.
  by rewrite (substitution_plain (plain_record env nm)).
Qed.

Lemma braced_in_context pre nm post st :
  literal pre → is_name nm →
  interpolateString (pre ++ braced nm ++ post) env opts st =
    (_ <- invoke opts (braced_record env nm) ;;
     rest <- interpolateString post env opts ;;
     ret (pre ++ plain_output env opts nm (braced nm) ++ rest)) st.
Proof.
  intros Hpre Hnm. rewrite unescaped_braced by done.
  by rewrite (substitution_plain (braced_record env nm)).
Qed.

End Plain.

(** ** Escaping *)

(** A kind followed by text without a closing brace always reads as a
    kind and a fallback, though the kind may be longer than declared. *)
Lemma fallback_split kd fb :
  is_kind kd → fb ≠ [] → Forall (λ a, not_rbrace a = true) fb →
  ∃ kd' fb', kd ++ fb = kd' ++ fb' ∧ is_kind kd' ∧ is_fallback fb'.
Proof.
  revert kd. induction fb as [|a fb IH]; intros kd [Hkd Hkind] Hne Hall; [done|].
  inversion_clear Hall as [|? ? Ha Hfb].
  destruct (is_kind_char a) eqn:Hk.
  - destruct fb as [|b fb].
    + exists kd, [a]. split_and!; [done|done|].
      split_and!; [done|by repeat constructor|by right].
    + destruct (IH (kd ++ [a])) as (kd' & fb' & Heq & Hk' & Hf'); [|done|done|].
      { split; [by destruct kd|]. apply Forall_app. by repeat constructor. }
      exists kd', fb'. split; [|done]. by rewrite <- Heq, <- app_assoc.
  - exists kd, (a :: fb). split_and!; [done|done|].
    split_and!; [done|by constructor|by left].
Qed.

(** Every form after one or more dollars is a match of the whole text,
    escaped when there are two dollars or more. *)
Lemma exec_form n form :
  is_form form →
  ∃ g, exec placeholder_regex (dollars (S n) ++ form) = Some (dollars (S n) ++ form, [], g)
       ∧ group g 1 = escape n.
Proof.
  intros [nm Hnm|nm Hnm|nm kd fb Hnm Hkd Hne Hall].
  - exists [escape n; Some nm; None; None; None]. split; [|done].
    rewrite <- (app_nil_r nm) at 1. by apply exec_name.
  - exists [escape n; None; Some nm; None; None]. split; [|done].
    apply (exec_brace n nm [] Hnm).
  - destruct (fallback_split kd fb Hkd Hne Hall) as (kd' & fb' & Heq & Hkd' & Hfb').
    exists [escape n; None; Some nm; Some kd'; Some fb']. split; [|done].
    cbn [str list_ascii_of_string app]. rewrite (app_assoc kd), Heq, <- app_assoc.
    apply (exec_operator n nm kd' fb' [] Hnm Hkd' Hfb').
Qed.

Section Escaping.
Context {St : Type} (env : Environment) (opts : Options St).
Implicit Types (st : St).

(** A string that is one placeholder. *)
Lemma interpolateString_whole t g st :
  exec placeholder_regex t = Some (t, [], g) →
  interpolateString t env opts st =
  (_ <- invoke opts (match_record env t g) ;;
   settle (substitution opts (match_record env t g))) st.
Proof.
  intros Hexec.
  pose proof (interpolateString_placeholder env opts [] t [] [] g st) as H.
  rewrite app_nil_r in H. cbn [app] in H. rewrite H; [|constructor|done].
  unfold bind, settle, ret.
  destruct (invoke _ _ st) as [st1 [[]|e]]; [|done].
  destruct (substitution _ _) as [out|e]; [|done].
  cbn. by rewrite app_nil_r.
Qed.

Lemma substitution_unescaped b mt :
  escaped mt = false →
  substitution (with_preserveEscaped b opts) mt = substitution opts mt.
Proof. intros H. unfold substitution. by rewrite H. Qed.

(** The three forms after a single dollar, as whole strings. *)
Lemma whole_plain nm st :
  is_name nm →
  interpolateString (dollars 1 ++ nm) env opts st =
  (_ <- invoke opts (plain_record env nm) ;;
   ret (plain_output env opts nm (dollars 1 ++ nm))) st.
Proof.
  intros Hnm. change (dollars 1) with (str "$").
  pose proof (plain_in_context env opts [] nm [] st) as H.
  rewrite app_nil_r in H. cbn [app] in H. rewrite H; [|constructor|done|done].
  unfold bind, ret. destruct (invoke _ _ st) as [st1 [[]|e]]; [|done].
  cbn. by rewrite app_nil_r.
Qed.

Lemma whole_braced nm st :
  is_name nm →
  interpolateString (braced nm) env opts st =
  (_ <- invoke opts (braced_record env nm) ;;
   ret (plain_output env opts nm (braced nm))) st.
Proof.
  intros Hnm.
  pose proof (braced_in_context env opts [] nm [] st) as H.
  rewrite app_nil_r in H. cbn [app] in H. rewrite H; [|constructor|done].
  unfold bind, ret. destruct (invoke _ _ st) as [st1 [[]|e]]; [|done].
  cbn. by rewrite app_nil_r.
Qed.

Lemma whole_operator nm kd fb st :
  is_name nm → is_kind kd → is_fallback fb →
  interpolateString (braced (nm ++ kd ++ fb)) env opts st =
  (_ <- invoke opts (operator_record env nm kd fb) ;;
   settle (substitution opts (operator_record env nm kd fb))) st.
Proof.
  intros Hnm Hkd Hfb.
  pose proof (unescaped_operator env opts [] nm kd fb [] st) as H.
  rewrite app_nil_r in H. cbn [app] in H. rewrite H; [|constructor|done..].
  unfold bind, settle, ret. destruct (invoke _ _ st) as [st1 [[]|e]]; [|done].
  destruct (substitution _ _) as [out|e]; [|done].
  cbn. by rewrite app_nil_r.
Qed.

End Escaping.

(** C3, as the code has it: with two dollars or more before a name or a
    braced form the placeholder is escaped, and the string comes back
    without its first dollar, or unchanged with [preserveEscaped]; the
    callback is shown the escaped placeholder.  With a single dollar the
    placeholder is not escaped and [preserveEscaped] makes no difference:
    the callback is shown the unescaped placeholder, and [$NAME] and
    [${NAME}] stand for the value of the name, for nothing when it is
    undefined, or for themselves when it is undefined and preserved,
    while [${NAME<kind><fallback>}] stands for what its operator
    decides. *)
Theorem escaped_depth {St : Type} (env : Environment) (opts : Options St) (st : St)
    (k : nat) (form : jsstring) :
  is_form form →
  (2 ≤ k →
   ∃ mt, placeholder mt = dollars k ++ form ∧ escaped mt = true ∧
     interpolateString (dollars k ++ form) env opts st =
       (_ <- invoke opts mt ;;
        ret (if preserveEscaped opts then dollars k ++ form
             else dollars (k - 1) ++ form)) st)
  ∧
  (∀ b, interpolateString (dollars 1 ++ form) env (with_preserveEscaped b opts) st =
        interpolateString (dollars 1 ++ form) env opts st)
  ∧
  (∀ nm, form = nm → is_name nm →
     interpolateString (dollars 1 ++ form) env opts st =
       (_ <- invoke opts (plain_record env nm) ;;
        ret (plain_output env opts nm (dollars 1 ++ form))) st)
  ∧
  (∀ nm, form = str "{" ++ nm ++ str "}" → is_name nm →
     interpolateString (dollars 1 ++ form) env opts st =
       (_ <- invoke opts (braced_record env nm) ;;
        ret (plain_output env opts nm (dollars 1 ++ form))) st)
  ∧
  (∀ nm kd fb, form = str "{" ++ nm ++ kd ++ fb ++ str "}" →
     is_name nm → is_kind kd → is_fallback fb →
     interpolateString (dollars 1 ++ form) env opts st =
       (_ <- invoke opts (operator_record env nm kd fb) ;;
        settle (substitution opts (operator_record env nm kd fb))) st).
Proof.
  intros Hform. split_and!.
  - intros Hk. destruct k as [|[|n]]; [lia|lia|].
    destruct (exec_form (S n) form Hform) as (g & Hexec & Hesc).
    exists (match_record env (dollars (S (S n)) ++ form) g).
    split_and!; [done|by cbn; rewrite Hesc|].
    rewrite (interpolateString_whole env opts _ g st Hexec).
    unfold substitution. cbn [escaped match_record placeholder]. rewrite Hesc.
    replace (S (S n) - 1) with (S n) by lia.
    by destruct (preserveEscaped opts).
  - intros b. destruct (exec_form 0 form Hform) as (g & Hexec & Hesc).
    rewrite !(interpolateString_whole env _ _ g st Hexec).
    rewrite substitution_unescaped; [done|]. by cbn; rewrite Hesc.
  - intros nm -> Hnm. by apply whole_plain.
  - intros nm -> Hnm. by apply (whole_braced env opts nm st).
  - intros nm kd fb -> Hnm Hkd Hfb.
    replace (dollars 1 ++ str "{" ++ nm ++ kd ++ fb ++ str "}")
      with (braced (nm ++ kd ++ fb))
      by (unfold braced; cbn; by rewrite <- !app_assoc).
    by apply whole_operator.
Qed.

(** C3, as stated, fails for a single dollar: [$VAR] is substituted, with
    or without [preserveEscaped]. *)
Lemma escaped_depth_counterexample :
  run_string "$VAR" true false = Returned (str "value")
  ∧ run_string "$VAR" true false ≠ Returned (str "$VAR").
Proof. split; by vm_compute. Qed.

(** [$$${VAR:-a-b}], [${VAR:-a-b}], [$VAR] and [${UNSET}], through
    [escaped_depth]: the callback's log and the result. *)
Lemma escaped_depth_witness :
  (interpolateString (str "$$${VAR:-a-b}") test_env (logging false false) []).2 =
    Returned (str "$${VAR:-a-b}") ∧
  (interpolateString (str "$$${VAR:-a-b}") test_env (logging true false) []).2 =
    Returned (str "$$${VAR:-a-b}") ∧
  interpolateString (str "${VAR:-a-b}") test_env (logging true false) [] =
    ([operator_match (str "VAR") (str ":-") (str "a-b") (JString (str "value"))],
     Returned (str "value")) ∧
  interpolateString (str "$VAR") test_env (logging true false) [] =
    ([plain_match (str "VAR") (JString (str "value"))], Returned (str "value")) ∧
  interpolateString (str "${UNSET}") test_env (logging true false) [] =
    ([braced_match (str "UNSET") JUndefined], Returned []).
Proof.
  assert (is_fallback (str "a-b")) as Hfb
    by (split_and!; [done|by repeat constructor|by left]).
  assert (is_form (str "{" ++ str "VAR" ++ str ":-" ++ str "a-b" ++ str "}")) as H1.
  { apply form_operator; [name_ok|name_ok| |]; first [done|by repeat constructor]. }
  assert (is_form (str "VAR")) as H2 by (apply form_name; name_ok).
  assert (is_form (str "{" ++ str "UNSET" ++ str "}")) as H3
    by (apply form_braced; name_ok).
  split_and!.
  - destruct (escaped_depth test_env (logging false false) [] 3 _ H1)
      as (Ha & _). destruct (Ha ltac:(lia)) as (mt & _ & _ & Hrun).
    etransitivity; [exact (f_equal snd Hrun)|done].
  - destruct (escaped_depth test_env (logging true false) [] 3 _ H1)
      as (Ha & _). destruct (Ha ltac:(lia)) as (mt & _ & _ & Hrun).
    etransitivity; [exact (f_equal snd Hrun)|done].
  - destruct (escaped_depth test_env (logging true false) [] 1 _ H1)
      as (_ & _ & _ & _ & Hc).
    etransitivity; [apply (Hc (str "VAR") (str ":-") (str "a-b")); [done|name_ok|name_ok|done]|].
    by vm_compute.
  - destruct (escaped_depth test_env (logging true false) [] 1 _ H2)
      as (_ & _ & Hc & _).
    etransitivity; [apply (Hc (str "VAR")); [done|name_ok]|]. by vm_compute.
  - destruct (escaped_depth test_env (logging true false) [] 1 _ H3)
      as (_ & _ & _ & Hc & _).
    etransitivity; [apply (Hc (str "UNSET")); [done|name_ok]|]. by vm_compute.
Defined.

Example escaped_depth_scenarios :
  run_string "$$VAR" false false = Returned (str "$VAR") ∧
  run_string "$$$VAR" false false = Returned (str "$$VAR") ∧
  run_string "$$$${VAR}" false false = Returned (str "$$${VAR}") ∧
  run_string "$$${UNSET:?err}" false false = Returned (str "$${UNSET:?err}") ∧
  run_string "$$VAR" true false = Returned (str "$$VAR").
Proof. split_and!; by vm_compute. Qed.

(** ** Runs *)

Section Runs.
Context {St : Type} (opts : Options St).
Implicit Types (st : St) (recs : list Match) (evs : list Event).

Lemma notify_nil st : notify opts [] st = st.
Proof. unfold notify. by destruct (onMatchPlaceholder opts). Qed.

Lemma notify_app l1 l2 st :
  notify opts (l1 ++ l2) st = notify opts l2 (notify opts l1 st).
Proof. unfold notify. destruct (onMatchPlaceholder opts); [apply foldl_app|done]. Qed.

Lemma notify_missing recs st :
  onMatchPlaceholder opts = None → notify opts recs st = st.
Proof. unfold notify. by intros ->. Qed.

Lemma notify_given f recs st :
  onMatchPlaceholder opts = Some f →
  notify opts recs st = foldl (λ st mt, f mt st) st recs.
Proof. unfold notify. by intros ->. Qed.

Lemma visited_app evs1 evs2 : visited (evs1 ++ evs2) = visited evs1 ++ visited evs2.
Proof. apply omap_app. Qed.

Lemma visited_visits recs : visited (Visit <$> recs) = recs.
Proof. induction recs as [|mt recs IH]; [done|]. cbn. by f_equal. Qed.

Lemma passes_visits recs :
  Forall (passes opts) (Visit <$> recs) ↔
  (recs = [] ∨ is_Some (onMatchPlaceholder opts)) ∧ Forall (returns opts) recs.
Proof.
  rewrite Forall_fmap. split.
  - intros Hall. split.
    + destruct recs as [|mt recs]; [by left|right].
      by inversion_clear Hall as [|? ? [? _] _].
    + eapply Forall_impl; [exact Hall|]. by intros mt [_ ?].
  - intros [[->|Hcb] Hall]; [constructor|].
    eapply Forall_impl; [exact Hall|]. by intros mt ?.
Qed.

Lemma run_over_ret {A} (a : A) st : run_over opts [] st (ret a st).
Proof. split; [by rewrite notify_nil|constructor]. Qed.

(** An [isObject] test that throws ends the run where it stands. *)
Lemma run_over_fail {A} e st : run_over opts [Fail e] st (@settle St A (Thrown e) st).
Proof.
  exists 0, (Fail e). split_and!; [done|done|constructor|].
  cbn. by rewrite notify_nil.
Qed.

(** Runs compose: the events of a sequence are those of its parts, one
    after the other. *)
Lemma run_over_bind {A B} (x : M St A) (f : A → M St B) evs1 evs2 st :
  run_over opts evs1 st (x st) →
  (∀ a st1, run_over opts evs2 st1 (f a st1)) →
  run_over opts (evs1 ++ evs2) st ((a <- x ;; f a) st).
Proof.
  intros Hx Hf. unfold bind. destruct (x st) as [st1 [a|e]]; cbn [run_over] in Hx.
  - destruct Hx as [-> Hall1]. specialize (Hf a (notify opts (visited evs1) st)).
    destruct (f a _) as [st2 [b|e]]; cbn [run_over] in Hf |- *.
    + destruct Hf as [-> Hall2].
      split; [by rewrite visited_app, notify_app|by apply Forall_app].
    + destruct Hf as (k & ev & Hk & Hev & Hall2 & ->).
      exists (length evs1 + k), ev. split_and!; [|done| |].
      * by rewrite lookup_app_r, Nat.add_comm, Nat.add_sub by lia.
      * rewrite take_app_add. by apply Forall_app.
      * by rewrite <- Nat.add_succ_r, take_app_add, visited_app, notify_app.
  - destruct Hx as (k & ev & Hk & Hev & Hall1 & ->).
    pose proof (lookup_lt_Some _ _ _ Hk) as Hlt.
    exists k, ev. split_and!; [|done| |].
    + by rewrite lookup_app_l.
    + by rewrite take_app_le by lia.
    + by rewrite take_app_le by lia.
Qed.

Lemma run_over_mapM {A B} (f : A → M St B) (evs : A → list Event) l :
  Forall (λ a, ∀ st, run_over opts (evs a) st (f a st)) l →
  ∀ st, run_over opts (flat_map evs l) st (mapM f l st).
Proof.
  induction 1 as [|a l Ha _ IH]; intros st; [by apply run_over_ret|].
  change (mapM f (a :: l) st) with ((b <- f a ;; bs <- mapM f l ;; ret (b :: bs)) st).
  cbn [flat_map]. apply run_over_bind; [done|]. intros b st1.
  rewrite <- (app_nil_r (flat_map evs l)).
  apply run_over_bind; [done|]. intros bs st2. apply run_over_ret.
Qed.

(** One placeholder: the callback is called, then the decision is taken. *)
Lemma run_over_decision mt st :
  run_over opts [Visit mt] st
    ((_ <- invoke opts mt ;; settle (substitution opts mt)) st).
Proof.
  unfold bind, invoke, settle, call, throw.
  destruct (onMatchPlaceholder opts) as [f|] eqn:Hcb.
  - destruct (substitution opts mt) as [out|e] eqn:Hsub; cbn.
    + split; [by rewrite (notify_given f)|].
      constructor; [|constructor]. split; [by rewrite Hcb|by exists out].
    + exists 0, (Visit mt). split_and!; [done|by cbn; rewrite Hcb|constructor|].
      cbn. by rewrite (notify_given f).
  - exists 0, (Visit mt). split_and!; [done|by cbn; rewrite Hcb|constructor|].
    cbn. by rewrite notify_missing.
Qed.

End Runs.

(** ** The run of [interpolateString] over the placeholders of a string *)

Section Run.
Context {St : Type} (env : Environment) (opts : Options St).
Implicit Types (st : St).

(** The callback is shown the placeholders one after the other, each
    before its decision; the first one that does not pass ends the run. *)
Lemma replace_from_run s skip st :
  run_over opts (Visit <$> placeholders_from env s skip) st
    (replace_from placeholder_regex (replacer env opts) s skip st).
Proof.
  unfold placeholders_from. revert skip st.
  induction s as [|a s IH]; intros skip st; cbn [replace_from matchAll_from].
  { rewrite exec_nil. apply run_over_ret. }
  destruct skip as [|n]; [|apply IH].
  destruct (exec placeholder_regex (a :: s)) as [[[t s'] g]|] eqn:Hexec.
  - destruct (exec_placeholder _ _ _ _ Hexec) as (Hs & Hne & Hg).
    cbn [map fmap list_fmap fst snd].
    apply (run_over_bind opts _ _ [Visit (match_record env t g)]).
    + rewrite replacer_spec by done. apply run_over_decision.
    + intros out st1.
      rewrite <- (app_nil_r (list_fmap _ _ _ _)).
      apply run_over_bind; [apply IH|]. intros; apply run_over_ret.
  - rewrite <- (app_nil_r (list_fmap _ _ _ _)), <- (app_nil_r (list_fmap _ _ _ _ ++ [])).
    apply run_over_bind; [rewrite app_nil_r; apply IH|]. intros; apply run_over_ret.
Qed.

Lemma interpolateString_run s st :
  run_over opts (Visit <$> placeholders env s) st (interpolateString s env opts st).
Proof. apply replace_from_run. Qed.

End Run.

Section RunFacts.
Context {St : Type} (env : Environment) (opts : Options St).
Implicit Types (st : St).

(** When every decision returns the text of its match, the string comes
    back as it was. *)
Lemma replace_from_unchanged f s skip st :
  onMatchPlaceholder opts = Some f →
  Forall (λ mt, substitution opts mt = Returned (placeholder mt)) (placeholders_from env s skip) →
  replace_from placeholder_regex (replacer env opts) s skip st =
  (notify opts (placeholders_from env s skip) st, Returned (drop skip s)).
Proof.
  intros Hcb. unfold placeholders_from. revert skip st.
  induction s as [|a s IH]; intros skip st; cbn [replace_from matchAll_from].
  { rewrite exec_nil, notify_nil. by destruct skip. }
  destruct skip as [|n]; [|apply IH].
  destruct (exec placeholder_regex (a :: s)) as [[[t s'] g]|] eqn:Hexec.
  - destruct (exec_placeholder _ _ _ _ Hexec) as (Hs & Hne & Hg).
    cbn [map fst snd]. intros [Hsub Hall]%Forall_cons.
    unfold bind at 1. rewrite replacer_spec by done.
    unfold bind, invoke, call, settle. rewrite Hcb, Hsub.
    rewrite IH by done. unfold ret.
    rewrite !(notify_given opts f) by done. cbn [foldl]. do 2 f_equal.
    destruct t as [|b t]; [done|]. simplify_eq/=.
    by rewrite drop_app_length.
  - intros Hall. unfold bind. rewrite IH by done. done.
Qed.

End RunFacts.

(** A decision throws only by an operator: a [ValueError] carrying the
    fallback, or a [SyntaxError] for a kind that is no operator. *)
Lemma substitution_thrown {St : Type} (opts : Options St) mt e :
  substitution opts mt = Thrown e →
  ∃ op, operator mt = Some op ∧
    (e = ValueError (fallback op) ∨
     e = new_SyntaxError (str "unknown operator: '" ++ kind op ++ str "'")).
Proof.
  unfold substitution. intros H.
  repeat (case_match; simplify_eq; eauto).
Qed.

(** A failure of [interpolateString] happens at one of the placeholders
    of the string: its decision throws, after the callback; or the
    callback is no function, and then the first placeholder throws. *)
Lemma failure_at_placeholder {St : Type} (env : Environment) (opts : Options St)
    (s : jsstring) (st st' : St) (e : Error) :
  interpolateString s env opts st = (st', Thrown e) →
  ∃ k mt,
    placeholders env s !! k = Some mt ∧
    Forall (returns opts) (take k (placeholders env s)) ∧
    ((∃ f op,
        onMatchPlaceholder opts = Some f ∧
        substitution opts mt = Thrown e ∧
        operator mt = Some op ∧
        (e = ValueError (fallback op) ∨
         e = new_SyntaxError (str "unknown operator: '" ++ kind op ++ str "'")) ∧
        st' = foldl (λ st mt, f mt st) st (take (S k) (placeholders env s)))
     ∨
     (onMatchPlaceholder opts = None ∧ k = 0 ∧ st' = st ∧
      e = not_a_function (str "opts.onMatchPlaceholder"))).
Proof.
  intros H. pose proof (interpolateString_run env opts s st) as Hrun.
  rewrite H in Hrun. destruct Hrun as (k & ev & Hk & Hev & Hall & ->).
  rewrite list_lookup_fmap in Hk.
  destruct (placeholders env s !! k) as [mt|] eqn:Hmt; [|done].
  cbn in Hk. simplify_eq. rewrite <- !fmap_take, visited_visits.
  rewrite <- fmap_take in Hall. apply passes_visits in Hall as [Hcb Hall].
  exists k, mt. split_and!; [done|done|].
  cbn [raises] in Hev. destruct (onMatchPlaceholder opts) as [f|] eqn:Hf.
  - left. destruct (substitution_thrown _ _ _ Hev) as (op & Hop & He).
    exists f, op. split_and!; [done..|]. by rewrite (notify_given _ f).
  - right. split_and!; [done| |by rewrite notify_missing|done].
    destruct Hcb as [Hnil|[? ?]]; [|done].
    destruct k as [|k]; [done|]. apply (f_equal length) in Hnil.
    rewrite length_take in Hnil. apply lookup_lt_Some in Hmt.
    cbn [length] in Hnil. lia.
Qed.

(** [interpolateString] returns exactly when the decision of every
    placeholder of the string returns, and the callback is a function
    unless there is no placeholder. *)
Lemma interpolateString_returns_iff {St : Type} (env : Environment) (opts : Options St)
    (s : jsstring) (st : St) :
  (∃ st' out, interpolateString s env opts st = (st', Returned out)) ↔
  Forall (passes opts) (Visit <$> placeholders env s).
Proof.
  pose proof (interpolateString_run env opts s st) as Hrun.
  destruct (interpolateString s env opts st) as [st' [out|e]]; cbn [run_over] in Hrun.
  - split; [intros _; apply Hrun|intros _; by exists st', out].
  - destruct Hrun as (k & ev & Hk & Hev & _).
    split; [by intros (? & ? & ?)|intros Hall; exfalso].
    pose proof (Forall_lookup_1 _ _ _ _ Hall Hk) as Hpass.
    destruct ev as [mt|e']; [|done]. destruct Hpass as [[f Hf] [out Hout]].
    cbn in Hev. rewrite Hf in Hev. congruence.
Qed.

(** C10: when [interpolateString] fails, it fails at one of the
    placeholders of the string (the one of index [k], counting from 0),
    and the decisions of the placeholders before it have returned.
    Either its decision throws, a [ValueError] or the [SyntaxError] of an
    unknown operator, and the callback has been applied, in order and
    once each, to exactly the placeholders up to and including the
    failing one; or the options hold no function as the callback, and the
    call of it throws a [TypeError] at the first placeholder, nothing
    having been done. *)
Theorem callback_before_failure {St : Type} (env : Environment) (opts : Options St)
    (s : jsstring) (st st' : St) (e : Error) :
  interpolateString s env opts st = (st', Thrown e) →
  ∃ k mt,
    placeholders env s !! k = Some mt ∧
    Forall (returns opts) (take k (placeholders env s)) ∧
    ((∃ f op,
        onMatchPlaceholder opts = Some f ∧
        substitution opts mt = Thrown e ∧
        operator mt = Some op ∧
        (e = ValueError (fallback op) ∨
         e = new_SyntaxError (str "unknown operator: '" ++ kind op ++ str "'")) ∧
        st' = foldl (λ st mt, f mt st) st (take (S k) (placeholders env s)))
     ∨
     (onMatchPlaceholder opts = None ∧ k = 0 ∧ st' = st ∧
      e = not_a_function (str "opts.onMatchPlaceholder"))).
Proof. apply failure_at_placeholder. Qed.

(** [$VAR ${UNSET?boom} $EMPTY] with a callback that logs: two records
    are logged, the third placeholder is never reached. *)
Lemma callback_before_failure_witness :
  interpolateString (str "$VAR ${UNSET?boom} $EMPTY") test_env (logging false false) [] =
    ([plain_match (str "VAR") (JString (str "value"));
      operator_match (str "UNSET") (str "?") (str "boom") JUndefined],
     Thrown (ValueError (str "boom")))
  ∧
  ∃ k mt,
    placeholders test_env (str "$VAR ${UNSET?boom} $EMPTY") !! k = Some mt ∧
    Forall (returns (logging false false))
      (take k (placeholders test_env (str "$VAR ${UNSET?boom} $EMPTY"))) ∧
    ((∃ f op,
        onMatchPlaceholder (logging false false) = Some f ∧
        substitution (logging false false) mt = Thrown (ValueError (str "boom")) ∧
        operator mt = Some op ∧
        (ValueError (str "boom") = ValueError (fallback op) ∨
         ValueError (str "boom") =
           new_SyntaxError (str "unknown operator: '" ++ kind op ++ str "'")) ∧
        [plain_match (str "VAR") (JString (str "value"));
         operator_match (str "UNSET") (str "?") (str "boom") JUndefined] =
          foldl (λ st mt, f mt st) []
            (take (S k) (placeholders test_env (str "$VAR ${UNSET?boom} $EMPTY"))))
     ∨
     (onMatchPlaceholder (logging false false) = None ∧ k = 0 ∧
      [plain_match (str "VAR") (JString (str "value"));
       operator_match (str "UNSET") (str "?") (str "boom") JUndefined] = [] ∧
      ValueError (str "boom") = not_a_function (str "opts.onMatchPlaceholder"))).
Proof.
  assert (interpolateString (str "$VAR ${UNSET?boom} $EMPTY") test_env (logging false false) [] =
    ([plain_match (str "VAR") (JString (str "value"));
      operator_match (str "UNSET") (str "?") (str "boom") JUndefined],
     Thrown (ValueError (str "boom")))) as H by (by vm_compute).
  split; [exact H|].
  exact (callback_before_failure test_env (logging false false) _ _ _ _ H).
Defined.

(** ** Value trees *)

(** Induction on value trees, through arrays and objects. *)
Lemma Value_tree_ind (P : Value → Prop) :
  (∀ x, P (VScalar x)) →
  (∀ elems, Forall P elems → P (VArray elems)) →
  (∀ proto entries, Forall (λ kv, P kv.2) entries → P (VObject proto entries)) →
  (∀ result, P (VFunction result)) →
  ∀ v, P v.
Proof.
  intros Hs Ha Ho He. fix IH 1. intros [x|elems|proto entries|result].
  - apply Hs.
  - apply Ha. induction elems as [|v elems IHl]; constructor; [apply IH|apply IHl].
  - apply Ho. induction entries as [|[k v] entries IHl]; constructor; [apply IH|apply IHl].
  - apply He.
Qed.

Lemma set_property_fresh {A} (entries : list (jsstring * A)) key v :
  key ∉ entries.*1 → set_property entries key v = entries ++ [(key, v)].
Proof.
  induction entries as [|[k w] entries IH]; intros Hfresh; [done|].
  cbn in *. apply not_elem_of_cons in Hfresh as [Hne Hfresh].
  rewrite bool_decide_eq_false_2 by done. by rewrite IH.
Qed.

(** [Object.fromEntries] gives back the entries of an object. *)
Lemma fromEntries_entries {A} (entries : list (jsstring * A)) :
  NoDup entries.*1 → fromEntries entries = entries.
Proof.
  unfold fromEntries.
  enough (∀ acc, NoDup (acc ++ entries).*1 →
            foldl (λ obj kv, set_property obj kv.1 kv.2) acc entries = acc ++ entries)
    as H by (intros Hnd; by apply (H [])).
  induction entries as [|[k v] entries IH]; intros acc Hnd; cbn [foldl].
  - by rewrite app_nil_r.
  - rewrite set_property_fresh.
    + rewrite IH; rewrite <- app_assoc; done.
    + rewrite fmap_app in Hnd. apply NoDup_app in Hnd as (_ & Hdisj & _).
      intros Hin. apply (Hdisj k Hin). cbn. left.
Qed.

Section TreeFacts.
Context {St : Type}.
Implicit Types (st : St).

Lemma mapM_mapped {A B} (f : A → M St B) l st st' l' :
  mapM f l st = (st', Returned l') ↔ mapped f st l st' l'.
Proof.
  split.
  - revert st l'. induction l as [|a l IH]; intros st l' H; cbn in H.
    + unfold ret in H. simplify_eq. constructor.
    + unfold bind, ret in H. destruct (f a st) as [st1 [b|e]] eqn:Hf; [|done].
      destruct (mapM f l st1) as [st2 [bs|e]] eqn:Hl; [|done].
      simplify_eq. econstructor; [done|]. by apply IH.
  - induction 1 as [st|st st1 st2 a b l l' Hf _ IH]; [done|].
    cbn. unfold bind, ret. fold (mapM f). by rewrite Hf, IH.
Qed.

Lemma bind_returned {A B} (x : M St A) (f : A → M St B) st st' b :
  (a <- x ;; f a) st = (st', Returned b) →
  ∃ st1 a, x st = (st1, Returned a) ∧ f a st1 = (st', Returned b).
Proof.
  unfold bind. destruct (x st) as [st1 [a|e]]; [|done]. intros H. by exists st1, a.
Qed.

Lemma mapped_length {A B} (f : A → M St B) l st st' l' :
  mapped f st l st' l' → length l' = length l.
Proof. induction 1; [done|]. cbn. by f_equal. Qed.

End TreeFacts.

Lemma flat_map_flat_map {A B C} (f : B → list C) (g : A → list B) (l : list A) :
  flat_map f (flat_map g l) = flat_map (λ a, flat_map f (g a)) l.
Proof.
  induction l as [|a l IH]; [done|]. cbn. by rewrite flat_map_app, IH.
Qed.

Lemma elem_of_flat_map {A B} (f : A → list B) (l : list A) (b : B) :
  b ∈ flat_map f l ↔ ∃ a, a ∈ l ∧ b ∈ f a.
Proof.
  rewrite list_elem_of_In, in_flat_map.
  split; intros (a & Ha & Hb); exists a; by rewrite ?list_elem_of_In in *.
Qed.

Lemma visited_flat_map {A} (f : A → list Event) (l : list A) :
  visited (flat_map f l) = flat_map (λ a, visited (f a)) l.
Proof.
  induction l as [|a l IH]; [done|]. cbn. by rewrite visited_app, IH.
Qed.

Lemma strings_of_object proto entries :
  isObject (VObject proto entries) = Returned true →
  strings_of (VObject proto entries) = flat_map (λ kv, strings_of kv.2) entries.
Proof. intros H. cbn [strings_of]. by rewrite H. Qed.

Lemma placeholders_in_array env elems :
  placeholders_in env (VArray elems) = flat_map (placeholders_in env) elems.
Proof. apply flat_map_flat_map. Qed.

Lemma placeholders_in_object env proto entries :
  isObject (VObject proto entries) = Returned true →
  placeholders_in env (VObject proto entries) =
  flat_map (λ kv, placeholders_in env kv.2) entries.
Proof.
  intros H. unfold placeholders_in. rewrite strings_of_object by done.
  apply flat_map_flat_map.
Qed.

Lemma referenced_names_in_array elems v nm :
  v ∈ elems → nm ∈ referenced_names_in v → nm ∈ referenced_names_in (VArray elems).
Proof.
  intros Hv Hnm. unfold referenced_names_in in *. cbn [strings_of].
  rewrite flat_map_flat_map. apply elem_of_flat_map. by exists v.
Qed.

Lemma referenced_names_in_object proto entries k v nm :
  isObject (VObject proto entries) = Returned true →
  (k, v) ∈ entries → nm ∈ referenced_names_in v →
  nm ∈ referenced_names_in (VObject proto entries).
Proof.
  intros H Hv Hnm. unfold referenced_names_in in *. rewrite strings_of_object by done.
  rewrite flat_map_flat_map. apply elem_of_flat_map. by exists (k, v).
Qed.

(** The placeholders of a tree are the placeholders among its events. *)
Lemma visited_events env v : visited (events env v) = placeholders_in env v.
Proof.
  induction v as [x|elems IH|proto entries IH|result] using Value_tree_ind.
  - destruct x as [| | | |s|text]; try done.
    cbn [events]. rewrite visited_visits. unfold placeholders_in. cbn.
    by rewrite app_nil_r.
  - cbn [events]. rewrite visited_flat_map, placeholders_in_array.
    induction IH as [|v elems Hv _ IHl]; [done|]. cbn. by rewrite Hv, IHl.
  - cbn [events]. destruct (isObject (VObject proto entries)) as [[|]|e] eqn:Hobj.
    + rewrite visited_flat_map, placeholders_in_object by done. clear Hobj.
      induction IH as [|kv entries Hv _ IHl]; [done|]. cbn. by rewrite Hv, IHl.
    + unfold placeholders_in. cbn [strings_of]. by rewrite Hobj.
    + unfold placeholders_in. cbn [strings_of]. by rewrite Hobj.
  - done.
Qed.

(** ** The run of [interpolate0] over the events of a tree *)

Lemma interpolate0_run {St : Type} (opts : Options St) env v :
  ∀ st, run_over opts (events env v) st (interpolate0 v env opts st).
Proof.
  induction v as [x|elems IH|proto entries IH|result] using Value_tree_ind; intros st.
  - destruct x as [| | | |s|text]; try by apply run_over_ret.
    cbn [interpolate0 events].
    rewrite <- (app_nil_r (Visit <$> _)).
    apply run_over_bind; [|intros; apply run_over_ret].
    apply interpolateString_run.
  - cbn [interpolate0 events].
    rewrite <- (app_nil_r (flat_map _ elems)).
    apply run_over_bind; [|intros; apply run_over_ret].
    by apply run_over_mapM.
  - cbn [interpolate0 events].
    destruct (isObject (VObject proto entries)) as [[|]|e] eqn:Hobj.
    + unfold bind at 1, settle.
      rewrite <- (app_nil_r (flat_map _ entries)).
      apply run_over_bind; [|intros; apply run_over_ret].
      apply (run_over_mapM _ _ (λ kv, events env kv.2)).
      eapply Forall_impl; [exact IH|]. intros [k v] Hv st1. cbn [snd] in *.
      rewrite <- (app_nil_r (events env v)).
      apply run_over_bind; [done|]. intros; apply run_over_ret.
    + unfold bind, settle. apply run_over_ret.
    + unfold bind. apply (run_over_fail opts e st).
  - apply run_over_ret.
Qed.

(** ** Nothing to substitute *)

Section Noop.
Context {St : Type} (env : Environment) (opts : Options St).
Context (Hescaped : preserveEscaped opts = true).
Context (Hundefined : preserveUndefined opts = true).
Context (f : Match → St → St) (Hcallback : onMatchPlaceholder opts = Some f).
Implicit Types (st : St).

(** With both options set, a placeholder at whose name nothing is found
    is left as it stands. *)
Lemma substitution_noop t g :
  is_nullish (env_get env (name_of g)) = true →
  substitution opts (match_record env t g) = Returned t.
Proof.
  intros Hnone. unfold substitution, match_record, rawValue_of.
  cbn [escaped value placeholder]. rewrite Hnone, Hescaped, Hundefined.
  by case_bool_decide.
Qed.

Lemma interpolateString_noop s st :
  (∀ nm, nm ∈ referenced_names s → is_nullish (env_get env nm) = true) →
  interpolateString s env opts st = (notify opts (placeholders env s) st, Returned s).
Proof.
  intros Hnames. unfold interpolateString, replace, placeholders.
  rewrite (replace_from_unchanged env opts f); [done|done|].
  unfold placeholders_from. apply Forall_fmap, Forall_forall. intros [t g] Hin.
  cbn. apply substitution_noop, Hnames.
  unfold referenced_names, matchAll.
  by apply (list_elem_of_fmap_2 (λ tg, name_of tg.2) _ (t, g)).
Qed.

Lemma mapM_noop {A} (g : A → M St A) (recs : A → list Match) l :
  Forall (λ a, ∀ st, g a st = (notify opts (recs a) st, Returned a)) l →
  ∀ st, mapM g l st = (notify opts (flat_map recs l) st, Returned l).
Proof.
  induction 1 as [|a l Ha _ IH]; intros st; [by cbn; rewrite notify_nil|].
  change (mapM g (a :: l) st) with ((b <- g a ;; bs <- mapM g l ;; ret (b :: bs)) st).
  unfold bind. rewrite Ha, IH. cbn [flat_map]. by rewrite notify_app.
Qed.

Lemma interpolate0_noop v :
  plain_tree v →
  (∀ nm, nm ∈ referenced_names_in v → is_nullish (env_get env nm) = true) →
  ∀ st, interpolate0 v env opts st = (notify opts (placeholders_in env v) st, Returned v).
Proof.
  induction v as [x|elems IH|proto entries IH|result] using Value_tree_ind;
    intros Hplain Hnames st.
  - destruct x as [| | | |s|text]; try (by cbn; rewrite notify_nil).
    unfold referenced_names_in, placeholders_in in *.
    cbn in *. unfold bind. rewrite interpolateString_noop.
    + by rewrite !app_nil_r.
    + intros nm Hnm. apply Hnames. by rewrite app_nil_r.
  - inversion_clear Hplain as [| |? Hplains| |].
    rewrite placeholders_in_array. cbn [interpolate0]. unfold bind.
    rewrite (mapM_noop _ (placeholders_in env)); [done|].
    apply Forall_forall. intros v Hv.
    apply (proj1 (Forall_forall _ _) IH v Hv).
    + by apply (proj1 (Forall_forall _ _) Hplains v Hv).
    + intros nm Hnm. apply Hnames. by apply (referenced_names_in_array elems v).
  - inversion Hplain as [| | |? Hobj Hnd Hplains|? ? Hobj]; subst.
    + rewrite placeholders_in_object by done. cbn [interpolate0].
      rewrite Hobj. unfold bind at 1, settle. unfold bind.
      rewrite (mapM_noop _ (λ kv, placeholders_in env kv.2)).
      * unfold ret. by rewrite fromEntries_entries.
      * apply Forall_forall. intros [k v] Hkv st'. unfold bind. cbn [fst snd].
        rewrite (proj1 (Forall_forall _ _) IH (k, v) Hkv); [done| |].
        -- by apply (proj1 (Forall_forall _ _) Hplains (k, v) Hkv).
        -- intros nm Hnm. apply Hnames.
           by apply (referenced_names_in_object _ entries k v).
    + cbn [interpolate0]. rewrite Hobj. unfold bind, settle, ret, placeholders_in.
      cbn [strings_of]. rewrite Hobj. cbn. by rewrite notify_nil.
  - by cbn; rewrite notify_nil.
Qed.

End Noop.

(** X20: with [preserveUndefined] and [preserveEscaped], and the callback
    left out or a function, a tree of plain data whose placeholders refer
    to names at which the lookup [env[name]] finds nothing, or [null] or
    [undefined], comes back equal to the original.  The callback has
    still been applied to every placeholder, in the order of the
    traversal. *)
Theorem noop_environment {St : Type} (env : Environment)
    (callback : option (Match → St → St)) (v : Value) (st : St) :
  plain_tree v →
  (∀ nm, nm ∈ referenced_names_in v → is_nullish (env_get env nm) = true) →
  let options :=
    Some {| preserveEscaped_opt := Some true;
            preserveUndefined_opt := Some true;
            onMatchPlaceholder_opt := Some <$> callback |} in
  interpolate v env options st =
    (foldl (λ st mt, default noop callback mt st) st (placeholders_in env v),
     Returned v).
Proof.
  intros Hplain Hnames options. unfold interpolate, makeInterpolator.
  rewrite (interpolate0_noop env (merge_options options) eq_refl eq_refl
             (default noop callback)); [|by destruct callback|done|done].
  f_equal. apply notify_given. by destruct callback.
Qed.

(** A tree whose placeholders name nothing of the test environment. *)
Lemma noop_environment_witness :
  interpolate noop_tree test_env
      (Some {| preserveEscaped_opt := Some true;
               preserveUndefined_opt := Some true;
               onMatchPlaceholder_opt := Some (Some log_match) |}) [] =
    ([escaped_record test_env 0 (str "OTHER") (str "OTHER") None;
      operator_match (str "HOME") (str ":?") (str "unset") JUndefined;
      plain_match (str "USER") JUndefined],
     Returned noop_tree).
Proof.
  assert (plain_tree noop_tree) as H1.
  { apply plain_array. constructor; [constructor|].
    constructor; [|repeat constructor].
    apply plain_object; [done|by apply (bool_decide_unpack _)|repeat constructor]. }
  assert (∀ nm, nm ∈ referenced_names_in noop_tree →
                is_nullish (env_get test_env nm) = true) as H2.
  { assert (referenced_names_in noop_tree = [str "OTHER"; str "HOME"; str "USER"])
      as -> by (by vm_compute).
    intros nm Hnm.
    repeat (apply elem_of_cons in Hnm as [->|Hnm]; [by vm_compute|]).
    by apply elem_of_nil in Hnm. }
  etransitivity;
    [exact (noop_environment test_env (Some log_match) noop_tree [] H1 H2)|].
  by vm_compute.
Defined.

(** C7: an environment that contains none of the names of a tree is not
    always one in which they are undefined: the source reads [env[name]],
    which finds what [Object.prototype] holds.  With the environment [{}],
    [preserveUndefined] and [preserveEscaped], the tree [["$constructor"]]
    does not come back as it was: the text of the inherited function
    stands in the string.  With [Object.create(null)] as the environment
    it does come back.  Nor does every tree come back: on an object with
    a key [toString], or without a prototype, [isObject] calls what is no
    function and the call throws a [TypeError]. *)
Theorem inherited_names_are_substituted :
  let options : option (PartialOptions unit) :=
    Some {| preserveEscaped_opt := Some true;
            preserveUndefined_opt := Some true;
            onMatchPlaceholder_opt := None |} in
  let tree := VArray [VScalar (JString (str "$constructor"))] in
  (∀ nm, nm ∈ referenced_names_in tree → own (literal_object ∅) !! nm = None) ∧
  interpolate tree (literal_object ∅) options tt =
    (tt, Returned (VArray [VScalar (JString (str "function Object() { [native code] }"))])) ∧
  interpolate tree (bare_object ∅) options tt = (tt, Returned tree) ∧
  interpolate (VObject ObjectPrototype [(str "toString", VScalar (JString (str "x")))])
      (literal_object ∅) options tt =
    (tt, Thrown (not_a_function (str "a.toString"))) ∧
  interpolate (VObject NullPrototype [(str "k", VScalar (JString (str "x")))])
      (literal_object ∅) options tt =
    (tt, Thrown (not_a_function (str "a.toString"))).
Proof.
  cbv zeta. split_and!; [|by vm_compute..].
  assert (referenced_names_in (VArray [VScalar (JString (str "$constructor"))]) =
          [str "constructor"]) as -> by (by vm_compute).
  intros nm ->%list_elem_of_singleton. by vm_compute.
Qed.

(** ** The shape of the result *)

Section Shape.
Context {St : Type}.
Implicit Types (st : St).

(** Mapping over the entries of an object keeps the keys and maps the
    values. *)
Lemma mapped_entries (g : Value → M St Value) st (l l' : list (jsstring * Value)) st' :
  mapped (λ kv, v <- g kv.2 ;; ret (kv.1, v)) st l st' l' →
  l'.*1 = l.*1 ∧ mapped g st l.*2 st' l'.*2.
Proof.
  induction 1 as [st|st st1 st2 [k v] [k' v'] l l' Hf _ [IHk IHv]]; [by split; [|constructor]|].
  unfold bind, ret in Hf. cbn [fst snd] in Hf.
  destruct (g v st) as [st0 [w|e]] eqn:Hg; [|done]. simplify_eq.
  split; [by cbn; f_equal|]. cbn. by econstructor.
Qed.

End Shape.

(** What is neither a string, nor an array, nor an object that
    [isObject] accepts is returned as it is. *)
Lemma interpolate0_other {St : Type} (env : Environment) (opts : Options St) v st :
  isString v = false → isArray v = false → isObject v = Returned false →
  interpolate0 v env opts st = (st, Returned v).
Proof.
  destruct v as [[| | | |s|text]|elems|proto entries|result]; try done.
  intros _ _ Hobj. cbn [interpolate0]. by rewrite Hobj.
Qed.

(** C8, as the code has it: when [interpolate] returns, an array has
    become an array of the same length whose elements are the
    interpolated elements, taken in order; an object whose [toString()]
    gives ["[object Object]"], be it an object literal or the instance of
    a class, has become a plain object with the same keys in the same
    order, left as they are, whose values are the interpolated values,
    taken in order; a string has become a string; and any other value, an
    object whose [toString()] gives something else included, is returned
    as it is, with no effect. *)
Theorem structure_preserved {St : Type} (env : Environment)
    (options : option (PartialOptions St)) (v v' : Value) (st st' : St) :
  wf_value v →
  interpolate v env options st = (st', Returned v') →
  match v with
  | VScalar (JString s) => ∃ s', v' = VScalar (JString s')
  | VArray elems =>
      ∃ elems', v' = VArray elems' ∧ length elems' = length elems ∧
        mapped (λ x, interpolate x env options) st elems st' elems'
  | VObject proto entries =>
      match isObject v with
      | Returned true =>
          ∃ entries', v' = VObject ObjectPrototype entries' ∧
            entries'.*1 = entries.*1 ∧
            mapped (λ x, interpolate x env options) st entries.*2 st' entries'.*2
      | Returned false => v' = v ∧ st' = st
      | Thrown _ => False
      end
  | _ => v' = v ∧ st' = st
  end.
Proof.
  unfold interpolate, makeInterpolator. intros Hwf H.
  destruct v as [x|elems|proto entries|result].
  - destruct x as [| | | |s|text]; cbn in H; unfold ret in H; try by simplify_eq.
    unfold bind in H. destruct (interpolateString _ _ _ _) as [st1 [s'|e]]; [|done].
    simplify_eq. by exists s'.
  - cbn [interpolate0] in H.
    apply bind_returned in H as (st1 & elems' & Hmap & Hret).
    unfold ret in Hret. simplify_eq.
    apply mapM_mapped in Hmap. exists elems'.
    split_and!; [done|by eapply mapped_length|done].
  - cbn [interpolate0] in H.
    destruct (isObject (VObject proto entries)) as [[|]|e] eqn:Hobj;
      unfold bind at 1, settle in H; [| |done].
    + apply bind_returned in H as (st1 & entries' & Hmap & Hret).
      unfold ret in Hret. simplify_eq.
      apply mapM_mapped in Hmap.
      apply (mapped_entries (λ x, interpolate0 x env (merge_options options)))
        in Hmap as [Hkeys Hvalues].
      inversion_clear Hwf as [| |? ? Hnd _|].
      exists entries'. rewrite fromEntries_entries by by rewrite Hkeys.
      by split_and!.
    + unfold ret in H. by simplify_eq.
  - cbn in H. unfold ret in H. by simplify_eq.
Qed.

(** C8, as stated, fails on the instance of a class that leaves
    [toString] alone: it is no string, no array and no plain mapping, yet
    it is not returned as it is but rebuilt as a plain object, its
    strings interpolated. *)
Lemma structure_preserved_counterexample :
  let point :=
    VObject (ClassPrototype (str "Point") (Some Object_prototype_toString))
            [(str "x", VScalar (JString (str "$VAR")))] in
  isString point = false ∧ isArray point = false ∧
  interpolate point test_env None tt =
    (tt, Returned (VObject ObjectPrototype [(str "x", VScalar (JString (str "value")))])) ∧
  interpolate point test_env None tt ≠ (tt, Returned point).
Proof. cbv zeta. split_and!; by vm_compute. Qed.

(** An object with a key that looks like a placeholder, a date and the
    instance of a class, through [structure_preserved]. *)
Lemma structure_preserved_witness :
  interpolate shape_tree test_env None tt =
    (tt, Returned (VObject ObjectPrototype
           [(str "$VAR",
             VArray [VScalar (JString (str "value")); VScalar (JNumber (safe 5))]);
            (str "p2", VScalar (JString (str "x")))])) ∧
  (∃ entries',
    VObject ObjectPrototype
      [(str "$VAR", VArray [VScalar (JString (str "value")); VScalar (JNumber (safe 5))]);
       (str "p2", VScalar (JString (str "x")))] = VObject ObjectPrototype entries' ∧
    entries'.*1 = [str "$VAR"; str "p2"] ∧
    mapped (λ x, interpolate x test_env None) tt
      [VArray [VScalar (JString (str "$VAR")); VScalar (JNumber (safe 5))];
       VScalar (JString (str "${UNSET:-x}"))]
      tt entries'.*2) ∧
  interpolate date_tree test_env None tt = (tt, Returned date_tree).
Proof.
  assert (wf_value shape_tree) as H1.
  { apply wf_object; [by apply (bool_decide_unpack _)|]. repeat constructor. }
  assert (interpolate shape_tree test_env None tt =
    (tt, Returned (VObject ObjectPrototype
           [(str "$VAR",
             VArray [VScalar (JString (str "value")); VScalar (JNumber (safe 5))]);
            (str "p2", VScalar (JString (str "x")))]))) as H2 by (by vm_compute).
  assert (wf_value date_tree) as H3.
  { apply wf_object; [by apply (bool_decide_unpack _)|]. repeat constructor. }
  assert (∃ v', interpolate date_tree test_env None tt = (tt, Returned v')) as [v' H4]
    by (eexists; by vm_compute).
  split_and!; [exact H2| |].
  - exact (structure_preserved test_env None shape_tree _ tt tt H1 H2).
  - rewrite H4.
    by destruct (structure_preserved test_env None date_tree _ tt tt H3 H4) as [-> _].
Defined.

(** ** Where the code and its own intent part *)

(** C1: the replacer means to reject an operator without a fallback
    ("fallback not specified"), but the expression reads a kind only
    together with a fallback: [${NAME-}] is no match at all and the
    string comes back as it is, whatever the environment and the options;
    and in [${NAME:?}] the kind is [:] and the fallback is [?], so the
    failure is that of an unknown operator. *)
Theorem missing_fallback_not_rejected {St : Type} (env : Environment)
    (opts : Options St) (st : St) :
  matchAll placeholder_regex (str "${NAME-}") = [] ∧
  interpolateString (str "${NAME-}") env opts st = (st, Returned (str "${NAME-}")) ∧
  exec placeholder_regex (str "${NAME:?}") =
    Some (str "${NAME:?}", [], [None; None; Some (str "NAME"); Some (str ":"); Some (str "?")]) ∧
  run_string "${NAME:?}" false false =
    Thrown (new_SyntaxError (str "unknown operator: ':'")).
Proof. split_and!; [reflexivity|reflexivity|reflexivity|by vm_compute]. Qed.

(** Two runs of a class at the start of the same text, each ending where
    the class ends, are the same run. *)
Lemma run_unique (p : ascii → bool) (l1 l2 r1 r2 : jsstring) :
  Forall (λ a, p a = true) l1 → Forall (λ a, p a = true) l2 →
  stops p r1 → stops p r2 →
  l1 ++ r1 = l2 ++ r2 → l1 = l2 ∧ r1 = r2.
Proof.
  intros H1. revert l2. induction H1 as [|a l1 Ha _ IH]; intros l2 H2 Hs1 Hs2 Heq.
  - destruct H2 as [|b l2 Hb _]; [done|].
    cbn in Heq. subst r1. cbn in Hs1. congruence.
  - destruct H2 as [|b l2 Hb H2].
    + cbn in Heq. subst r2. cbn in Hs2. congruence.
    + cbn in Heq. simplify_eq. by destruct (IH l2 H2 Hs1 Hs2) as [-> ->].
Qed.

(** A braced name followed by a single character of [[:\-\?]] and the
    closing brace is not a match, whatever comes after. *)
Lemma exec_single_kind_char nm a post :
  is_name nm → is_kind_char a = true →
  exec placeholder_regex (str "${" ++ nm ++ a :: "}"%char :: post) = None.
Proof.
  intros [Hne Hall] Ha.
  destruct (exec _ _) as [[[t s'] g]|] eqn:Hexec; [exfalso|done].
  apply exec_sound in Hexec as [Heq Hm].
  cbn [matches placeholder_regex placeholder_body Lit] in Hm.
  destruct Hm as (t1 & t2 & c1 & -> & Hesc & t3 & t4 & c2 & -> & (d & -> & Hd & ->) & Hbody).
  apply Ascii.eqb_eq in Hd as <-.
  assert (t1 = []) as ->.
  { destruct Hesc as [(c & (_ & Hdollars & _) & _)|[-> _]]; [|done].
    destruct Hdollars as [|d1 t1 Hd1 Hdollars]; [done|].
    apply is_dollar_true in Hd1 as ->.
    destruct Hdollars as [|d2 t1 Hd2 _]; [done|].
    apply is_dollar_true in Hd2 as ->. done. }
  cbn in Heq. simplify_eq.
  destruct Hbody as [(c & (Hne4 & Hall4 & _) & _)|Hbrace].
  { destruct Hall4 as [|b t4 Hb _]; [done|]. by simplify_eq/=. }
  destruct Hbrace as (t5 & t6 & c3 & -> & (b & -> & Hb & ->) & t7 & t8 & c4 & -> & Hname
    & t9 & t10 & c5 & -> & Hop & (b' & -> & Hb' & ->)).
  apply Ascii.eqb_eq in Hb as <-. apply Ascii.eqb_eq in Hb' as <-.
  destruct Hname as (c & (Hne7 & Hall7 & _) & _).
  cbn in Heq. rewrite <- !app_assoc in Heq. injection Heq as Heq.
  destruct Hop as [(kd & fb & c6 & -> & (c7 & (Hkd & Hkind & _) & _) & c8 & (Hfb & Hnr & _) & _)|[-> _]].
  - rewrite <- !app_assoc in Heq.
    apply run_unique with (p := is_word) in Heq as [-> Heq]; [|done|done| |].
    + destruct Hkind as [|k1 kd Hk1 Hkind]; [done|]. simplify_eq/=.
      destruct Hkind as [|k2 kd Hk2 _].
      * destruct Hnr as [|f1 fb Hf1 _]; [done|]. by simplify_eq/=.
      * by simplify_eq/=.
    + by apply kind_not_word.
    + destruct Hkind as [|k1 kd Hk1 _]; [done|]. by apply kind_not_word.
  - apply run_unique with (p := is_word) in Heq as [-> Heq]; [|done|done| |done].
    + by simplify_eq/=.
    + by apply kind_not_word.
Qed.

(** So [${NAME-}], [${NAME?}] and [${NAME:}] are text, for every name and
    wherever they stand after literal text. *)
Lemma single_kind_char_is_text {St : Type} (env : Environment) (opts : Options St)
    (st : St) pre nm a post :
  literal pre → is_name nm → is_kind_char a = true →
  interpolateString (pre ++ (str "${" ++ nm ++ [a] ++ str "}") ++ post) env opts st =
  (rest <- interpolateString post env opts ;;
   ret (pre ++ (str "${" ++ nm ++ [a] ++ str "}") ++ rest)) st.
Proof.
  intros Hpre Hnm Ha.
  assert (literal ("{"%char :: nm ++ [a; "}"%char])) as Htext.
  { destruct Hnm as [_ Hall]. constructor; [done|]. apply Forall_app. split.
    - eapply Forall_impl; [exact Hall|]. intros c. apply word_not_dollar.
    - destruct (kind_char_cases a Ha) as [->|[->| ->]]; by repeat constructor. }
  rewrite interpolateString_literal by done.
  replace ((str "${" ++ nm ++ [a] ++ str "}") ++ post)
    with ("$"%char :: ("{"%char :: nm ++ [a; "}"%char]) ++ post)
    by (cbn; by rewrite <- !app_assoc).
  unfold bind at 1. unfold interpolateString at 1.
  rewrite replace_copy.
  2:{ cbn [app]. rewrite <- app_assoc. by apply exec_single_kind_char. }
  unfold bind at 1.
  change (replace placeholder_regex (replacer env opts) ?s st)
    with (interpolateString s env opts st).
  rewrite interpolateString_literal by done.
  unfold bind, ret.
  destruct (interpolateString post env opts st) as [st' [rest|e]]; [|done].
  cbn. by rewrite <- !app_assoc.
Qed.

(** The guard is dead code: no string makes [interpolateString] fail with
    the error it builds. *)
Lemma fallback_guard_unreachable {St : Type} (env : Environment) (opts : Options St)
    (s t : jsstring) (st st' : St) :
  interpolateString s env opts st ≠
  (st', Thrown (new_SyntaxError (str "fallback not specified: '" ++ t ++ str "'"))).
Proof.
  intros H. apply failure_at_placeholder in H as (k & mt & _ & _ & Hcase).
  destruct Hcase as [(f & op & _ & _ & _ & He & _)|(_ & _ & _ & He)]; [|done].
  by destruct He.
Qed.

(** The string that stands for a stored value: its string form when the
    value is truthy, the empty string otherwise. *)
Lemma value_of_stored env nm v :
  own env !! nm = Some v → is_nullish v = false →
  is_undefined env nm = false ∧
  value_of env nm = if truthy v then toString v else [].
Proof.
  intros Hv%env_get_own Hnn.
  assert (is_undefined env nm = false) as Hdef by by rewrite is_undefined_lookup, Hv.
  split; [done|]. unfold value_of, js_or.
  rewrite rawValue_of_defined, Hv by done. by destruct (truthy v).
Qed.

(** C9: a stored number 5 is emitted as ["5"], but a stored number 0,
    though defined, is emitted as the empty string, not as ["0"]: the
    source forces a string by [(rawValue || '').toString()], and [0] is
    falsy.  The same goes for [false]. *)
Theorem falsy_value_emits_nothing :
  let env : Environment :=
    literal_object
      (<[str "FIVE" := JNumber (safe 5)]>
      (<[str "ZERO" := JNumber (safe 0)]>
      (<[str "NO" := JBoolean false]> ∅))) in
  toString (JNumber (safe 5)) = str "5" ∧
  toString (JNumber (safe 0)) = str "0" ∧
  interpolateString (str "$FIVE") env (quiet false false) tt = (tt, Returned (str "5")) ∧
  is_undefined env (str "ZERO") = false ∧
  interpolateString (str "$ZERO") env (quiet false false) tt = (tt, Returned []) ∧
  interpolateString (str "${ZERO-d}") env (quiet false false) tt = (tt, Returned []) ∧
  interpolateString (str "${ZERO:-d}") env (quiet false false) tt = (tt, Returned (str "d")) ∧
  interpolateString (str "$NO") env (quiet false false) tt = (tt, Returned []).
Proof. split_and!; by vm_compute. Qed.


(** * Further properties of the library *)

(** ** The shape of a match *)

Lemma dollars_run (d : jsstring) :
  Forall (λ a, is_dollar a = true) d → d = dollars (length d).
Proof.
  induction 1 as [|a d Ha _ IH]; [done|].
  apply is_dollar_true in Ha as ->. cbn. by f_equal.
Qed.

(** A match is some dollars and one of the three forms; its groups are
    the parts of that form. *)
Lemma exec_shape s t s' g :
  exec placeholder_regex s = Some (t, s', g) →
  s = t ++ s' ∧
  ∃ n nm, is_name nm ∧
    ((t = dollars (S n) ++ nm ∧ g = [escape n; Some nm; None; None; None]) ∨
     (t = dollars (S n) ++ "{"%char :: nm ++ ["}"%char] ∧
      g = [escape n; None; Some nm; None; None]) ∨
     (∃ kd fb, is_kind kd ∧ fb ≠ [] ∧ Forall (λ a, not_rbrace a = true) fb ∧
        t = dollars (S n) ++ "{"%char :: nm ++ kd ++ fb ++ ["}"%char] ∧
        g = [escape n; None; Some nm; Some kd; Some fb])).
Proof.
  intros [-> Hm]%exec_sound. split; [done|].
  rewrite groups_placeholder_regex in Hm.
  cbn [matches placeholder_regex placeholder_body Lit] in Hm.
  destruct Hm as (t1 & t2 & c1 & -> & Hesc & t3 & t4 & c2 & -> & (a & -> & Ha & ->) & Hbody).
  apply Ascii.eqb_eq in Ha as <-.
  assert (∃ n, t1 = dollars n ∧ c1 = [escape n; None; None; None; None])
    as (n & -> & ->).
  { destruct Hesc as [(c & (Hne & Hd & ->) & ->)|[-> ->]]; [|by exists 0].
    exists (length t1). split; [by apply dollars_run|]. destruct t1; [done|].
    cbn. do 2 f_equal. by apply dollars_run. }
  exists n. cbn [app]. rewrite dollars_snoc.
  destruct Hbody as [(c & (Hne & Hall & ->) & ->)|Hbrace].
  { exists t4. split; [done|]. by left. }
  destruct Hbrace as (t5 & t6 & c3 & -> & (b & -> & Hb & ->) & t7 & t8 & c4 & -> & Hname
    & t9 & t10 & c5 & -> & Hop & (b' & -> & Hb' & ->)).
  apply Ascii.eqb_eq in Hb as <-. apply Ascii.eqb_eq in Hb' as <-.
  destruct Hname as (c & (Hne & Hall & ->) & ->).
  exists t7. split; [done|]. right.
  destruct Hop as [(kd & fb & c6 & -> & (c7 & (Hkd & Hkind & ->) & ->) & c8 & (Hfb & Hnr & ->) & ->)|[-> ->]].
  - right. exists kd, fb. split_and!; [done|done|done| |done].
    cbn. by rewrite <- !app_assoc.
  - left. by split.
Qed.

(** ** Text that holds no placeholder *)

Lemma dollars_all n : Forall (λ a, is_dollar a = true) (dollars n).
Proof. by apply Forall_replicate. Qed.

(** What a match needs after its dollars: a name, or a brace that is
    closed further on. *)
Lemma exec_after_dollars m tail :
  stops is_dollar tail →
  exec placeholder_regex (dollars (S m) ++ tail) ≠ None →
  (∃ nm r, is_name nm ∧ tail = nm ++ r) ∨
  (∃ inner r, tail = "{"%char :: inner ++ "}"%char :: r).
Proof.
  intros Hstop Hexec.
  destruct (exec _ _) as [[[t s'] g]|] eqn:E; [clear Hexec|done].
  apply exec_shape in E as (Heq & n & nm & Hnm & Hform).
  assert (∃ body, t = dollars (S n) ++ body ∧ stops is_dollar (body ++ s') ∧
            ((body = nm) ∨ (∃ inner, body = "{"%char :: inner ++ ["}"%char])))
    as (body & -> & Hbody & Hcases).
  { destruct Hform as [[-> _]|[[-> _]|(kd & fb & _ & _ & _ & -> & _)]].
    - exists nm. split_and!; [done| |by left].
      destruct Hnm as [Hne Hall]. destruct Hall; [done|]. by apply word_not_dollar.
    - exists ("{"%char :: nm ++ ["}"%char]). split_and!; [done|done|]. right. by exists nm.
    - exists ("{"%char :: nm ++ kd ++ fb ++ ["}"%char]). split_and!; [done|done|].
      right. exists (nm ++ kd ++ fb). by rewrite <- !app_assoc. }
  rewrite <- app_assoc in Heq.
  apply run_unique with (p := is_dollar) in Heq as [_ ->];
    [|apply dollars_all|apply dollars_all|done|done].
  destruct Hcases as [->|[inner ->]].
  - left. by exists nm, s'.
  - right. exists inner, s'. cbn. by rewrite <- app_assoc.
Qed.

Lemma no_start_stops post : no_start post → stops is_dollar post.
Proof. destruct post; [done|]. by intros (? & _). Qed.

(** Dollars that no name and no brace follows are not the start of a
    match. *)
Lemma exec_bare_dollars m post :
  no_start post → exec placeholder_regex (dollars (S m) ++ post) = None.
Proof.
  intros Hpost. destruct (exec _ _) eqn:E; [exfalso|done].
  destruct (exec_after_dollars m post) as [(nm & r & [Hne Hall] & ->)|(inner & r & ->)];
    [by apply no_start_stops|by rewrite E| |].
  - destruct Hall as [|a nm Ha _]; [done|]. destruct Hpost as (_ & Hw & _). congruence.
  - by destruct Hpost as (_ & _ & ?).
Qed.

(** Nor are dollars before a brace that is never closed. *)
Lemma exec_unterminated m rest :
  Forall (λ a, not_rbrace a = true) rest →
  exec placeholder_regex (dollars (S m) ++ "{"%char :: rest) = None.
Proof.
  intros Hrest. destruct (exec _ _) eqn:E; [exfalso|done].
  destruct (exec_after_dollars m ("{"%char :: rest)) as [(nm & r & [Hne Hall] & Heq)|(inner & r & Heq)];
    [done|by rewrite E| |].
  - destruct Hall as [|a nm Ha _]; [done|]. by simplify_eq/=.
  - simplify_eq/=. apply Forall_app in Hrest as [_ Hr].
    by inversion_clear Hr.
Qed.

Section Text.
Context {St : Type} (env : Environment) (opts : Options St).
Implicit Types (st : St).

Lemma interpolateString_nil st : interpolateString [] env opts st = (st, Returned []).
Proof. reflexivity. Qed.

(** Dollars that start no match are copied. *)
Lemma interpolateString_dollars n tail st :
  (∀ m, exec placeholder_regex (dollars (S m) ++ tail) = None) →
  interpolateString (dollars n ++ tail) env opts st =
  (r <- interpolateString tail env opts ;; ret (dollars n ++ r)) st.
Proof.
  intros Hnone. induction n as [|n IH].
  - cbn [dollars replicate app]. by rewrite bind_ret_r.
  - change (dollars (S n) ++ tail) with ("$"%char :: dollars n ++ tail).
    unfold interpolateString in *. rewrite replace_copy by apply (Hnone n).
    unfold bind in *. rewrite IH.
    by destruct (replace _ _ tail st) as [st' [r|e]].
Qed.

End Text.

Lemma interpolateString_text {St : Type} (env : Environment)
    (opts : Options St) (st : St) (s : jsstring) :
  literal s →
  interpolateString s env opts st = (st, Returned s).
Proof.
  intros Hs. rewrite <- (app_nil_r s) at 1.
  rewrite interpolateString_literal by done.
  unfold bind, ret. rewrite interpolateString_nil. by rewrite app_nil_r.
Qed.

(** X1: a string without a dollar is returned as it is, whatever the
    environment and the options, and the callback is not invoked. *)
Theorem text_without_dollar_unchanged {St : Type} (env : Environment)
    (opts : Options St) (st : St) (s : jsstring) :
  literal s →
  interpolateString s env opts st = (st, Returned s).
Proof. apply interpolateString_text. Qed.

Lemma text_without_dollar_unchanged_witness :
  literal (str "no {placeholder}: here-? ") ∧
  interpolateString (str "no {placeholder}: here-? ") test_env (logging false false) [] =
    ([], Returned (str "no {placeholder}: here-? ")).
Proof.
  assert (literal (str "no {placeholder}: here-? ")) as H by (by repeat constructor).
  split; [exact H|].
  exact (text_without_dollar_unchanged test_env (logging false false) [] _ H).
Defined.

(** X2: dollars that are followed neither by a name nor by an opening
    brace are text: after literal text, a run of dollars at the end of the
    string, or before a character that is no dollar, no word character and
    no opening brace, is copied, and the scan goes on behind it. *)
Theorem bare_dollars_are_text {St : Type} (env : Environment) (opts : Options St)
    (st : St) (pre post : jsstring) (n : nat) :
  literal pre → no_start post →
  interpolateString (pre ++ dollars n ++ post) env opts st =
    (r <- interpolateString post env opts ;; ret (pre ++ dollars n ++ r)) st.
Proof.
  intros Hpre Hpost. rewrite interpolateString_literal by done.
  unfold bind at 1. rewrite interpolateString_dollars.
  - unfold bind, ret. by destruct (interpolateString post env opts st) as [st' [r|e]].
  - intros m. by apply exec_bare_dollars.
Qed.

Lemma bare_dollars_are_text_witness :
  literal (str "somevalue") ∧ no_start (str " and $VAR") ∧
  interpolateString (str "somevalue" ++ dollars 2 ++ str " and $VAR")
      test_env (quiet false false) tt =
    (r <- interpolateString (str " and $VAR") test_env (quiet false false) ;;
     ret (str "somevalue" ++ dollars 2 ++ r)) tt.
Proof.
  assert (literal (str "somevalue")) as H1 by (by repeat constructor).
  assert (no_start (str " and $VAR")) as H2 by (by repeat split).
  split_and!; [exact H1|exact H2|].
  exact (bare_dollars_are_text test_env (quiet false false) tt _ _ 2 H1 H2).
Defined.

(** X3: a brace that is never closed is text: when no closing brace
    follows, the dollars and the opening brace are copied and the scan
    goes on behind the brace, so that a placeholder further on is still
    substituted. *)
Theorem unterminated_brace_is_text {St : Type} (env : Environment) (opts : Options St)
    (st : St) (pre rest : jsstring) (n : nat) :
  literal pre → Forall (λ a, not_rbrace a = true) rest →
  interpolateString (pre ++ dollars (S n) ++ str "{" ++ rest) env opts st =
    (r <- interpolateString rest env opts ;;
     ret (pre ++ dollars (S n) ++ str "{" ++ r)) st.
Proof.
  intros Hpre Hrest. rewrite interpolateString_literal by done.
  unfold bind at 1. rewrite interpolateString_dollars.
  - unfold bind at 1.
    rewrite (interpolateString_literal env opts (str "{") rest) by by repeat constructor.
    unfold bind, ret. by destruct (interpolateString rest env opts st) as [st' [r|e]].
  - intros m. by apply exec_unterminated.
Qed.

Lemma unterminated_brace_is_text_witness :
  literal (str "some") ∧ Forall (λ a, not_rbrace a = true) (str "value $VAR") ∧
  interpolateString (str "some" ++ dollars 2 ++ str "{" ++ str "value $VAR")
      test_env (quiet false false) tt =
    (r <- interpolateString (str "value $VAR") test_env (quiet false false) ;;
     ret (str "some" ++ dollars 2 ++ str "{" ++ r)) tt.
Proof.
  assert (literal (str "some")) as H1 by (by repeat constructor).
  assert (Forall (λ a, not_rbrace a = true) (str "value $VAR")) as H2
    by (by repeat constructor).
  split_and!; [exact H1|exact H2|].
  exact (unterminated_brace_is_text test_env (quiet false false) tt _ _ 1 H1 H2).
Defined.


(** X4: an unescaped placeholder without operator, [$NAME] or [${NAME}],
    never fails by its decision.  The callback is shown it first, with
    what the lookup [env[name]] finds, and the rest of the string
    follows.  When the lookup finds nothing, or [null] or [undefined],
    the placeholder stands for nothing, or for itself when
    [preserveUndefined] is set; when it finds a string, an inherited one
    included, for that string; when it finds any other value, for its
    string form if the value is truthy and for nothing if it is not. *)
Theorem plain_placeholders {St : Type} (env : Environment) (opts : Options St)
    (st : St) (pre nm post : jsstring) :
  literal pre → is_name nm →
  (is_nullish (env_get env nm) = true →
   (stops is_word post →
    interpolateString (pre ++ (str "$" ++ nm) ++ post) env opts st =
      (_ <- invoke opts (plain_match nm JUndefined) ;;
       rest <- interpolateString post env opts ;;
       ret (pre ++ (if preserveUndefined opts then str "$" ++ nm else []) ++ rest)) st)
   ∧
   interpolateString (pre ++ braced nm ++ post) env opts st =
     (_ <- invoke opts (braced_match nm JUndefined) ;;
      rest <- interpolateString post env opts ;;
      ret (pre ++ (if preserveUndefined opts then braced nm else []) ++ rest)) st)
  ∧
  (∀ s, env_get env nm = JString s →
   (stops is_word post →
    interpolateString (pre ++ (str "$" ++ nm) ++ post) env opts st =
      (_ <- invoke opts (plain_match nm (JString s)) ;;
       rest <- interpolateString post env opts ;;
       ret (pre ++ s ++ rest)) st)
   ∧
   interpolateString (pre ++ braced nm ++ post) env opts st =
     (_ <- invoke opts (braced_match nm (JString s)) ;;
      rest <- interpolateString post env opts ;;
      ret (pre ++ s ++ rest)) st)
  ∧
  (∀ v, env_get env nm = v → is_nullish v = false →
   (stops is_word post →
    interpolateString (pre ++ (str "$" ++ nm) ++ post) env opts st =
      (_ <- invoke opts (plain_match nm v) ;;
       rest <- interpolateString post env opts ;;
       ret (pre ++ (if truthy v then toString v else []) ++ rest)) st)
   ∧
   interpolateString (pre ++ braced nm ++ post) env opts st =
     (_ <- invoke opts (braced_match nm v) ;;
      rest <- interpolateString post env opts ;;
      ret (pre ++ (if truthy v then toString v else []) ++ rest)) st).
Proof.
  intros Hpre Hnm.
  assert (∀ v, env_get env nm = v → is_nullish v = false →
            (stops is_word post →
             interpolateString (pre ++ (str "$" ++ nm) ++ post) env opts st =
               (_ <- invoke opts (plain_match nm v) ;;
                rest <- interpolateString post env opts ;;
                ret (pre ++ (if truthy v then toString v else []) ++ rest)) st)
            ∧
            interpolateString (pre ++ braced nm ++ post) env opts st =
              (_ <- invoke opts (braced_match nm v) ;;
               rest <- interpolateString post env opts ;;
               ret (pre ++ (if truthy v then toString v else []) ++ rest)) st)
    as Hdefined.
  { intros v Hv Hnn. destruct (lookup_defined env nm v Hv Hnn) as (Hdef & Hraw & Hval).
    split.
    - intros Hstop. rewrite plain_in_context by done.
      rewrite (plain_record_value env nm v Hraw).
      unfold plain_output. by rewrite Hdef, Hval.
    - rewrite braced_in_context by done.
      rewrite (braced_record_value env nm v Hraw).
      unfold plain_output. by rewrite Hdef, Hval. }
  split_and!.
  - intros Hnull.
    assert (is_undefined env nm = true) as Hundef by by rewrite is_undefined_lookup.
    pose proof (rawValue_of_undefined env nm Hundef) as Hraw.
    split.
    + intros Hstop. rewrite plain_in_context by done.
      rewrite (plain_record_value env nm JUndefined Hraw).
      unfold plain_output. by rewrite Hundef.
    + rewrite braced_in_context by done.
      rewrite (braced_record_value env nm JUndefined Hraw).
      unfold plain_output. by rewrite Hundef.
  - intros s Hs. destruct (Hdefined (JString s) Hs eq_refl) as [Ha Hb].
    assert ((if truthy (JString s) then toString (JString s) else []) = s) as Heq
      by (cbn; by case_bool_decide).
    rewrite Heq in Ha, Hb. by split.
  - exact Hdefined.
Qed.

(** [$UNSET], [${VAR}], [$NUMBER] and the inherited [$valueOf], through
    [plain_placeholders]: the callback's log and the result. *)
Lemma plain_placeholders_witness :
  interpolateString (str "some$UNSET.") test_env (logging false false) [] =
    ([plain_match (str "UNSET") JUndefined], Returned (str "some.")) ∧
  interpolateString (str "some${UNSET}.") test_env (logging false true) [] =
    ([braced_match (str "UNSET") JUndefined], Returned (str "some${UNSET}.")) ∧
  interpolateString (str "some${VAR}.") test_env (logging false false) [] =
    ([braced_match (str "VAR") (JString (str "value"))], Returned (str "somevalue.")) ∧
  interpolateString (str "some$NUMBER.") test_env (logging false false) [] =
    ([plain_match (str "NUMBER") (JNumber (safe 5))], Returned (str "some5.")) ∧
  interpolateString (str "some$valueOf.") test_env (logging false false) [] =
    ([plain_match (str "valueOf") (native "valueOf")],
     Returned (str "somefunction valueOf() { [native code] }.")).
Proof.
  assert (literal (str "some")) as H1 by (by repeat constructor).
  pose proof (λ o nm Hnm, plain_placeholders test_env o ([] : list Match)
                (str "some") nm (str ".") H1 Hnm) as H.
  split_and!.
  - destruct (H (logging false false) (str "UNSET")) as (Hu & _ & _); [name_ok|].
    destruct Hu as [Ha _]; [by vm_compute|].
    etransitivity; [exact (Ha eq_refl)|by vm_compute].
  - destruct (H (logging false true) (str "UNSET")) as (Hu & _ & _); [name_ok|].
    destruct Hu as [_ Ha]; [by vm_compute|].
    etransitivity; [exact Ha|by vm_compute].
  - destruct (H (logging false false) (str "VAR")) as (_ & Hs & _); [name_ok|].
    destruct (Hs (str "value")) as [_ Ha]; [by vm_compute|].
    etransitivity; [exact Ha|by vm_compute].
  - destruct (H (logging false false) (str "NUMBER")) as (_ & _ & Hv); [name_ok|].
    destruct (Hv (JNumber (safe 5))) as [Ha _]; [by vm_compute|done|].
    etransitivity; [exact (Ha eq_refl)|by vm_compute].
  - destruct (H (logging false false) (str "valueOf")) as (_ & _ & Hv); [name_ok|].
    destruct (Hv (native "valueOf")) as [Ha _]; [by vm_compute|done|].
    etransitivity; [exact (Ha eq_refl)|by vm_compute].
Defined.

(** X5: a stored string is emitted as it is stored, and what is emitted is
    not scanned again: whatever the string holds (dollars, placeholders),
    [$NAME] and [${NAME}] stand for exactly that string, under every
    setting of the options. *)
Theorem stored_string_verbatim {St : Type} (env : Environment) (opts : Options St)
    (st : St) (pre nm s post : jsstring) :
  own env !! nm = Some (JString s) → literal pre → is_name nm →
  (stops is_word post →
   interpolateString (pre ++ (str "$" ++ nm) ++ post) env opts st =
     (_ <- invoke opts (plain_record env nm) ;;
      rest <- interpolateString post env opts ;;
      ret (pre ++ s ++ rest)) st)
  ∧
  interpolateString (pre ++ braced nm ++ post) env opts st =
    (_ <- invoke opts (braced_record env nm) ;;
     rest <- interpolateString post env opts ;;
     ret (pre ++ s ++ rest)) st.
Proof.
  intros Hs Hpre Hnm. destruct (own_string env nm s Hs) as (Hdef & _ & Hval).
  split.
  - intros Hstop. rewrite plain_in_context by done.
    unfold plain_output. by rewrite Hdef, Hval.
  - rewrite braced_in_context by done.
    unfold plain_output. by rewrite Hdef, Hval.
Qed.

Lemma stored_string_verbatim_witness :
  own (env_set (str "A") (JString (str "$VAR ${B:?x}")) test_env) !! str "A"
    = Some (JString (str "$VAR ${B:?x}")) ∧
  interpolateString (str "a=$A")
      (env_set (str "A") (JString (str "$VAR ${B:?x}")) test_env) (logging false false) [] =
    ([plain_match (str "A") (JString (str "$VAR ${B:?x}"))],
     Returned (str "a=$VAR ${B:?x}")) ∧
  interpolateString (str "a=${A}")
      (env_set (str "A") (JString (str "$VAR ${B:?x}")) test_env) (logging false false) [] =
    ([braced_match (str "A") (JString (str "$VAR ${B:?x}"))],
     Returned (str "a=$VAR ${B:?x}")).
Proof.
  assert (own (env_set (str "A") (JString (str "$VAR ${B:?x}")) test_env) !! str "A"
          = Some (JString (str "$VAR ${B:?x}"))) as H0 by apply lookup_insert_eq.
  assert (literal (str "a=")) as H1 by (by repeat constructor).
  assert (is_name (str "A")) as H2 by name_ok.
  pose proof (stored_string_verbatim _ (logging false false) []
                (str "a=") (str "A") _ [] H0 H1 H2) as [Ha Hb].
  split_and!; [exact H0| |].
  - etransitivity; [exact (Ha I)|by vm_compute].
  - etransitivity; [exact Hb|by vm_compute].
Defined.

(** X6: an unbraced placeholder carries no operator: in [$NAME-text],
    [$NAME:?text] and the like, the name ends where the word characters
    end and what follows is text, copied behind what the placeholder
    stands for; no default is taken from it and no error is raised. *)
Theorem operator_after_bare_name_is_text {St : Type} (env : Environment)
    (opts : Options St) (st : St) (pre nm kd txt : jsstring) :
  literal pre → is_name nm → is_kind kd → literal txt →
  interpolateString (pre ++ (str "$" ++ nm) ++ kd ++ txt) env opts st =
    (_ <- invoke opts (plain_record env nm) ;;
     ret (pre ++ plain_output env opts nm (str "$" ++ nm) ++ kd ++ txt)) st.
Proof.
  intros Hpre Hnm [Hkd Hkind] Htxt.
  rewrite plain_in_context; [|done|done|].
  - unfold bind, ret. destruct (invoke _ _ st) as [st1 [[]|e]]; [|done].
    rewrite interpolateString_text; [done|].
    apply Forall_app. split; [|done].
    eapply Forall_impl; [exact Hkind|]. intros a. apply kind_not_dollar.
  - destruct Hkind as [|a kd Ha _]; [done|]. by apply kind_not_word.
Qed.

Lemma operator_after_bare_name_is_text_witness :
  interpolateString (str "$UNSET:?notanerror 1_^C#") test_env (logging false false) [] =
    ([plain_match (str "UNSET") JUndefined], Returned (str ":?notanerror 1_^C#")) ∧
  interpolateString (str "$VAR-notadefault") test_env (logging false false) [] =
    ([plain_match (str "VAR") (JString (str "value"))],
     Returned (str "value-notadefault")).
Proof.
  assert (literal (str "notanerror 1_^C#")) as H4 by (by repeat constructor).
  assert (literal (str "notadefault")) as H5 by (by repeat constructor).
  split.
  - etransitivity;
      [exact (operator_after_bare_name_is_text test_env (logging false false) []
                [] (str "UNSET") (str ":?") (str "notanerror 1_^C#")
                ltac:(constructor) ltac:(name_ok) ltac:(name_ok) H4)|].
    by vm_compute.
  - etransitivity;
      [exact (operator_after_bare_name_is_text test_env (logging false false) []
                [] (str "VAR") (str "-") (str "notadefault")
                ltac:(constructor) ltac:(name_ok) ltac:(name_ok) H5)|].
    by vm_compute.
Defined.

(** X7: for a name that is defined and whose value is not empty, the four
    operators make no difference: [${NAME-fb}], [${NAME?fb}],
    [${NAME:-fb}] and [${NAME:?fb}] all stand for the value, as [${NAME}]
    does; the fallback is not used and nothing is raised. *)
Theorem operators_agree_on_values {St : Type} (env : Environment) (opts : Options St)
    (st : St) (pre nm kd fb post : jsstring) :
  literal pre → is_name nm → is_fallback fb →
  kd ∈ [str "-"; str "?"; str ":-"; str ":?"] →
  is_undefined env nm = false → value_of env nm ≠ [] →
  interpolateString (pre ++ braced (nm ++ kd ++ fb) ++ post) env opts st =
    (_ <- invoke opts (operator_record env nm kd fb) ;;
     rest <- interpolateString post env opts ;;
     ret (pre ++ value_of env nm ++ rest)) st.
Proof.
  intros Hpre Hnm Hfb Hkd Hdef Hval.
  assert (is_kind kd) as Hkind.
  { repeat (apply elem_of_cons in Hkd as [->|Hkd]);
      [| | | |by apply elem_of_nil in Hkd]; split; first [done|by repeat constructor]. }
  rewrite unescaped_operator by done.
  unfold substitution, bind, settle.
  destruct (invoke _ _ st) as [st1 [[]|e]]; [|done].
  cbn [escaped operator_record value operator kind fallback].
  fold (is_undefined env nm) (value_of env nm). rewrite Hdef.
  rewrite (bool_decide_eq_false_2 (value_of env nm = [])) by done.
  repeat (apply elem_of_cons in Hkd as [->|Hkd]);
    [| | | |by apply elem_of_nil in Hkd]; by eval_kinds.
Qed.

Lemma operators_agree_on_values_witness :
  interpolateString (str "v=${NUMBER:?err};") test_env (logging false false) [] =
    ([operator_match (str "NUMBER") (str ":?") (str "err") (JNumber (safe 5))],
     Returned (str "v=5;")) ∧
  interpolateString (str "v=${VAR-err};") test_env (logging false false) [] =
    ([operator_match (str "VAR") (str "-") (str "err") (JString (str "value"))],
     Returned (str "v=value;")).
Proof.
  assert (literal (str "v=")) as H1 by (by repeat constructor).
  assert (is_fallback (str "err")) as H3
    by (split_and!; [done|by repeat constructor|by left]).
  split.
  - etransitivity;
      [exact (operators_agree_on_values test_env (logging false false) []
                (str "v=") (str "NUMBER") (str ":?") (str "err") (str ";")
                H1 ltac:(name_ok) H3 ltac:(by apply (bool_decide_unpack _))
                eq_refl ltac:(by vm_compute))|].
    by vm_compute.
  - etransitivity;
      [exact (operators_agree_on_values test_env (logging false false) []
                (str "v=") (str "VAR") (str "-") (str "err") (str ";")
                H1 ltac:(name_ok) H3 ltac:(by apply (bool_decide_unpack _))
                eq_refl ltac:(by vm_compute))|].
    by vm_compute.
Defined.


(** ** Escaped placeholders in context *)

Section EscapedContext.
Context {St : Type} (env : Environment) (opts : Options St).
Implicit Types (st : St).

(** An escaped match: the decision looks at nothing but [preserveEscaped]. *)
Lemma escaped_match pre t post g st n form nm op :
  literal pre →
  exec placeholder_regex (t ++ post) = Some (t, post, g) →
  t = dollars (S (S n)) ++ form →
  match_record env t g = escaped_record env n form nm op →
  interpolateString (pre ++ t ++ post) env opts st =
    (_ <- invoke opts (escaped_record env n form nm op) ;;
     rest <- interpolateString post env opts ;;
     ret (pre ++ dollars (if preserveEscaped opts then S (S n) else S n) ++ form ++ rest)) st.
Proof.
  intros Hpre Hexec -> Hrec.
  rewrite (interpolateString_placeholder env opts pre _ post _ _ st Hpre Hexec), Hrec.
  unfold substitution, bind, settle, ret. cbn [escaped escaped_record placeholder].
  destruct (invoke _ _ st) as [st1 [[]|e]]; [|done].
  destruct (preserveEscaped opts);
    destruct (interpolateString post env opts _) as [st' [rest|e]]; try done;
    cbn; by rewrite <- !app_assoc.
Qed.

End EscapedContext.

(** X8: with two dollars or more, a placeholder is escaped wherever it
    stands: it never fails, whatever its operator and whether or not its
    name is defined, and the environment has no part in what is emitted,
    which is the matched text less its first dollar, or the matched text
    itself with [preserveEscaped].  The callback is told of it, with the
    value the name resolves to. *)
Theorem escaped_in_context {St : Type} (env : Environment) (opts : Options St)
    (st : St) (n : nat) (pre nm kd fb post : jsstring) :
  literal pre → is_name nm → is_kind kd → is_fallback fb →
  let shown := dollars (if preserveEscaped opts then S (S n) else S n) in
  (stops is_word post →
   interpolateString (pre ++ (dollars (S (S n)) ++ nm) ++ post) env opts st =
     (_ <- invoke opts (escaped_record env n nm nm None) ;;
      rest <- interpolateString post env opts ;;
      ret (pre ++ shown ++ nm ++ rest)) st)
  ∧
  interpolateString (pre ++ (dollars (S (S n)) ++ str "{" ++ nm ++ str "}") ++ post)
      env opts st =
    (_ <- invoke opts (escaped_record env n (str "{" ++ nm ++ str "}") nm None) ;;
     rest <- interpolateString post env opts ;;
     ret (pre ++ shown ++ (str "{" ++ nm ++ str "}") ++ rest)) st
  ∧
  interpolateString
      (pre ++ (dollars (S (S n)) ++ str "{" ++ nm ++ kd ++ fb ++ str "}") ++ post)
      env opts st =
    (_ <- invoke opts (escaped_record env n (str "{" ++ nm ++ kd ++ fb ++ str "}") nm
                     (Some {| kind := kd; fallback := fb |})) ;;
     rest <- interpolateString post env opts ;;
     ret (pre ++ shown ++ (str "{" ++ nm ++ kd ++ fb ++ str "}") ++ rest)) st.
Proof.
  intros Hpre Hnm Hkd Hfb shown. unfold shown. split_and!.
  - intros Hstop.
    pose proof (exec_name (S n) nm post Hnm Hstop) as Hexec.
    rewrite (escaped_match env opts pre (dollars (S (S n)) ++ nm) post
               [escape (S n); Some nm; None; None; None] st n nm nm None);
      [done|done|by rewrite <- app_assoc|done|].
    destruct Hnm as [Hne _]. by destruct nm.
  - pose proof (exec_brace (S n) nm post Hnm) as Hexec.
    rewrite (escaped_match env opts pre (dollars (S (S n)) ++ str "{" ++ nm ++ str "}")
               post [escape (S n); None; Some nm; None; None] st n
               (str "{" ++ nm ++ str "}") nm None);
      [done|done| |done|done].
    cbn [str list_ascii_of_string app]. rewrite <- !app_assoc.
    cbn [app]. rewrite <- ?app_assoc. exact Hexec.
  - pose proof (exec_operator (S n) nm kd fb post Hnm Hkd Hfb) as Hexec.
    rewrite (escaped_match env opts pre
               (dollars (S (S n)) ++ str "{" ++ nm ++ kd ++ fb ++ str "}")
               post [escape (S n); None; Some nm; Some kd; Some fb] st n
               (str "{" ++ nm ++ kd ++ fb ++ str "}") nm
               (Some {| kind := kd; fallback := fb |}));
      [done|done| |done|done].
    cbn [str list_ascii_of_string app]. rewrite <- !app_assoc.
    cbn [app]. rewrite <- ?app_assoc. exact Hexec.
Qed.

Lemma escaped_in_context_witness :
  interpolateString (str "pre$$UNSET x") test_env (logging false false) [] =
    ([escaped_record test_env 0 (str "UNSET") (str "UNSET") None],
     Returned (str "pre$UNSET x")) ∧
  interpolateString (str "pre$$${VAR} x") test_env (logging true false) [] =
    ([escaped_record test_env 1 (str "{VAR}") (str "VAR") None],
     Returned (str "pre$$${VAR} x")) ∧
  interpolateString (str "pre$${UNSET?err} x") test_env (logging false false) [] =
    ([escaped_record test_env 0 (str "{UNSET?err}") (str "UNSET")
        (Some {| kind := str "?"; fallback := str "err" |})],
     Returned (str "pre${UNSET?err} x")).
Proof.
  assert (literal (str "pre")) as H1 by (by repeat constructor).
  assert (is_kind (str "?")) as H3 by name_ok.
  assert (is_fallback (str "err")) as H4
    by (split_and!; [done|by repeat constructor|by left]).
  split_and!.
  - destruct (escaped_in_context test_env (logging false false) [] 0
                (str "pre") (str "UNSET") (str "?") (str "err") (str " x")
                H1 ltac:(name_ok) H3 H4) as (Ha & _ & _).
    etransitivity; [exact (Ha eq_refl)|by vm_compute].
  - destruct (escaped_in_context test_env (logging true false) [] 1
                (str "pre") (str "VAR") (str "?") (str "err") (str " x")
                H1 ltac:(name_ok) H3 H4) as (_ & Ha & _).
    etransitivity; [exact Ha|by vm_compute].
  - destruct (escaped_in_context test_env (logging false false) [] 0
                (str "pre") (str "UNSET") (str "?") (str "err") (str " x")
                H1 ltac:(name_ok) H3 H4) as (_ & _ & Ha).
    etransitivity; [exact Ha|by vm_compute].
Defined.

(** ** The records the callback receives *)

(** Every match [replace] reports is a match of the expression at some
    place of the string. *)
Lemma matchAll_from_exec r s skip t g :
  (t, g) ∈ matchAll_from r s skip → ∃ s1 s', exec r s1 = Some (t, s', g).
Proof.
  revert skip. induction s as [|a s IH]; intros skip Hin; cbn [matchAll_from] in Hin.
  - destruct (exec r []) as [[[t0 s0] g0]|] eqn:E; [|by apply elem_of_nil in Hin].
    apply list_elem_of_singleton in Hin. simplify_eq. by exists [], s0.
  - destruct skip as [|n]; [|by eapply IH].
    destruct (exec r (a :: s)) as [[[t0 s0] g0]|] eqn:E; [|by eapply IH].
    apply elem_of_cons in Hin as [Heq|Hin]; [|by eapply IH].
    simplify_eq. by exists (a :: s), s0.
Qed.






(** ** The run of [interpolate] over a tree *)

Lemma passes_visited {St : Type} (opts : Options St) evs :
  Forall (passes opts) evs →
  Forall (returns opts) (visited evs) ∧
  (visited evs = [] ∨ is_Some (onMatchPlaceholder opts)).
Proof.
  induction 1 as [|ev evs Hev _ [IH1 IH2]]; [by split; [constructor|left]|].
  destruct ev as [mt|e]; [|done]. destruct Hev as [Hcb Hret].
  split; [by constructor|by right].
Qed.

(** X10: when [interpolate] returns, the callback has been invoked once
    for each placeholder of the tree, in the order of the traversal
    (elements and entries in order, each string left to right), the
    decision of every placeholder has returned, and the callback is a
    function unless the tree has no placeholder. *)
Theorem callback_order_on_success {St : Type} (env : Environment)
    (options : option (PartialOptions St)) (v v' : Value) (st st' : St) :
  interpolate v env options st = (st', Returned v') →
  st' = notify (merge_options options) (placeholders_in env v) st ∧
  Forall (returns (merge_options options)) (placeholders_in env v) ∧
  (placeholders_in env v = [] ∨
   is_Some (onMatchPlaceholder (merge_options options))).
Proof.
  intros H. pose proof (interpolate0_run (merge_options options) env v st) as Hrun.
  unfold interpolate, makeInterpolator in H. rewrite H in Hrun.
  destruct Hrun as [-> Hall]. apply passes_visited in Hall as [Hall Hcb].
  rewrite visited_events in *. done.
Qed.

Lemma callback_order_on_success_witness :
  interpolate shape_tree test_env
      (Some {| preserveEscaped_opt := None; preserveUndefined_opt := None;
               onMatchPlaceholder_opt := Some (Some log_match) |}) [] =
    ([plain_match (str "VAR") (JString (str "value"));
      operator_match (str "UNSET") (str ":-") (str "x") JUndefined],
     Returned (VObject ObjectPrototype
       [(str "$VAR",
         VArray [VScalar (JString (str "value")); VScalar (JNumber (safe 5))]);
        (str "p2", VScalar (JString (str "x")))]))
  ∧
  [plain_match (str "VAR") (JString (str "value"));
   operator_match (str "UNSET") (str ":-") (str "x") JUndefined] =
    foldl (λ st mt, log_match mt st) [] (placeholders_in test_env shape_tree).
Proof.
  assert (interpolate shape_tree test_env
      (Some {| preserveEscaped_opt := None; preserveUndefined_opt := None;
               onMatchPlaceholder_opt := Some (Some log_match) |}) [] =
    ([plain_match (str "VAR") (JString (str "value"));
      operator_match (str "UNSET") (str ":-") (str "x") JUndefined],
     Returned (VObject ObjectPrototype
       [(str "$VAR",
         VArray [VScalar (JString (str "value")); VScalar (JNumber (safe 5))]);
        (str "p2", VScalar (JString (str "x")))]))) as H by (by vm_compute).
  split; [exact H|].
  by destruct (callback_order_on_success test_env _ shape_tree _ [] _ H) as (-> & _).
Defined.




(** The two sides of [interpolate_returns_iff] on trees that fail. *)
Example interpolate_returns_iff_scenarios :
  events test_env unprintable_tree =
    [Visit (plain_match (str "VAR") (JString (str "value")));
     Fail (not_a_function (str "a.toString"));
     Visit (plain_match (str "EMPTY") (JString []))] ∧
  (interpolate unprintable_tree test_env None tt).2 =
    Thrown (not_a_function (str "a.toString")) ∧
  (interpolate failing_tree test_env None tt).2 = Thrown (ValueError (str "boom")) ∧
  (interpolate shape_tree test_env
     (Some {| preserveEscaped_opt := None; preserveUndefined_opt := None;
              onMatchPlaceholder_opt := Some None |}) tt).2 =
    Thrown (not_a_function (str "opts.onMatchPlaceholder")) ∧
  (interpolate (VArray [VScalar (JString (str "no placeholder"))]) test_env
     (Some {| preserveEscaped_opt := None; preserveUndefined_opt := None;
              onMatchPlaceholder_opt := Some None |}) tt).2 =
    Returned (VArray [VScalar (JString (str "no placeholder"))]).
Proof. split_and!; by vm_compute. Qed.

(** ** What a run depends on *)

Lemma matchAll_groups s skip t g :
  (t, g) ∈ matchAll_from placeholder_regex s skip → placeholder_groups g.
Proof.
  intros (s1 & s' & Hexec)%matchAll_from_exec.
  by destruct (exec_placeholder _ _ _ _ Hexec) as (_ & _ & Hg).
Qed.

Section Congruence.
Context {St : Type}.
Implicit Types st : St.

Lemma replace_from_ext r (f1 f2 : jsstring → captures → M St jsstring) s :
  ∀ skip st,
    (∀ t g, (t, g) ∈ matchAll_from r s skip → ∀ st0, f1 t g st0 = f2 t g st0) →
    replace_from r f1 s skip st = replace_from r f2 s skip st.
Proof.
  induction s as [|a s IH]; intros skip st Hf; cbn [replace_from matchAll_from] in *.
  - destruct (exec r []) as [[[t s0] g]|]; [|done].
    apply Hf, list_elem_of_singleton. done.
  - destruct skip as [|n]; [|by apply IH].
    destruct (exec r (a :: s)) as [[[t s0] g]|].
    + unfold bind. rewrite (Hf t g) by left.
      destruct (f2 t g st) as [st1 [out|e]]; [|done].
      rewrite IH; [done|]. intros t' g' Hin. apply Hf. by right.
    + unfold bind. by rewrite IH.
Qed.

Lemma mapM_ext {A B} (f1 f2 : A → M St B) l :
  Forall (λ a, ∀ st, f1 a st = f2 a st) l → ∀ st, mapM f1 l st = mapM f2 l st.
Proof.
  induction 1 as [|a l Ha _ IH]; intros st; [done|].
  change (mapM f1 (a :: l) st) with ((b <- f1 a ;; bs <- mapM f1 l ;; ret (b :: bs)) st).
  change (mapM f2 (a :: l) st) with ((b <- f2 a ;; bs <- mapM f2 l ;; ret (b :: bs)) st).
  unfold bind. rewrite Ha. destruct (f2 a st) as [st1 [b|e]]; [|done]. by rewrite IH.
Qed.

(** Two runs over the same tree agree as soon as they treat every
    placeholder of the tree alike. *)
Lemma interpolate0_ext env1 env2 (opts1 opts2 : Options St) v :
  (∀ s t g, s ∈ strings_of v → (t, g) ∈ matchAll placeholder_regex s →
            ∀ st, replacer env1 opts1 t g st = replacer env2 opts2 t g st) →
  ∀ st, interpolate0 v env1 opts1 st = interpolate0 v env2 opts2 st.
Proof.
  induction v as [x|elems IH|proto entries IH|result] using Value_tree_ind; intros Hf st.
  - destruct x as [| | | |s|text]; try done.
    cbn [interpolate0]. unfold bind, interpolateString, replace.
    rewrite (replace_from_ext _ _ (replacer env2 opts2)); [done|].
    intros t g Hin. apply (Hf s); [|done]. cbn. left.
  - cbn [interpolate0]. unfold bind.
    rewrite (mapM_ext _ (λ value, interpolate0 value env2 opts2)); [done|].
    apply Forall_forall. intros v Hv.
    rewrite Forall_forall in IH. apply (IH v Hv).
    intros s t g Hs. apply Hf. cbn [strings_of]. apply elem_of_flat_map. by exists v.
  - cbn [interpolate0].
    destruct (isObject (VObject proto entries)) as [[|]|e] eqn:Hobj; [|done..].
    unfold bind at 1 3, settle. unfold bind.
    rewrite (mapM_ext _ (λ kv, v <- interpolate0 kv.2 env2 opts2 ;; ret (kv.1, v))); [done|].
    apply Forall_forall. intros kv Hkv st0. unfold bind.
    rewrite Forall_forall in IH. rewrite (IH kv Hkv); [done|].
    intros s t g Hs. apply Hf. rewrite strings_of_object by done.
    apply elem_of_flat_map. by exists kv.
  - done.
Qed.

(** The environment is read at the names of the placeholders only, and
    through the normalised value only. *)
Lemma interpolate0_env env1 env2 (opts : Options St) v :
  (∀ nm, nm ∈ referenced_names_in v → rawValue_of env1 nm = rawValue_of env2 nm) →
  ∀ st, interpolate0 v env1 opts st = interpolate0 v env2 opts st.
Proof.
  intros Hnames. apply interpolate0_ext. intros s t g Hs Hin st.
  assert (placeholder_groups g) as Hg by by eapply matchAll_groups.
  rewrite !replacer_spec by done.
  assert (match_record env1 t g = match_record env2 t g) as ->; [|done].
  unfold match_record. rewrite Hnames; [done|].
  unfold referenced_names_in. apply elem_of_flat_map. exists s. split; [done|].
  unfold referenced_names. by apply (list_elem_of_fmap_2 (λ tg, name_of tg.2) _ (t, g)).
Qed.

(** Options that decide every placeholder of the tree alike and share the
    callback give the same run. *)
Lemma interpolate0_opts env (opts1 opts2 : Options St) v :
  onMatchPlaceholder opts1 = onMatchPlaceholder opts2 →
  Forall (λ mt, substitution opts1 mt = substitution opts2 mt) (placeholders_in env v) →
  ∀ st, interpolate0 v env opts1 st = interpolate0 v env opts2 st.
Proof.
  intros Hcb Hall. apply interpolate0_ext. intros s t g Hs Hin st.
  assert (placeholder_groups g) as Hg by by eapply matchAll_groups.
  rewrite !replacer_spec by done.
  assert (substitution opts1 (match_record env t g) =
          substitution opts2 (match_record env t g)) as ->; [|by unfold bind, invoke; rewrite Hcb].
  rewrite Forall_forall in Hall. apply Hall.
  unfold placeholders_in. apply elem_of_flat_map. exists s. split; [done|].
  unfold placeholders, placeholders_from.
  by apply (list_elem_of_fmap_2 (λ tg, match_record env tg.1 tg.2) _ (t, g)).
Qed.

End Congruence.


Lemma env_get_set nm v env nm' :
  env_get (env_set nm v env) nm' = if bool_decide (nm' = nm) then v else env_get env nm'.
Proof.
  destruct env as [entries proto]. unfold env_set. cbn.
  case_bool_decide as Heq.
  - subst. by rewrite lookup_insert_eq.
  - by rewrite lookup_insert_ne.
Qed.

Lemma env_get_delete nm env nm' :
  env_get (env_delete nm env) nm' =
  if bool_decide (nm' = nm) then inherited env nm else env_get env nm'.
Proof.
  destruct env as [entries proto]. unfold env_delete, inherited. cbn.
  case_bool_decide as Heq.
  - subst. by rewrite lookup_delete_eq.
  - by rewrite lookup_delete_ne.
Qed.

(** X14: the environment is read at the names of the placeholders and
    nowhere else: two environments in which the lookup [env[name]] finds
    the same at the names a tree refers to give the same run, state,
    result and failure alike, whatever else they hold or inherit. *)
Theorem only_referenced_names_matter {St : Type} (env1 env2 : Environment)
    (options : option (PartialOptions St)) (v : Value) (st : St) :
  (∀ nm, nm ∈ referenced_names_in v → env_get env1 nm = env_get env2 nm) →
  interpolate v env1 options st = interpolate v env2 options st.
Proof.
  intros Hnames. unfold interpolate, makeInterpolator.
  apply interpolate0_env. intros nm Hnm.
  unfold rawValue_of. by rewrite Hnames.
Qed.

(** The test environment, the same with one more entry, and the same
    without a prototype. *)
Lemma only_referenced_names_matter_witness :
  interpolate tree_of_var test_env
    (Some {| preserveEscaped_opt := None; preserveUndefined_opt := None;
             onMatchPlaceholder_opt := Some (Some log_match) |}) [] =
  interpolate tree_of_var env_more
    (Some {| preserveEscaped_opt := None; preserveUndefined_opt := None;
             onMatchPlaceholder_opt := Some (Some log_match) |}) []
  ∧
  interpolate tree_of_var test_env
    (Some {| preserveEscaped_opt := None; preserveUndefined_opt := None;
             onMatchPlaceholder_opt := Some (Some log_match) |}) [] =
  interpolate tree_of_var (bare_object test_entries)
    (Some {| preserveEscaped_opt := None; preserveUndefined_opt := None;
             onMatchPlaceholder_opt := Some (Some log_match) |}) []
  ∧
  interpolate tree_of_var test_env
    (Some {| preserveEscaped_opt := None; preserveUndefined_opt := None;
             onMatchPlaceholder_opt := Some (Some log_match) |}) [] =
    ([plain_match (str "VAR") (JString (str "value"));
      operator_match (str "NULL") (str ":-") (str "d") JUndefined],
     Returned (VArray [VScalar (JString (str "value and d")); VScalar (JNumber (safe 5))])).
Proof.
  assert (referenced_names_in tree_of_var = [str "VAR"; str "NULL"]) as Hnames
    by (by vm_compute).
  split_and!; [| |by vm_compute].
  - apply only_referenced_names_matter. rewrite Hnames. intros nm Hnm.
    repeat (apply elem_of_cons in Hnm as [->|Hnm]; [by vm_compute|]).
    by apply elem_of_nil in Hnm.
  - apply only_referenced_names_matter. rewrite Hnames. intros nm Hnm.
    repeat (apply elem_of_cons in Hnm as [->|Hnm]; [by vm_compute|]).
    by apply elem_of_nil in Hnm.
Defined.

(** X15: [null] and [undefined] are one to the library: an entry that
    holds either can hold the other with no change to the run, the
    callback being shown [undefined] in both cases.  And when nothing is
    inherited at its name, such an entry can be removed with no change
    either. *)
Theorem nullish_entry_as_absent {St : Type} (env : Environment)
    (options : option (PartialOptions St)) (v : Value) (st : St) (nm : jsstring) :
  own env !! nm = Some JNull ∨ own env !! nm = Some JUndefined →
  interpolate v env options st = interpolate v (env_set nm JUndefined env) options st ∧
  interpolate v env options st = interpolate v (env_set nm JNull env) options st ∧
  (is_nullish (inherited env nm) = true →
   interpolate v env options st = interpolate v (env_delete nm env) options st).
Proof.
  intros Hnull.
  assert (is_nullish (env_get env nm) = true) as Hget.
  { destruct Hnull as [H|H]; by rewrite (env_get_own _ _ _ H). }
  unfold interpolate, makeInterpolator. split_and!.
  - apply interpolate0_env. intros nm' _. unfold rawValue_of.
    rewrite env_get_set. case_bool_decide; [subst|done]. by rewrite Hget.
  - apply interpolate0_env. intros nm' _. unfold rawValue_of.
    rewrite env_get_set. case_bool_decide; [subst|done]. by rewrite Hget.
  - intros Hinh. apply interpolate0_env. intros nm' _. unfold rawValue_of.
    rewrite env_get_delete. case_bool_decide; [subst|done]. by rewrite Hget, Hinh.
Qed.

(** The entry [NULL] of the test environment; and an entry [toString]
    that holds [null], which cannot be removed without change, since
    [Object.prototype] has a [toString]. *)
Lemma nullish_entry_as_absent_witness :
  interpolate tree_of_var test_env
    (Some {| preserveEscaped_opt := None; preserveUndefined_opt := None;
             onMatchPlaceholder_opt := Some (Some log_match) |}) [] =
  interpolate tree_of_var (env_delete (str "NULL") test_env)
    (Some {| preserveEscaped_opt := None; preserveUndefined_opt := None;
             onMatchPlaceholder_opt := Some (Some log_match) |}) []
  ∧
  interpolate tree_of_var (env_delete (str "NULL") test_env)
    (Some {| preserveEscaped_opt := None; preserveUndefined_opt := None;
             onMatchPlaceholder_opt := Some (Some log_match) |}) [] =
    ([plain_match (str "VAR") (JString (str "value"));
      operator_match (str "NULL") (str ":-") (str "d") JUndefined],
     Returned (VArray [VScalar (JString (str "value and d")); VScalar (JNumber (safe 5))]))
  ∧
  interpolateString (str "$toString")
    (literal_object (<[str "toString" := JNull]> ∅)) (quiet false false) tt =
    (tt, Returned [])
  ∧
  interpolateString (str "$toString")
    (env_delete (str "toString") (literal_object (<[str "toString" := JNull]> ∅)))
    (quiet false false) tt =
    (tt, Returned (str "function toString() { [native code] }")).
Proof.
  assert (own test_env !! str "NULL" = Some JNull ∨
          own test_env !! str "NULL" = Some JUndefined) as H by (left; by vm_compute).
  destruct (nullish_entry_as_absent test_env
              (Some {| preserveEscaped_opt := None; preserveUndefined_opt := None;
                       onMatchPlaceholder_opt := Some (Some log_match) |})
              tree_of_var [] (str "NULL") H) as (_ & _ & Hdel).
  split_and!; [by apply Hdel|by vm_compute..].
Defined.

(** X16: [preserveEscaped] is looked at for escaped placeholders only: on
    a tree none of whose placeholders is escaped, its setting changes
    nothing of the run. *)
Theorem preserveEscaped_only_for_escaped {St : Type} (env : Environment)
    (opts : Options St) (b : bool) (v : Value) (st : St) :
  Forall (λ mt, escaped mt = false) (placeholders_in env v) →
  interpolate0 v env (with_preserveEscaped b opts) st = interpolate0 v env opts st.
Proof.
  intros Hall. apply interpolate0_opts; [done|].
  eapply Forall_impl; [exact Hall|]. intros mt Hesc.
  unfold substitution. by rewrite Hesc.
Qed.

Lemma preserveEscaped_only_for_escaped_witness :
  Forall (λ mt, escaped mt = false) (placeholders_in test_env tree_unescaped) ∧
  interpolate0 tree_unescaped test_env (with_preserveEscaped true (logging false false)) [] =
  interpolate0 tree_unescaped test_env (logging false false) [].
Proof.
  assert (Forall (λ mt, escaped mt = false) (placeholders_in test_env tree_unescaped))
    as H by (vm_compute; by repeat constructor).
  split; [exact H|].
  exact (preserveEscaped_only_for_escaped test_env (logging false false) true
           tree_unescaped [] H).
Defined.

(** X17: [preserveUndefined] is looked at for unescaped placeholders of
    undefined names only: on a tree whose placeholders are escaped or
    refer to names with a value, its setting changes nothing of the
    run. *)
Theorem preserveUndefined_only_for_undefined {St : Type} (env : Environment)
    (opts : Options St) (b : bool) (v : Value) (st : St) :
  Forall (λ mt, escaped mt = true ∨ is_nullish (value mt) = false)
    (placeholders_in env v) →
  interpolate0 v env (with_preserveUndefined b opts) st = interpolate0 v env opts st.
Proof.
  intros Hall. apply interpolate0_opts; [done|].
  eapply Forall_impl; [exact Hall|]. intros mt [Hesc|Hdef].
  - unfold substitution. by rewrite Hesc.
  - unfold substitution. by rewrite Hdef.
Qed.

Lemma preserveUndefined_only_for_undefined_witness :
  Forall (λ mt, escaped mt = true ∨ is_nullish (value mt) = false)
    (placeholders_in test_env tree_defined) ∧
  interpolate0 tree_defined test_env (with_preserveUndefined true (logging false false)) [] =
  interpolate0 tree_defined test_env (logging false false) [].
Proof.
  assert (Forall (λ mt, escaped mt = true ∨ is_nullish (value mt) = false)
            (placeholders_in test_env tree_defined)) as H.
  { vm_compute. repeat constructor; (by left) || (by right). }
  split; [exact H|].
  exact (preserveUndefined_only_for_undefined test_env (logging false false) true
           tree_defined [] H).
Defined.

(** ** The text between the placeholders *)

Lemma interleave_cons a g gaps parts :
  a :: interleave (g :: gaps) parts = interleave ((a :: g) :: gaps) parts.
Proof. by destruct parts. Qed.

Lemma replace_from_weave {St : Type} (env : Environment) (opts : Options St) s :
  ∀ skip st st' out,
    replace_from placeholder_regex (replacer env opts) s skip st = (st', Returned out) →
    ∃ gaps outs,
      length gaps = S (length (placeholders_from env s skip)) ∧
      drop skip s = interleave gaps (placeholder <$> placeholders_from env s skip) ∧
      Forall2 (λ mt o, substitution opts mt = Returned o)
        (placeholders_from env s skip) outs ∧
      out = interleave gaps outs.
Proof.
  unfold placeholders_from.
  induction s as [|a s IH]; intros skip st st' out; cbn [replace_from matchAll_from].
  { rewrite exec_nil. intros [= <- <-]. exists [[]], []. by destruct skip. }
  destruct skip as [|n]; [|apply IH].
  destruct (exec placeholder_regex (a :: s)) as [[[t s0] g]|] eqn:Hexec.
  - destruct (exec_placeholder _ _ _ _ Hexec) as (Hs & Hne & Hg).
    unfold bind at 1. rewrite replacer_spec by done. unfold bind, settle.
    destruct (invoke opts _ st) as [st0 [[]|e]]; [|done].
    destruct (substitution opts (match_record env t g)) as [o|e] eqn:Hsub; [|done].
    destruct (replace_from _ _ s _ _) as [st1 [rest|e]] eqn:Hrest; [|done].
    rewrite bool_decide_eq_false_2 by done. intros [= <- <-].
    destruct (IH _ _ _ _ Hrest) as (gaps & outs & Hlen & Hdrop & Houts & ->).
    exists ([] :: gaps), (o :: outs). cbn [map fmap list_fmap length fst snd].
    split_and!.
    + by rewrite Hlen.
    + cbn [interleave app placeholder match_record]. rewrite <- Hdrop.
      destruct t as [|b t]; [done|]. cbn in Hs. simplify_eq. cbn [length pred drop].
      by rewrite drop_app_length.
    + by constructor.
    + done.
  - unfold bind.
    destruct (replace_from _ _ s 0 st) as [st1 [rest|e]] eqn:Hrest; [|done].
    intros [= <- <-].
    destruct (IH _ _ _ _ Hrest) as (gaps & outs & Hlen & Hdrop & Houts & ->).
    destruct gaps as [|g0 gaps]; [done|].
    exists ((a :: g0) :: gaps), outs. split_and!; [done| |done|].
    + cbn [drop] in *. rewrite Hdrop at 1. apply interleave_cons.
    + apply interleave_cons.
Qed.

(** X18: when [interpolateString] returns, its result is the string with
    each placeholder replaced by what was decided for it: the string is
    the placeholders, in order, with text before, between and after them,
    and the result is the same text with the decisions in the places of
    the placeholders.  Nothing else of the string is changed, moved or
    dropped. *)
Theorem text_between_placeholders_kept {St : Type} (env : Environment)
    (opts : Options St) (s out : jsstring) (st st' : St) :
  interpolateString s env opts st = (st', Returned out) →
  ∃ gaps outs,
    length gaps = S (length (placeholders env s)) ∧
    s = interleave gaps (placeholder <$> placeholders env s) ∧
    Forall2 (λ mt o, substitution opts mt = Returned o) (placeholders env s) outs ∧
    out = interleave gaps outs.
Proof.
  intros H. exact (replace_from_weave env opts s 0 st st' out H).
Qed.

Lemma text_between_placeholders_kept_witness :
  interpolateString (str "a $VAR b ${UNSET:-x}$$c") test_env (logging false false) [] =
    ([plain_match (str "VAR") (JString (str "value"));
      operator_match (str "UNSET") (str ":-") (str "x") JUndefined;
      escaped_record test_env 0 (str "c") (str "c") None],
     Returned (str "a value b x$c"))
  ∧
  ∃ gaps outs,
    length gaps =
      S (length (placeholders test_env (str "a $VAR b ${UNSET:-x}$$c"))) ∧
    str "a $VAR b ${UNSET:-x}$$c" =
      interleave gaps
        (placeholder <$> placeholders test_env (str "a $VAR b ${UNSET:-x}$$c")) ∧
    Forall2 (λ mt o, substitution (logging false false) mt = Returned o)
      (placeholders test_env (str "a $VAR b ${UNSET:-x}$$c")) outs ∧
    str "a value b x$c" = interleave gaps outs.
Proof.
  assert (interpolateString (str "a $VAR b ${UNSET:-x}$$c") test_env
            (logging false false) [] =
    ([plain_match (str "VAR") (JString (str "value"));
      operator_match (str "UNSET") (str ":-") (str "x") JUndefined;
      escaped_record test_env 0 (str "c") (str "c") None],
     Returned (str "a value b x$c"))) as H by (by vm_compute).
  split; [exact H|].
  exact (text_between_placeholders_kept test_env (logging false false) _ _ [] _ H).
Defined.
